(** * Prompt-Manager-Pro: versioning, merge import and line diff

    A shallow embedding of the storage layer ([db.js]: prompts and prompt
    versions kept in two Dexie tables) and of the diff view
    ([diff.js]: [computeDiff]), followed by the properties of the
    versioning service, of the import merge and of the diff engine.

    Conventions of the embedding.
    - A Dexie table with an inbound primary key ([&id]) is the list of its
      records in primary-key order; [add] rejects an existing key with
      [ConstraintError], [update] of an absent key changes nothing and
      resolves normally, [get] of an absent key is [None] ([undefined]).
    - [Date.now()] and [crypto.randomUUID()] read two oracles; the world
      counts the reads, so that successive calls may return different
      values.
    - An [async] function is a computation [M A]: a function of the world
      returning either a value or a thrown exception, and the next world.
      Writes done before a throw stay in the world, as in the source. *)

From Stdlib Require Import List String Ascii ZArith Lia Bool Arith.
From Stdlib Require Import Permutation Sorted DecimalString DecimalNat.
From Equations Require Import Equations.
From Equations.Prop Require Import Logic.
Import ListNotations.
Open Scope string_scope.

(* ===================================================================== *)
(** * Records of the data model *)
(* ===================================================================== *)

Module Prompt.
Record t := mk {
  id : string;
  title : string;
  description : string;
  tags : list string;
  createdAt : Z;
  updatedAt : Z;
  archived : bool
}.
End Prompt.

Module Version.
Record t := mk {
  id : string;
  promptId : string;
  version : string;
  content : string;
  notes : string;
  createdAt : Z;
  updatedAt : Z
}.
End Version.

(** The [changes] object handed to [db.prompts.update]: each non-key
    property is either absent or carries the new value. The [id] of a
    spread prompt equals the key the update is addressed to, so it is not
    a change. *)
Record PromptChanges := {
  set_title : option string;
  set_description : option string;
  set_tags : option (list string);
  set_createdAt : option Z;
  set_updatedAt : option Z;
  set_archived : option bool
}.

(** [{}] *)
Definition no_changes : PromptChanges :=
  {| set_title := None; set_description := None; set_tags := None;
     set_createdAt := None; set_updatedAt := None; set_archived := None |}.

(** [{...prompt}] *)
Definition spread_prompt (p : Prompt.t) : PromptChanges :=
  {| set_title := Some (Prompt.title p);
     set_description := Some (Prompt.description p);
     set_tags := Some (Prompt.tags p);
     set_createdAt := Some (Prompt.createdAt p);
     set_updatedAt := Some (Prompt.updatedAt p);
     set_archived := Some (Prompt.archived p) |}.

(** [{...updates, updatedAt: now}] *)
Definition with_updatedAt (updates : PromptChanges) (now : Z) : PromptChanges :=
  {| set_title := set_title updates;
     set_description := set_description updates;
     set_tags := set_tags updates;
     set_createdAt := set_createdAt updates;
     set_updatedAt := Some now;
     set_archived := set_archived updates |}.

Definition or_keep {A} (change : option A) (current : A) : A :=
  match change with Some a => a | None => current end.

(** What Dexie's [update] does to the stored object: every property of
    [changes] is written over the stored one. *)
Definition apply_changes (changes : PromptChanges) (p : Prompt.t) : Prompt.t :=
  {| Prompt.id := Prompt.id p;
     Prompt.title := or_keep (set_title changes) (Prompt.title p);
     Prompt.description := or_keep (set_description changes) (Prompt.description p);
     Prompt.tags := or_keep (set_tags changes) (Prompt.tags p);
     Prompt.createdAt := or_keep (set_createdAt changes) (Prompt.createdAt p);
     Prompt.updatedAt := or_keep (set_updatedAt changes) (Prompt.updatedAt p);
     Prompt.archived := or_keep (set_archived changes) (Prompt.archived p) |}.

(* ===================================================================== *)
(** * Dexie tables *)
(* ===================================================================== *)

Section Table.
Variable R : Type.
Variable key : R -> string.

(** [table.get(k)] *)
Definition tbl_get (k : string) (t : list R) : option R :=
  find (fun r => key r =? k) t.

(** The object store keeps its records in ascending key order. *)
Fixpoint tbl_insert (r : R) (t : list R) : list R :=
  match t with
  | [] => [r]
  | x :: rest =>
      if String.ltb (key r) (key x) then r :: x :: rest
      else x :: tbl_insert r rest
  end.

(** [table.add(r)]: [None] stands for the rejected promise
    (ConstraintError, the key exists). *)
Definition tbl_add (r : R) (t : list R) : option (list R) :=
  match tbl_get (key r) t with
  | Some _ => None
  | None => Some (tbl_insert r t)
  end.

(** [table.update(k, changes)], [f] applying the changes. *)
Definition tbl_update (k : string) (f : R -> R) (t : list R) : list R :=
  map (fun r => if key r =? k then f r else r) t.
End Table.

Arguments tbl_get {R} key k t.
Arguments tbl_insert {R} key r t.
Arguments tbl_add {R} key r t.
Arguments tbl_update {R} key k f t.

(** A Dexie [Collection]: the matching records in index order and the
    direction of traversal, flipped by [reverse()]. *)
Inductive Direction := next | prev.

Record Collection := {
  items : list Version.t;
  dir : Direction
}.

(** [db.versions.where('promptId').equals(promptId)]: the entries of the
    [promptId] index with that value, which the index keeps in primary-key
    order. *)
Definition where_promptId_equals (promptId : string) (t : list Version.t)
  : Collection :=
  {| items := filter (fun v => Version.promptId v =? promptId) t;
     dir := next |}.

Definition reverse (c : Collection) : Collection :=
  {| items := items c;
     dir := match dir c with next => prev | prev => next end |}.

Definition toArray (c : Collection) : list Version.t :=
  match dir c with next => items c | prev => rev (items c) end.

(** [Array.prototype.sort(compare)]: the sort is stable, and for a
    consistent comparator its result is the one of a stable insertion
    sort: [a] stays before [b] unless [compare a b > 0]. *)
Section JsSort.
Variable A : Type.
Variable compare : A -> A -> Z.

Fixpoint sort_insert (a : A) (sorted : list A) : list A :=
  match sorted with
  | [] => [a]
  | b :: rest =>
      if (compare a b <=? 0)%Z then a :: b :: rest
      else b :: sort_insert a rest
  end.

Fixpoint js_sort (l : list A) : list A :=
  match l with
  | [] => []
  | a :: rest => sort_insert a (js_sort rest)
  end.
End JsSort.

Arguments sort_insert {A} compare a sorted.
Arguments js_sort {A} compare l.

(** The comparator of Dexie's [Collection.sortBy]:
    [aVal < bVal ? -order : aVal > bVal ? order : 0], with [order] 1 for a
    forward collection and -1 for a reversed one. *)
Definition sorter (order : Z) (a b : Version.t) : Z :=
  if (Version.createdAt a <? Version.createdAt b)%Z then (- order)%Z
  else if (Version.createdAt a >? Version.createdAt b)%Z then order
  else 0%Z.

(** [collection.sortBy('createdAt')] *)
Definition sortBy_createdAt (c : Collection) : list Version.t :=
  let order := match dir c with next => 1%Z | prev => (-1)%Z end in
  js_sort (sorter order) (toArray c).

(* ===================================================================== *)
(** * The world and the computations over it *)
(* ===================================================================== *)

Record World := {
  prompts : list Prompt.t;
  versions : list Version.t;
  clock_reads : nat;
  uuid_draws : nat
}.

Inductive Exn :=
| Error (message : string)
| ConstraintError.

Inductive Outcome (A : Type) :=
| Returned (a : A)
| Thrown (e : Exn).

Arguments Returned {A} a.
Arguments Thrown {A} e.

Definition M (A : Type) : Type := World -> Outcome A * World.

Definition ret {A} (a : A) : M A := fun w => (Returned a, w).

Definition throw {A} (e : Exn) : M A := fun w => (Thrown e, w).

Definition bind {A B} (c : M A) (k : A -> M B) : M B :=
  fun w =>
    match c w with
    | (Returned a, w') => k a w'
    | (Thrown e, w') => (Thrown e, w')
    end.

Declare Scope db_scope.
Delimit Scope db_scope with db.
Notation "x <- c ;; k" := (bind c (fun x => k))
  (at level 61, c at next level, right associativity) : db_scope.
Notation "c ;;; k" := (bind c (fun _ => k))
  (at level 61, right associativity) : db_scope.
Open Scope db_scope.

(** [for (const a of l) { s = body(a, s) }] *)
Fixpoint for_of {A S} (body : A -> S -> M S) (l : list A) (s : S) : M S :=
  match l with
  | [] => ret s
  | a :: rest => s' <- body a s ;; for_of body rest s'
  end.

(** [`v${n}`] *)
Definition version_label (n : nat) : string :=
  "v" ++ NilEmpty.string_of_uint (Nat.to_uint n).

(** [x || ''] for an argument that is a string or [undefined];
    the empty string is the only falsy string. *)
Definition or_empty (x : option string) : string :=
  match x with Some s => s | None => "" end.

Record ImportResult := {
  imported : nat;
  skipped : nat;
  merged : nat
}.

(** The import document: a top-level array that is missing is [None]. *)
Record ImportDoc := {
  doc_prompts : option (list Prompt.t);
  doc_versions : option (list Version.t)
}.

(* ===================================================================== *)
(** * More of Dexie and of the JavaScript library *)
(* ===================================================================== *)

(** [table.delete(k)], and the key of no record is a no-op. *)
Definition tbl_delete {R} (key : R -> string) (k : string) (t : list R)
  : list R :=
  filter (fun r => negb (key r =? k)) t.

(** A Dexie [Collection] over the prompts table. *)
Record PromptCollection := {
  prompt_items : list Prompt.t;
  prompt_dir : Direction
}.

(** [db.prompts.toCollection()]: all records, in primary-key order. *)
Definition toCollection (t : list Prompt.t) : PromptCollection :=
  {| prompt_items := t; prompt_dir := next |}.

(** [collection.filter(f)] *)
Definition prompts_filter (f : Prompt.t -> bool) (c : PromptCollection)
  : PromptCollection :=
  {| prompt_items := filter f (prompt_items c); prompt_dir := prompt_dir c |}.

(** [collection.reverse()] *)
Definition prompts_reverse (c : PromptCollection) : PromptCollection :=
  {| prompt_items := prompt_items c;
     prompt_dir := match prompt_dir c with next => prev | prev => next end |}.

(** [collection.toArray()] *)
Definition prompts_toArray (c : PromptCollection) : list Prompt.t :=
  match prompt_dir c with
  | next => prompt_items c
  | prev => rev (prompt_items c)
  end.

(** The comparator of [Collection.sortBy(keyPath)] for a key path read by
    [getval] and values compared by [ltb]:
    [aVal < bVal ? -order : aVal > bVal ? order : 0]. *)
Definition dexie_sorter {A K} (ltb : K -> K -> bool) (getval : A -> K)
    (order : Z) (a b : A) : Z :=
  if ltb (getval a) (getval b) then (- order)%Z
  else if ltb (getval b) (getval a) then order
  else 0%Z.

(** [collection.sortBy(keyPath)] on prompts. *)
Definition prompts_sortBy {K} (ltb : K -> K -> bool) (getval : Prompt.t -> K)
    (c : PromptCollection) : list Prompt.t :=
  let order := match prompt_dir c with next => 1%Z | prev => (-1)%Z end in
  js_sort (dexie_sorter ltb getval order) (prompts_toArray c).

(** The [options] of [getAllPrompts]: a property left out is [None]. *)
Record Options := {
  opt_archived : option bool;
  opt_sortBy : option string
}.

(** The [promptData] of [createPrompt]. *)
Module PromptData.
Record t := mk {
  title : option string;
  description : option string;
  tags : option (list string);
  content : option string;
  notes : option string
}.
End PromptData.

(** [x || fallback] for [x] a string or [undefined]. *)
Definition or_string (x : option string) (fallback : string) : string :=
  match x with
  | Some s => if s =? "" then fallback else s
  | None => fallback
  end.

(** [x || []] for [x] an array or [undefined]; every array is truthy. *)
Definition or_nil {A} (x : option (list A)) : list A :=
  match x with Some l => l | None => [] end.

(** The truth value of a string or [undefined] in a condition. *)
Definition truthy (x : option string) : bool :=
  match x with
  | Some s => negb (s =? "")
  | None => false
  end.

(** The [changes] object handed to [db.versions.update]. *)
Record VersionChanges := {
  set_v_promptId : option string;
  set_v_version : option string;
  set_v_content : option string;
  set_v_notes : option string;
  set_v_createdAt : option Z;
  set_v_updatedAt : option Z
}.

(** [{...updates, updatedAt: now}] *)
Definition version_with_updatedAt (updates : VersionChanges) (now : Z)
  : VersionChanges :=
  {| set_v_promptId := set_v_promptId updates;
     set_v_version := set_v_version updates;
     set_v_content := set_v_content updates;
     set_v_notes := set_v_notes updates;
     set_v_createdAt := set_v_createdAt updates;
     set_v_updatedAt := Some now |}.

Definition apply_version_changes (changes : VersionChanges) (v : Version.t)
  : Version.t :=
  {| Version.id := Version.id v;
     Version.promptId := or_keep (set_v_promptId changes) (Version.promptId v);
     Version.version := or_keep (set_v_version changes) (Version.version v);
     Version.content := or_keep (set_v_content changes) (Version.content v);
     Version.notes := or_keep (set_v_notes changes) (Version.notes v);
     Version.createdAt := or_keep (set_v_createdAt changes) (Version.createdAt v);
     Version.updatedAt := or_keep (set_v_updatedAt changes) (Version.updatedAt v) |}.

(** [s.includes(needle)]: [needle] occurs in [s]. *)
Fixpoint includes (s needle : string) : bool :=
  if String.prefix needle s then true
  else match s with
       | EmptyString => false
       | String _ rest => includes rest needle
       end.

(** [tags.includes(tag)] on an array of strings. *)
Definition array_includes (tags : list string) (tag : string) : bool :=
  existsb (fun t => t =? tag) tags.

(** A JavaScript [Map] from strings to numbers: the entries in insertion
    order; [set] on a key that is present replaces the value in place. *)
Fixpoint map_get (k : string) (m : list (string * nat)) : option nat :=
  match m with
  | [] => None
  | (k', v) :: rest => if k' =? k then Some v else map_get k rest
  end.

Fixpoint map_set (k : string) (v : nat) (m : list (string * nat))
  : list (string * nat) :=
  match m with
  | [] => [(k, v)]
  | (k', v') :: rest =>
      if k' =? k then (k, v) :: rest else (k', v') :: map_set k v rest
  end.

(** [x || 0] for [x] a number or [undefined]. *)
Definition or_zero (x : option nat) : nat :=
  match x with Some n => n | None => 0 end.

(** An entry of the result of [getAllTags]. *)
Record TagCount := {
  tag : string;
  count : nat
}.

(** The result of [getStats]. *)
Module Stats.
Record t := mk {
  prompts : nat;
  versions : nat;
  archived : nat;
  active : nat
}.
End Stats.

(** The result of [exportData]. *)
Module ExportData.
Record t := mk {
  version : nat;
  exportedAt : Z;
  prompts : list Prompt.t;
  versions : list Version.t
}.
End ExportData.

(** What [importData] reads of an exported object. *)
Definition as_import (data : ExportData.t) : ImportDoc :=
  {| doc_prompts := Some (ExportData.prompts data);
     doc_versions := Some (ExportData.versions data) |}.

(* ===================================================================== *)
(** * The storage layer (db.js) *)
(* ===================================================================== *)

Section Db.
(** The value of the k-th [Date.now()] and of the k-th
    [crypto.randomUUID()]. *)
Variable now_at : nat -> Z.
Variable uuid_at : nat -> string.

Definition Date_now : M Z :=
  fun w =>
    (Returned (now_at (clock_reads w)),
     {| prompts := prompts w; versions := versions w;
        clock_reads := S (clock_reads w); uuid_draws := uuid_draws w |}).

Definition randomUUID : M string :=
  fun w =>
    (Returned (uuid_at (uuid_draws w)),
     {| prompts := prompts w; versions := versions w;
        clock_reads := clock_reads w; uuid_draws := S (uuid_draws w) |}).

(** [db.prompts.get(id)] *)
Definition prompts_get (id : string) : M (option Prompt.t) :=
  fun w => (Returned (tbl_get Prompt.id id (prompts w)), w).

(** [db.prompts.add(prompt)] *)
Definition prompts_add (p : Prompt.t) : M unit :=
  fun w =>
    match tbl_add Prompt.id p (prompts w) with
    | Some t =>
        (Returned tt,
         {| prompts := t; versions := versions w;
            clock_reads := clock_reads w; uuid_draws := uuid_draws w |})
    | None => (Thrown ConstraintError, w)
    end.

(** [db.prompts.update(id, changes)] *)
Definition prompts_update (id : string) (changes : PromptChanges) : M unit :=
  fun w =>
    (Returned tt,
     {| prompts := tbl_update Prompt.id id (apply_changes changes) (prompts w);
        versions := versions w;
        clock_reads := clock_reads w; uuid_draws := uuid_draws w |}).

(** [db.versions.get(id)] *)
Definition versions_get (id : string) : M (option Version.t) :=
  fun w => (Returned (tbl_get Version.id id (versions w)), w).

(** [db.versions.add(version)] *)
Definition versions_add (v : Version.t) : M unit :=
  fun w =>
    match tbl_add Version.id v (versions w) with
    | Some t =>
        (Returned tt,
         {| prompts := prompts w; versions := t;
            clock_reads := clock_reads w; uuid_draws := uuid_draws w |})
    | None => (Thrown ConstraintError, w)
    end.

(** [db.versions.where('promptId').equals(promptId)], read from the
    current world. *)
Definition versions_where_promptId (promptId : string) : M Collection :=
  fun w => (Returned (where_promptId_equals promptId (versions w)), w).

(** db.js, [updatePrompt]. *)
Definition updatePrompt (id : string) (updates : PromptChanges) : M unit :=
  now <- Date_now ;;
  let updateData := with_updatedAt updates now in
  prompts_update id updateData.

(** db.js, [createVersion]; an argument left out is [None]. *)
Definition createVersion (promptId : string) (content notes : option string)
  : M string :=
  id <- randomUUID ;;
  now <- Date_now ;;
  c <- versions_where_promptId promptId ;;
  let existingVersions := toArray c in
  let versionNumber := List.length existingVersions + 1 in
  let versionString := version_label versionNumber in
  let version :=
    {| Version.id := id;
       Version.promptId := promptId;
       Version.version := versionString;
       Version.content := or_empty content;
       Version.notes := or_empty notes;
       Version.createdAt := now;
       Version.updatedAt := now |} in
  versions_add version ;;;
  updatePrompt promptId no_changes ;;;
  ret id.

(** db.js, [getVersion]. *)
Definition getVersion (id : string) : M (option Version.t) :=
  versions_get id.

(** db.js, [getVersionsByPrompt]. *)
Definition getVersionsByPrompt (promptId : string) : M (list Version.t) :=
  c <- versions_where_promptId promptId ;;
  ret (sortBy_createdAt (reverse c)).

(** db.js, [getLatestVersion]; [None] is [null]. *)
Definition getLatestVersion (promptId : string) : M (option Version.t) :=
  versions <- getVersionsByPrompt promptId ;;
  ret (match versions with
       | v :: _ => Some v
       | [] => None
       end).

(** db.js, [rollbackToVersion]. *)
Definition rollbackToVersion (versionId : string) : M string :=
  oldVersion <- getVersion versionId ;;
  match oldVersion with
  | None => throw (Error "Version not found")
  | Some oldVersion =>
      newVersionId <-
        createVersion (Version.promptId oldVersion)
          (Some (Version.content oldVersion))
          (Some ("Rollback to " ++ Version.version oldVersion)) ;;
      ret newVersionId
  end.

Definition count_imported (r : ImportResult) : ImportResult :=
  {| imported := imported r + 1; skipped := skipped r; merged := merged r |}.

Definition count_skipped (r : ImportResult) : ImportResult :=
  {| imported := imported r; skipped := skipped r + 1; merged := merged r |}.

Definition count_merged (r : ImportResult) : ImportResult :=
  {| imported := imported r; skipped := skipped r; merged := merged r + 1 |}.

(** The inner loop of the merge branch: one incoming version. *)
Definition merge_version (existingVersions : list Version.t)
    (version : Version.t) (r : ImportResult) : M ImportResult :=
  let versionExists :=
    existsb (fun v => Version.id v =? Version.id version) existingVersions in
  if negb versionExists then
    versions_add version ;;;
    ret (count_merged r)
  else ret r.

(** The body of the loop of [importData] over [data.prompts]; the three
    counters are the loop state. *)
Definition import_prompt (merge : bool) (data_versions : list Version.t)
    (prompt : Prompt.t) (r : ImportResult) : M ImportResult :=
  existing <- prompts_get (Prompt.id prompt) ;;
  match existing with
  | Some _ =>
      if negb merge then ret (count_skipped r)
      else
        existingVersions <- getVersionsByPrompt (Prompt.id prompt) ;;
        let importVersions :=
          filter (fun v => Version.promptId v =? Prompt.id prompt)
                 data_versions in
        r' <- for_of (merge_version existingVersions) importVersions r ;;
        now <- Date_now ;;
        prompts_update (Prompt.id prompt)
          (with_updatedAt (spread_prompt prompt) now) ;;;
        ret r'
  | None =>
      prompts_add prompt ;;;
      let versions :=
        filter (fun v => Version.promptId v =? Prompt.id prompt)
               data_versions in
      for_of (fun version (_ : unit) => versions_add version) versions tt ;;;
      ret (count_imported r)
  end.

(** db.js, [importData]. *)
Definition importData (data : ImportDoc) (merge : bool) : M ImportResult :=
  match doc_prompts data, doc_versions data with
  | Some data_prompts, Some data_versions =>
      for_of (import_prompt merge data_versions) data_prompts
        {| imported := 0; skipped := 0; merged := 0 |}
  | _, _ => throw (Error "Invalid import data format")
  end.
(** [String.prototype.toLowerCase], of the JavaScript library. *)
Variable toLowerCase : string -> string.

(** [db.prompts.delete(id)] *)
Definition prompts_delete (id : string) : M unit :=
  fun w =>
    (Returned tt,
     {| prompts := tbl_delete Prompt.id id (prompts w);
        versions := versions w;
        clock_reads := clock_reads w; uuid_draws := uuid_draws w |}).

(** [db.versions.delete(id)] *)
Definition versions_delete (id : string) : M unit :=
  fun w =>
    (Returned tt,
     {| prompts := prompts w;
        versions := tbl_delete Version.id id (versions w);
        clock_reads := clock_reads w; uuid_draws := uuid_draws w |}).

(** [db.versions.where('promptId').equals(promptId).delete()] *)
Definition versions_delete_where_promptId (promptId : string) : M unit :=
  fun w =>
    (Returned tt,
     {| prompts := prompts w;
        versions :=
          filter (fun v => negb (Version.promptId v =? promptId)) (versions w);
        clock_reads := clock_reads w; uuid_draws := uuid_draws w |}).

(** [db.versions.update(id, changes)] *)
Definition versions_update (id : string) (changes : VersionChanges) : M unit :=
  fun w =>
    (Returned tt,
     {| prompts := prompts w;
        versions :=
          tbl_update Version.id id (apply_version_changes changes) (versions w);
        clock_reads := clock_reads w; uuid_draws := uuid_draws w |}).

(** [db.prompts.toCollection()], read from the current world. *)
Definition prompts_toCollection : M PromptCollection :=
  fun w => (Returned (toCollection (prompts w)), w).

(** db.js, [createPrompt]. *)
Definition createPrompt (promptData : PromptData.t) : M string :=
  id <- randomUUID ;;
  now <- Date_now ;;
  let prompt :=
    {| Prompt.id := id;
       Prompt.title := or_string (PromptData.title promptData) "Untitled Prompt";
       Prompt.description := or_string (PromptData.description promptData) "";
       Prompt.tags := or_nil (PromptData.tags promptData);
       Prompt.createdAt := now;
       Prompt.updatedAt := now;
       Prompt.archived := false |} in
  prompts_add prompt ;;;
  (if truthy (PromptData.content promptData)
   then createVersion id (PromptData.content promptData)
          (PromptData.notes promptData) ;;; ret tt
   else ret tt) ;;;
  ret id.

(** db.js, [getPrompt]. *)
Definition getPrompt (id : string) : M (option Prompt.t) :=
  prompts_get id.

(** db.js, [getAllPrompts]. *)
Definition getAllPrompts (options : Options) : M (list Prompt.t) :=
  collection <- prompts_toCollection ;;
  let collection :=
    match opt_archived options with
    | Some false =>
        prompts_filter (fun p => negb (Prompt.archived p)) collection
    | Some true => prompts_filter (fun p => Prompt.archived p) collection
    | None => collection
    end in
  match opt_sortBy options with
  | Some sortBy =>
      if sortBy =? "title" then
        ret (prompts_sortBy String.ltb Prompt.title collection)
      else if sortBy =? "createdAt" then
        ret (prompts_sortBy Z.ltb Prompt.createdAt collection)
      else
        ret (prompts_sortBy Z.ltb Prompt.updatedAt (prompts_reverse collection))
  | None =>
      ret (prompts_sortBy Z.ltb Prompt.updatedAt (prompts_reverse collection))
  end.

(** [{ archived: false }] *)
Definition not_archived : Options :=
  {| opt_archived := Some false; opt_sortBy := None |}.

(** [{ archived: true }] as changes of a prompt. *)
Definition archive_changes : PromptChanges :=
  {| set_title := None; set_description := None; set_tags := None;
     set_createdAt := None; set_updatedAt := None;
     set_archived := Some true |}.

(** db.js, [deletePrompt]. *)
Definition deletePrompt (id : string) (hard : bool) : M unit :=
  if hard then
    versions_delete_where_promptId id ;;;
    prompts_delete id
  else
    updatePrompt id archive_changes.

(** db.js, [searchPrompts]. *)
Definition searchPrompts (query : string) : M (list Prompt.t) :=
  if query =? "" then getAllPrompts not_archived
  else
    let lowerQuery := toLowerCase query in
    c <- prompts_toCollection ;;
    let prompts :=
      prompts_toArray
        (prompts_filter (fun p => negb (Prompt.archived p)) c) in
    ret (filter
           (fun p =>
              let inTitle := includes (toLowerCase (Prompt.title p)) lowerQuery in
              let inDescription :=
                includes (toLowerCase (Prompt.description p)) lowerQuery in
              let inTags :=
                existsb (fun tag => includes (toLowerCase tag) lowerQuery)
                        (Prompt.tags p) in
              inTitle || inDescription || inTags)
           prompts).

(** db.js, [filterPromptsByTags]. *)
Definition filterPromptsByTags (tags : list string) : M (list Prompt.t) :=
  match tags with
  | [] => getAllPrompts not_archived
  | _ =>
      c <- prompts_toCollection ;;
      let prompts :=
        prompts_toArray
          (prompts_filter (fun p => negb (Prompt.archived p)) c) in
      ret (filter
             (fun p => forallb (fun tag => array_includes (Prompt.tags p) tag) tags)
             prompts)
  end.

(** db.js, [updateVersion]. *)
Definition updateVersion (id : string) (updates : VersionChanges) : M unit :=
  now <- Date_now ;;
  let updateData := version_with_updatedAt updates now in
  versions_update id updateData.

(** db.js, [deleteVersion]. *)
Definition deleteVersion (id : string) : M unit :=
  versions_delete id.

(** The two nested [forEach] of [getAllTags]. *)
Definition count_tag (tagMap : list (string * nat)) (tag : string)
  : list (string * nat) :=
  map_set tag (or_zero (map_get tag tagMap) + 1) tagMap.

Definition count_tags (prompts : list Prompt.t) : list (string * nat) :=
  fold_left (fun tagMap prompt => fold_left count_tag (Prompt.tags prompt) tagMap)
            prompts [].

(** db.js, [getAllTags]; the comparator is [b.count - a.count]. *)
Definition getAllTags : M (list TagCount) :=
  c <- prompts_toCollection ;;
  let prompts :=
    prompts_toArray (prompts_filter (fun p => negb (Prompt.archived p)) c) in
  let tagMap := count_tags prompts in
  ret (js_sort (fun a b => (Z.of_nat (count b) - Z.of_nat (count a))%Z)
               (map (fun entry => {| tag := fst entry; count := snd entry |})
                    tagMap)).

(** db.js, [exportData]. *)
Definition exportData : M ExportData.t :=
  c <- prompts_toCollection ;;
  let prompts := prompts_toArray c in
  versions <- (fun w => (Returned (versions w), w)) ;;
  now <- Date_now ;;
  ret {| ExportData.version := 1;
         ExportData.exportedAt := now;
         ExportData.prompts := prompts;
         ExportData.versions := versions |}.

(** db.js, [clearAllData]. *)
Definition clearAllData : M unit :=
  fun w =>
    (Returned tt,
     {| prompts := []; versions := [];
        clock_reads := clock_reads w; uuid_draws := uuid_draws w |}).

(** db.js, [getStats]. *)
Definition getStats : M Stats.t :=
  fun w =>
    let promptCount := List.length (prompts w) in
    let versionCount := List.length (versions w) in
    let archivedCount :=
      List.length (filter (fun p => Prompt.archived p) (prompts w)) in
    (Returned {| Stats.prompts := promptCount;
                 Stats.versions := versionCount;
                 Stats.archived := archivedCount;
                 Stats.active := promptCount - archivedCount |}, w).

(** The local adapter, [backup] and [restore]. *)
Definition backup : M ExportData.t := exportData.

Definition restore (data : ImportDoc) : M ImportResult :=
  importData data true.
End Db.

(* ===================================================================== *)
(** * The diff view (diff.js) *)
(* ===================================================================== *)

Module Diff.
Inductive LineType := added | removed | unchanged.

Record Line := mk {
  type : LineType;
  content : string
}.
End Diff.

Import Diff.

(** A read [lines[k]] of an array of strings is [nth_error lines k];
    [None] is [undefined], the value read at [k >= lines.length].
    [strict_eq] is [lines[k] === line] where [line] is a string. *)
Definition strict_eq (read : option string) (line : string) : bool :=
  match read with
  | Some s => s =? line
  | None => false
  end.

(** The [while] loop of [computeDiff], with [result] as accumulator. The
    tests [i >= oldLines.length] and [j >= newLines.length] are the cases
    [None] of the two reads; the loop ends when both are [None]. *)
Equations? computeDiff_loop (oldLines newLines : list string) (i j : nat)
    (result : list Line) : list Line
    by wf ((List.length oldLines - i) + (List.length newLines - j)) lt :=
  computeDiff_loop oldLines newLines i j result
    with inspect (nth_error oldLines i), inspect (nth_error newLines j) := {
    | exist _ None _, exist _ None _ := result
    | exist _ None _, exist _ (Some newLine) _ :=
        computeDiff_loop oldLines newLines i (j + 1)
          (result ++ [{| type := added; content := newLine |}])
    | exist _ (Some oldLine) _, exist _ None _ :=
        computeDiff_loop oldLines newLines (i + 1) j
          (result ++ [{| type := removed; content := oldLine |}])
    | exist _ (Some oldLine) _, exist _ (Some newLine) _
        with oldLine =? newLine := {
        | true :=
            computeDiff_loop oldLines newLines (i + 1) (j + 1)
              (result ++ [{| type := unchanged; content := oldLine |}])
        | false
            with strict_eq (nth_error oldLines (i + 1)) newLine,
                 strict_eq (nth_error newLines (j + 1)) oldLine := {
            | true, false :=
                computeDiff_loop oldLines newLines (i + 1) j
                  (result ++ [{| type := removed; content := oldLine |}])
            | false, true :=
                computeDiff_loop oldLines newLines i (j + 1)
                  (result ++ [{| type := added; content := newLine |}])
            | _, _ :=
                computeDiff_loop oldLines newLines (i + 1) (j + 1)
                  (result ++ [{| type := removed; content := oldLine |};
                              {| type := added; content := newLine |}]) } } }.
Proof.
  all: repeat match goal with
       | H : nth_error ?l ?k = Some _ |- _ =>
           assert (k < List.length l)
             by (apply nth_error_Some; rewrite H; discriminate);
           clear H
       end; lia.
Qed.

(** diff.js, [computeDiff]. *)
Definition computeDiff (oldLines newLines : list string) : list Line :=
  computeDiff_loop oldLines newLines 0 0 [].

(** [text.split('\n')]: the pieces between line feeds, one more than the
    number of line feeds. *)
Definition line_feed : ascii := ascii_of_nat 10.

Fixpoint split_lines (text : string) : list string :=
  match text with
  | EmptyString => [EmptyString]
  | String c rest =>
      if Ascii.eqb c line_feed then EmptyString :: split_lines rest
      else match split_lines rest with
           | piece :: pieces => String c piece :: pieces
           | [] => [String c EmptyString]
           end
  end.

(** The diff of two texts, as [renderDiff] computes it before
    rendering. *)
Definition diff (oldText newText : string) : list Line :=
  computeDiff (split_lines oldText) (split_lines newText).

(** ** The walk in the words of the specification

    Two list recursions over what is left of the old and of the new
    lines, with no index and no accumulator. [lookahead_walk] gives the
    removal lookahead precedence over the addition lookahead, as the
    sentence of the specification reads; [greedy_walk] lets a lookahead
    decide only when the other one fails. *)

Fixpoint lookahead_walk (old : list string) : list string -> list Line :=
  match old with
  | [] => map (Diff.mk added)
  | o :: os =>
      fix walk_new (new : list string) : list Line :=
        match new with
        | [] => map (Diff.mk removed) (o :: os)
        | n :: ns =>
            if o =? n then Diff.mk unchanged o :: lookahead_walk os ns
            else if strict_eq (hd_error os) n
                 then Diff.mk removed o :: lookahead_walk os (n :: ns)
            else if strict_eq (hd_error ns) o
                 then Diff.mk added n :: walk_new ns
            else Diff.mk removed o :: Diff.mk added n :: lookahead_walk os ns
        end
  end.

Fixpoint greedy_walk (old : list string) : list string -> list Line :=
  match old with
  | [] => map (Diff.mk added)
  | o :: os =>
      fix walk_new (new : list string) : list Line :=
        match new with
        | [] => map (Diff.mk removed) (o :: os)
        | n :: ns =>
            if o =? n then Diff.mk unchanged o :: greedy_walk os ns
            else match strict_eq (hd_error os) n, strict_eq (hd_error ns) o with
                 | true, false => Diff.mk removed o :: greedy_walk os (n :: ns)
                 | false, true => Diff.mk added n :: walk_new ns
                 | _, _ =>
                     Diff.mk removed o :: Diff.mk added n :: greedy_walk os ns
                 end
        end
  end.

(** The old side and the new side of a diff: the lines of the entries
    that are not additions, and of those that are not removals. *)
Definition old_side (d : list Line) : list string :=
  map content
    (filter (fun e => match type e with added => false | _ => true end) d).

Definition new_side (d : list Line) : list string :=
  map content
    (filter (fun e => match type e with removed => false | _ => true end) d).

(* ===================================================================== *)
(** * Escaping, models and search (diff.js, models.js, search.js) *)
(* ===================================================================== *)

(** [s.replace(/c/g, by)] for a pattern that is the one character [c]. *)
Fixpoint replace_all (c : ascii) (by_ : string) (s : string) : string :=
  match s with
  | EmptyString => EmptyString
  | String d rest =>
      if Ascii.eqb d c then by_ ++ replace_all c by_ rest
      else String d (replace_all c by_ rest)
  end.

(** The double quote. *)
Definition dquote : ascii := ascii_of_nat 34.

(** diff.js, [escapeHtml]; [!str] holds for the empty string. *)
Definition escapeHtml (str : string) : string :=
  if str =? "" then ""
  else
    replace_all "'" "&#039;"
      (replace_all dquote "&quot;"
         (replace_all ">" "&gt;"
            (replace_all "<" "&lt;"
               (replace_all "&" "&amp;" str)))).

(** models.js, [sanitizeString], on a string. *)
Definition sanitizeString (str : string) : string :=
  replace_all "/" "&#x2F;"
    (replace_all "'" "&#x27;"
       (replace_all dquote "&quot;"
          (replace_all ">" "&gt;"
             (replace_all "<" "&lt;" str)))).

(** A JavaScript string as [length] and [substring] see it: a sequence
    of UTF-16 code units. A character of the basic plane is one unit, any
    other character is a pair of surrogates, that is two units. *)
Definition code_unit : Type := N.
Definition js_string : Type := list code_unit.

(** The literal ['...']: three full stops, code unit 46 each. *)
Definition three_dots : js_string := [46; 46; 46]%N.

(** models.js, [truncate]; [!text] holds for the empty string,
    [text.length] is the number of code units and
    [text.substring(0, maxLength)] the first [maxLength] of them. *)
Definition truncate (text : js_string) (maxLength : nat) : js_string :=
  if (match text with [] => true | _ :: _ => false end)
     || (List.length text <=? maxLength)%nat
  then text
  else (firstn maxLength text ++ three_dots)%list.

(** [s.replace(pattern, by)] for a string pattern: the first occurrence
    is replaced. *)
Fixpoint replace_first (pattern by_ : string) (s : string) : string :=
  if String.prefix pattern s then
    by_ ++ substring (String.length pattern)
                     (String.length s - String.length pattern) s
  else match s with
       | EmptyString => EmptyString
       | String c rest => String c (replace_first pattern by_ rest)
       end.

(** models.js, [isCollectionTag] and [getCollectionName]. *)
Definition isCollectionTag (tag : string) : bool :=
  String.prefix "collection:" tag.

Definition getCollectionName (tag : string) : string :=
  if negb (isCollectionTag tag) then ""
  else replace_first "collection:" "" tag.

(** The state [performSearch] reads from the application state. *)
Record SearchState := {
  searchQuery : string;
  selectedTags : list string;
  smartFilter : option string;
  sortBy : string
}.

Section Search.
(** [String.prototype.toLowerCase], [String.prototype.trim] and
    [a.localeCompare(b, 'de')], of the JavaScript library. *)
Variable toLowerCase : string -> string.
Variable trim : string -> string.
Variable localeCompare : string -> string -> Z.

(** search.js, [sortPrompts]; the copy [[...prompts]] is the list. *)
Definition sortPrompts (prompts : list Prompt.t) (sortBy : string)
  : list Prompt.t :=
  let sorted := prompts in
  if sortBy =? "title" then
    js_sort (fun a b => localeCompare (Prompt.title a) (Prompt.title b)) sorted
  else if sortBy =? "createdAt" then
    js_sort (fun a b => (Prompt.createdAt b - Prompt.createdAt a)%Z) sorted
  else
    js_sort (fun a b => (Prompt.updatedAt b - Prompt.updatedAt a)%Z) sorted.

(** search.js, [performSearch], the state it reads as argument. *)
Definition performSearch (state : SearchState) : M (list Prompt.t) :=
  let normal :=
    if truthy (Some (searchQuery state))
       && truthy (Some (trim (searchQuery state))) then
      searchPrompts toLowerCase (trim (searchQuery state))
    else if (0 <? List.length (selectedTags state))%nat then
      filterPromptsByTags (selectedTags state)
    else getAllPrompts not_archived in
  results <-
    match smartFilter state with
    | Some filter_name =>
        if filter_name =? "recent" then
          results <- getAllPrompts
                       {| opt_archived := Some false;
                          opt_sortBy := Some "updatedAt" |} ;;
          ret (firstn 20 results)
        else if filter_name =? "untagged" then
          allPrompts <- getAllPrompts not_archived ;;
          ret (filter (fun p => List.length (Prompt.tags p) =? 0)%nat allPrompts)
        else if filter_name =? "archived" then
          getAllPrompts {| opt_archived := Some true; opt_sortBy := None |}
        else normal
    | None => normal
    end ;;
  let results :=
    if (0 <? List.length (selectedTags state))%nat
       && negb (truthy (smartFilter state)) then
      filter (fun prompt =>
                forallb (fun tag => array_includes (Prompt.tags prompt) tag)
                        (selectedTags state))
             results
    else results in
  ret (sortPrompts results (sortBy state)).
End Search.

(** An item of the ranking of [getRelatedPrompts]. *)
Record Scored := {
  scored_prompt : Prompt.t;
  score : nat
}.

(** search.js, [getRelatedPrompts], for a prompt that is given. *)
Definition getRelatedPrompts (prompt : Prompt.t) (limit : nat)
  : M (list Prompt.t) :=
  if (List.length (Prompt.tags prompt) =? 0)%nat then ret []
  else
    allPrompts <- getAllPrompts not_archived ;;
    let scored :=
      firstn limit
        (js_sort (fun a b => (Z.of_nat (score b) - Z.of_nat (score a))%Z)
           (filter (fun item => (0 <? score item)%nat)
              (map (fun p =>
                      let sharedTags :=
                        filter (fun tag => array_includes (Prompt.tags prompt) tag)
                               (Prompt.tags p) in
                      {| scored_prompt := p;
                         score := List.length sharedTags |})
                   (filter (fun p => negb (Prompt.id p =? Prompt.id prompt))
                           allPrompts)))) in
    ret (map scored_prompt scored).

(* ===================================================================== *)
(** * Notions used to state the properties *)
(* ===================================================================== *)

(** Descending [createdAt]: [a] may stand before [b]. *)
Definition newer_first (a b : Version.t) : Prop :=
  (Version.createdAt b <= Version.createdAt a)%Z.

(** The pure content of [getVersionsByPrompt]. *)
Definition versions_by_prompt (promptId : string) (t : list Version.t)
  : list Version.t :=
  sortBy_createdAt (reverse (where_promptId_equals promptId t)).

(** The prompt [p] after [updatePrompt(id, {})] at time [now]. *)
Definition touched (now : Z) (p : Prompt.t) : Prompt.t :=
  {| Prompt.id := Prompt.id p;
     Prompt.title := Prompt.title p;
     Prompt.description := Prompt.description p;
     Prompt.tags := Prompt.tags p;
     Prompt.createdAt := Prompt.createdAt p;
     Prompt.updatedAt := now;
     Prompt.archived := Prompt.archived p |}.

(** The prompt stored after the merge branch of the import has written
    the incoming prompt over the local one at time [now]. *)
Definition overwritten (now : Z) (incoming : Prompt.t) : Prompt.t :=
  {| Prompt.id := Prompt.id incoming;
     Prompt.title := Prompt.title incoming;
     Prompt.description := Prompt.description incoming;
     Prompt.tags := Prompt.tags incoming;
     Prompt.createdAt := Prompt.createdAt incoming;
     Prompt.updatedAt := now;
     Prompt.archived := Prompt.archived incoming |}.

(** No stored version has the id of [v]. *)
Definition absent_locally (t : list Version.t) (v : Version.t) : bool :=
  match tbl_get Version.id (Version.id v) t with
  | None => true
  | Some _ => false
  end.

(** The version names one of the prompts [ps]. *)
Definition names (ps : list Prompt.t) (v : Version.t) : bool :=
  existsb (fun p => Prompt.id p =? Version.promptId v) ps.

(** The prompt id is a key of the prompts table, as a test. *)
Definition stored_prompt (w : World) (promptId : string) : bool :=
  match tbl_get Prompt.id promptId (prompts w) with
  | Some _ => true
  | None => false
  end.

(** The versions table after [db.versions.add] of each of [news] in turn. *)
Definition insert_all (news t : list Version.t) : list Version.t :=
  fold_left (fun t v => tbl_insert Version.id v t) news t.

(** The prompt id is a key of the prompts table. *)
Definition known (w : World) (promptId : string) : Prop :=
  tbl_get Prompt.id promptId (prompts w) <> None.

(** Every version of the document that names the prompt has a stored
    version of the prompt with its id. *)
Definition covered (w : World) (data_versions : list Version.t)
    (promptId : string) : Prop :=
  forall v, In v data_versions -> Version.promptId v = promptId ->
    exists x, In x (versions w) /\ Version.id x = Version.id v /\
              Version.promptId x = promptId.

(** A computation keeps [Inv] when the world it leaves satisfies [Inv]
    whenever the world it starts from does, whether it returns or
    throws. *)
Definition preserves {A} (Inv : World -> Prop) (c : M A) : Prop :=
  forall w out w', Inv w -> c w = (out, w') -> Inv w'.

(** No two records of a table share their key. *)
Definition unique_ids (w : World) : Prop :=
  NoDup (map Prompt.id (prompts w)) /\ NoDup (map Version.id (versions w)).

(** The stored versions of [w0] are stored in [w], each under its id, as
    they were. *)
Definition keeps_versions (w0 w : World) : Prop :=
  forall k x, tbl_get Version.id k (versions w0) = Some x ->
    tbl_get Version.id k (versions w) = Some x.

(** The record [createVersion] builds in world [w]: the id is the next
    draw, the label counts the stored versions of the prompt. *)
Definition new_version (now_at : nat -> Z) (uuid_at : nat -> string)
    (promptId : string) (content notes : option string) (w : World)
  : Version.t :=
  {| Version.id := uuid_at (uuid_draws w);
     Version.promptId := promptId;
     Version.version :=
       version_label
         (List.length
            (filter (fun v => Version.promptId v =? promptId) (versions w)) + 1);
     Version.content := or_empty content;
     Version.notes := or_empty notes;
     Version.createdAt := now_at (clock_reads w);
     Version.updatedAt := now_at (clock_reads w) |}.

(** The filter of [getAllPrompts] on the [archived] flag. *)
Definition keep_archived (options : Options) (p : Prompt.t) : bool :=
  match opt_archived options with
  | Some false => negb (Prompt.archived p)
  | Some true => Prompt.archived p
  | None => true
  end.

(** [needle] occurs in [s]. *)
Definition occurs (needle s : string) : Prop :=
  exists a b, s = a ++ needle ++ b.

(** The tags carried by the prompts that are not archived, with their
    repetitions, in the order of the table. *)
Definition tags_in_use (w : World) : list string :=
  flat_map Prompt.tags
    (filter (fun p => negb (Prompt.archived p)) (prompts w)).

(** [q] is [p] but for [updatedAt]. *)
Definition same_but_updatedAt (q p : Prompt.t) : Prop :=
  q = touched (Prompt.updatedAt q) p.

(** The replacement of one character by [escapeHtml]. *)
Definition entity (c : ascii) : string :=
  if Ascii.eqb c "&" then "&amp;"
  else if Ascii.eqb c "<" then "&lt;"
  else if Ascii.eqb c ">" then "&gt;"
  else if Ascii.eqb c dquote then "&quot;"
  else if Ascii.eqb c "'" then "&#039;"
  else String c "".

(** A computation that reads the store and returns prompts that are
    stored and not archived. *)
Definition lists_active (c : M (list Prompt.t)) : Prop :=
  forall w, exists l,
    c w = (Returned l, w) /\
    forall p, In p l -> In p (prompts w) /\ Prompt.archived p = false.

(* ===================================================================== *)
(** * Sample stores and documents *)
(* ===================================================================== *)

(** A clock that advances by one millisecond per read, and ids drawn in
    sequence. *)
Definition clock (k : nat) : Z := (1700000000000 + Z.of_nat k)%Z.

Definition uuids (k : nat) : string :=
  "uuid-" ++ NilEmpty.string_of_uint (Nat.to_uint k).

Definition prompt_p1 : Prompt.t :=
  {| Prompt.id := "p1"; Prompt.title := "Greeting";
     Prompt.description := "Says hello"; Prompt.tags := ["mail"];
     Prompt.createdAt := 1000; Prompt.updatedAt := 1000;
     Prompt.archived := false |}.

Definition prompt_p2 : Prompt.t :=
  {| Prompt.id := "p2"; Prompt.title := "Summary";
     Prompt.description := ""; Prompt.tags := [];
     Prompt.createdAt := 2000; Prompt.updatedAt := 2000;
     Prompt.archived := false |}.

Definition version_1 : Version.t :=
  {| Version.id := "ver-1"; Version.promptId := "p1";
     Version.version := "v1"; Version.content := "A"; Version.notes := "";
     Version.createdAt := 1000; Version.updatedAt := 1000 |}.

(** A version of prompt p2 stored under the id ver-x. *)
Definition version_x_local : Version.t :=
  {| Version.id := "ver-x"; Version.promptId := "p2";
     Version.version := "v1"; Version.content := "S"; Version.notes := "";
     Version.createdAt := 2000; Version.updatedAt := 2000 |}.

(** The store of the scenarios: prompt p1 with its one version. *)
Definition store_p1 : World :=
  {| prompts := [prompt_p1]; versions := [version_1];
     clock_reads := 0; uuid_draws := 0 |}.

(** Prompts p1 and p2, each with one version. *)
Definition store_p1_p2 : World :=
  {| prompts := [prompt_p1; prompt_p2];
     versions := [version_1; version_x_local];
     clock_reads := 0; uuid_draws := 0 |}.

(** Records of an import document. *)
Definition prompt_p1_incoming : Prompt.t :=
  {| Prompt.id := "p1"; Prompt.title := "Greeting, revised";
     Prompt.description := "Says hello"; Prompt.tags := ["mail"; "short"];
     Prompt.createdAt := 1000; Prompt.updatedAt := 5000;
     Prompt.archived := false |}.

Definition prompt_p3_incoming : Prompt.t :=
  {| Prompt.id := "p3"; Prompt.title := "Translation";
     Prompt.description := ""; Prompt.tags := [];
     Prompt.createdAt := 3000; Prompt.updatedAt := 3000;
     Prompt.archived := false |}.

Definition version_2_incoming : Version.t :=
  {| Version.id := "ver-2"; Version.promptId := "p1";
     Version.version := "v2"; Version.content := "B"; Version.notes := "";
     Version.createdAt := 5000; Version.updatedAt := 5000 |}.

Definition version_3_incoming : Version.t :=
  {| Version.id := "ver-3"; Version.promptId := "p3";
     Version.version := "v1"; Version.content := "T"; Version.notes := "";
     Version.createdAt := 3000; Version.updatedAt := 3000 |}.

(** A version that names prompt p1 and carries the id ver-x. *)
Definition version_x_incoming : Version.t :=
  {| Version.id := "ver-x"; Version.promptId := "p1";
     Version.version := "v2"; Version.content := "B"; Version.notes := "";
     Version.createdAt := 5000; Version.updatedAt := 5000 |}.

(** [store_p1] after the merge import of the two incoming prompts with
    their versions. *)
Definition store_after_import : World :=
  {| prompts := [overwritten 1700000000000 prompt_p1_incoming;
                 prompt_p3_incoming];
     versions := [version_1; version_2_incoming; version_3_incoming];
     clock_reads := 1; uuid_draws := 0 |}.

(** Prompt p1 as last written at the millisecond that the clock gives
    at its second reading, and the store that holds it. *)
Definition prompt_p1_same_ms : Prompt.t := touched 1700000000001 prompt_p1.

Definition store_p1_same_ms : World :=
  {| prompts := [prompt_p1_same_ms]; versions := [version_1];
     clock_reads := 0; uuid_draws := 0 |}.

(** Prompt p1 as an import stores it when the document was written on a
    device whose clock is ahead: [importData] keeps the [updatedAt] of
    the document. *)
Definition prompt_p1_ahead : Prompt.t := touched 1800000000000 prompt_p1.

Definition store_p1_ahead : World :=
  {| prompts := [prompt_p1_ahead]; versions := [version_1];
     clock_reads := 0; uuid_draws := 0 |}.

(** A document with the new prompt p3, whose version ver-3 it lists
    twice, followed by the stored prompt p1 with the new version ver-2. *)
Definition doc_repeated_version : ImportDoc :=
  {| doc_prompts := Some [prompt_p3_incoming; prompt_p1_incoming];
     doc_versions :=
       Some [version_3_incoming; version_3_incoming; version_2_incoming] |}.

(** [store_p1] after the import of [doc_repeated_version] has stored p3
    and the first ver-3 and has been stopped by the second. *)
Definition store_after_rejected_import : World :=
  {| prompts := [prompt_p1; prompt_p3_incoming];
     versions := [version_1; version_3_incoming];
     clock_reads := 0; uuid_draws := 0 |}.

(** A second entry for prompt p1 in one document, with another title. *)
Definition prompt_p1_incoming_later : Prompt.t :=
  {| Prompt.id := "p1"; Prompt.title := "Greeting, second revision";
     Prompt.description := "Says hello"; Prompt.tags := ["mail"];
     Prompt.createdAt := 1000; Prompt.updatedAt := 6000;
     Prompt.archived := false |}.

(** Versions of the new prompt p3 that carry the ids ver-1 and ver-2. *)
Definition version_1_of_p3 : Version.t :=
  {| Version.id := "ver-1"; Version.promptId := "p3";
     Version.version := "v1"; Version.content := "T"; Version.notes := "";
     Version.createdAt := 3000; Version.updatedAt := 3000 |}.

Definition version_2_of_p3 : Version.t :=
  {| Version.id := "ver-2"; Version.promptId := "p3";
     Version.version := "v1"; Version.content := "T"; Version.notes := "";
     Version.createdAt := 3000; Version.updatedAt := 3000 |}.

(** Lower case of the letters A to Z, for the sample searches. *)
Definition lower_char (c : ascii) : ascii :=
  let n := nat_of_ascii c in
  if (65 <=? n)%nat && (n <=? 90)%nat then ascii_of_nat (n + 32) else c.

Fixpoint lower_ascii (s : string) : string :=
  match s with
  | EmptyString => EmptyString
  | String c rest => String (lower_char c) (lower_ascii rest)
  end.


Definition poem_data : PromptData.t :=
  {| PromptData.title := Some "Poem"; PromptData.description := None;
     PromptData.tags := None; PromptData.content := Some "Roses";
     PromptData.notes := None |}.

Definition untitled_data : PromptData.t :=
  {| PromptData.title := Some ""; PromptData.description := None;
     PromptData.tags := None; PromptData.content := Some "";
     PromptData.notes := None |}.

(* ===================================================================== *)
(** * Properties of the diff engine *)
(* ===================================================================== *)

Lemma skipn_nth_error_Some {A} (l : list A) (n : nat) (x : A) :
  nth_error l n = Some x -> skipn n l = x :: skipn (n + 1) l.
Proof.
  revert n. induction l as [|a l IH]; intros [|n] H; simpl in *; try discriminate.
  - congruence.
  - now apply IH.
Qed.

Lemma skipn_nth_error_None {A} (l : list A) (n : nat) :
  nth_error l n = None -> skipn n l = [].
Proof. intros H. apply skipn_all2. now apply nth_error_None. Qed.

Lemma hd_error_skipn {A} (l : list A) (n : nat) :
  hd_error (skipn n l) = nth_error l n.
Proof.
  revert n. induction l as [|a l IH]; intros [|n]; simpl; auto.
Qed.

Lemma greedy_walk_nil_l (new : list string) :
  greedy_walk [] new = map (Diff.mk added) new.
Proof. reflexivity. Qed.

Lemma greedy_walk_nil_r (old : list string) :
  greedy_walk old [] = map (Diff.mk removed) old.
Proof. destruct old; reflexivity. Qed.

Lemma greedy_walk_cons (o : string) (os : list string) (n : string)
    (ns : list string) :
  greedy_walk (o :: os) (n :: ns) =
    if o =? n then Diff.mk unchanged o :: greedy_walk os ns
    else match strict_eq (hd_error os) n, strict_eq (hd_error ns) o with
         | true, false => Diff.mk removed o :: greedy_walk os (n :: ns)
         | false, true => Diff.mk added n :: greedy_walk (o :: os) ns
         | _, _ => Diff.mk removed o :: Diff.mk added n :: greedy_walk os ns
         end.
Proof. reflexivity. Qed.

(** The loop invariant: from indices [i] and [j] the loop appends to
    [result] the walk over the lines that are left. *)
Lemma computeDiff_loop_walk (oldLines newLines : list string) (i j : nat)
    (result : list Line) :
  computeDiff_loop oldLines newLines i j result =
    (result ++ greedy_walk (skipn i oldLines) (skipn j newLines))%list.
Proof.
  funelim (computeDiff_loop oldLines newLines i j result);
    repeat match goal with
      | H : _ = computeDiff_loop _ _ _ _ _ |- _ => clear H
      | H : {| pr1 := _; pr2 := _ |} = _ |- _ => clear H
      | H : computeDiff_loop _ _ _ _ _ = _ |- _ => rewrite H; clear H
      end;
    repeat match goal with
      | H : nth_error ?l ?n = Some ?x |- _ =>
          rewrite (skipn_nth_error_Some l n x H); revert H
      | H : nth_error ?l ?n = None |- _ =>
          rewrite (skipn_nth_error_None l n H); revert H
      end; intros;
    rewrite ?greedy_walk_nil_l, ?greedy_walk_nil_r, ?greedy_walk_cons,
      ?hd_error_skipn;
    repeat match goal with
      | H : _ = true |- _ => rewrite H; clear H
      | H : _ = false |- _ => rewrite H; clear H
      end;
    simpl; rewrite <- ?app_assoc; simpl; rewrite ?app_nil_r; reflexivity.
Qed.

Lemma sides_of_added (l : list string) :
  old_side (map (Diff.mk added) l) = [] /\
  new_side (map (Diff.mk added) l) = l.
Proof.
  unfold old_side, new_side.
  induction l as [|x l [IHo IHn]]; simpl; [easy|].
  split; [assumption | now f_equal].
Qed.

Lemma sides_of_removed (l : list string) :
  old_side (map (Diff.mk removed) l) = l /\
  new_side (map (Diff.mk removed) l) = [].
Proof.
  unfold old_side, new_side.
  induction l as [|x l [IHo IHn]]; simpl; [easy|].
  split; [now f_equal | assumption].
Qed.

Lemma old_side_cons (e : Line) (d : list Line) :
  old_side (e :: d) =
    match type e with added => old_side d | _ => content e :: old_side d end.
Proof. unfold old_side. simpl. now destruct (type e). Qed.

Lemma new_side_cons (e : Line) (d : list Line) :
  new_side (e :: d) =
    match type e with removed => new_side d | _ => content e :: new_side d end.
Proof. unfold new_side. simpl. now destruct (type e). Qed.

Lemma greedy_walk_sides (old new : list string) :
  old_side (greedy_walk old new) = old /\
  new_side (greedy_walk old new) = new.
Proof.
  revert new. induction old as [|o os IHold]; intros new.
  - rewrite greedy_walk_nil_l. apply sides_of_added.
  - induction new as [|n ns IHnew].
    + rewrite greedy_walk_nil_r. apply sides_of_removed.
    + rewrite greedy_walk_cons.
      destruct (String.eqb_spec o n) as [->|Hneq].
      * destruct (IHold ns) as [Ho Hn].
        rewrite old_side_cons, new_side_cons; simpl. now rewrite Ho, Hn.
      * destruct (strict_eq (hd_error os) n), (strict_eq (hd_error ns) o);
          rewrite ?old_side_cons, ?new_side_cons; cbn [type content].
        all: try (destruct (IHold ns) as [Ho Hn]; now rewrite Ho, Hn).
        -- destruct (IHold (n :: ns)) as [Ho Hn]. now rewrite Ho, Hn.
        -- destruct IHnew as [Ho Hn]. now rewrite Ho, Hn.
Qed.

Lemma greedy_walk_same (l : list string) :
  greedy_walk l l = map (Diff.mk unchanged) l.
Proof.
  induction l as [|x l IH]; [reflexivity|].
  rewrite greedy_walk_cons, String.eqb_refl. simpl. now rewrite IH.
Qed.

Lemma computeDiff_walk (oldLines newLines : list string) :
  computeDiff oldLines newLines = greedy_walk oldLines newLines.
Proof.
  unfold computeDiff. now rewrite computeDiff_loop_walk.
Qed.

(** C8, as the code has it: [computeDiff] is the greedy walk in which a
    one-line lookahead decides only when the other lookahead fails. Equal
    current lines give an unchanged entry and advance both sides; if only
    old[i+1] equals new[j], old[i] is removed and only i advances; if only
    new[j+1] equals old[i], new[j] is added and only j advances; if neither
    or both lookaheads match, old[i] is removed, new[j] is added and both
    advance; when one side is exhausted the rest of the other side is
    emitted as additions or as removals. *)
Theorem computeDiff_is_greedy_walk (oldLines newLines : list string) :
  computeDiff oldLines newLines = greedy_walk oldLines newLines.
Proof. apply computeDiff_walk. Qed.

(** C8 as stated fails: on old lines a, b and new lines b, a both
    lookaheads match at the first step. The walk of the claim removes a
    and advances the old side only, so that b is then unchanged; the code
    emits the pair removed a, added b and advances both sides. Its output
    starts neither with a lone removal nor with an addition. *)
Lemma computeDiff_not_lookahead_walk :
  strict_eq (nth_error ["a"; "b"] (0 + 1)) "b" = true /\
  strict_eq (nth_error ["b"; "a"] (0 + 1)) "a" = true /\
  lookahead_walk ["a"; "b"] ["b"; "a"] =
    [Diff.mk removed "a"; Diff.mk unchanged "b"; Diff.mk added "a"] /\
  computeDiff ["a"; "b"] ["b"; "a"] =
    [Diff.mk removed "a"; Diff.mk added "b";
     Diff.mk removed "b"; Diff.mk added "a"] /\
  computeDiff ["a"; "b"] ["b"; "a"] <> lookahead_walk ["a"; "b"] ["b"; "a"].
Proof.
  split; [reflexivity|]. split; [reflexivity|]. split; [reflexivity|].
  assert (Hcode : computeDiff ["a"; "b"] ["b"; "a"] =
            [Diff.mk removed "a"; Diff.mk added "b";
             Diff.mk removed "b"; Diff.mk added "a"])
    by (rewrite computeDiff_walk; reflexivity).
  split; [exact Hcode|]. rewrite Hcode. discriminate.
Qed.

(** C9: the diff of a text with itself has only unchanged entries, and
    their lines are the lines of the text, in order. *)
Theorem diff_same_text (X : string) :
  diff X X = map (Diff.mk unchanged) (split_lines X).
Proof.
  unfold diff. rewrite computeDiff_walk.
  apply greedy_walk_same.
Qed.

(** C10: the entries that are unchanged or removed carry the old lines in
    their order, and the entries that are unchanged or added carry the new
    lines in their order. *)
Theorem computeDiff_conserves_inputs (oldLines newLines : list string) :
  old_side (computeDiff oldLines newLines) = oldLines /\
  new_side (computeDiff oldLines newLines) = newLines.
Proof.
  rewrite computeDiff_walk. apply greedy_walk_sides.
Qed.

(* ===================================================================== *)
(** * Facts about tables and sorting *)
(* ===================================================================== *)

Section TableFacts.
Context {R : Type} (key : R -> string).

Lemma tbl_get_Some (k : string) (t : list R) (r : R) :
  tbl_get key k t = Some r -> In r t /\ key r = k.
Proof.
  unfold tbl_get. intros H. apply find_some in H.
  destruct H as [Hin Hk]. split; [assumption | now apply String.eqb_eq].
Qed.

Lemma tbl_get_None (k : string) (t : list R) :
  tbl_get key k t = None <-> forall r, In r t -> key r <> k.
Proof.
  unfold tbl_get. split.
  - intros H r Hin Hk.
    apply (find_none _ _ H) in Hin. apply String.eqb_neq in Hin. contradiction.
  - intros H. induction t as [|x t IH]; [reflexivity|]. simpl.
    destruct (String.eqb_spec (key x) k) as [Hk|Hk].
    + exfalso. apply (H x); [now left | assumption].
    + apply IH. intros r Hin. apply H. now right.
Qed.

Lemma tbl_get_In (t : list R) (r : R) :
  In r t -> exists r', tbl_get key (key r) t = Some r'.
Proof.
  intros Hin. destruct (tbl_get key (key r) t) as [r'|] eqn:E.
  - now exists r'.
  - exfalso. apply (proj1 (tbl_get_None _ _) E r Hin). reflexivity.
Qed.

Lemma In_tbl_insert (r : R) (t : list R) (x : R) :
  In x (tbl_insert key r t) <-> x = r \/ In x t.
Proof.
  induction t as [|y t IH]; simpl.
  - intuition congruence.
  - destruct (String.ltb (key r) (key y)); simpl; [intuition congruence|].
    rewrite IH. intuition congruence.
Qed.

Lemma length_tbl_insert (r : R) (t : list R) :
  List.length (tbl_insert key r t) = S (List.length t).
Proof.
  induction t as [|y t IH]; simpl; [reflexivity|].
  destruct (String.ltb (key r) (key y)); simpl; [reflexivity|].
  now rewrite IH.
Qed.

Lemma tbl_get_insert_other (r : R) (t : list R) (k : string) :
  key r <> k -> tbl_get key k (tbl_insert key r t) = tbl_get key k t.
Proof.
  intros Hk. unfold tbl_get. induction t as [|y t IH]; simpl.
  - now apply String.eqb_neq in Hk as ->.
  - destruct (String.ltb (key r) (key y)); simpl.
    + now apply String.eqb_neq in Hk as ->.
    + now rewrite IH.
Qed.

Lemma tbl_get_insert_fresh (r : R) (t : list R) :
  tbl_get key (key r) t = None ->
  tbl_get key (key r) (tbl_insert key r t) = Some r.
Proof.
  unfold tbl_get. induction t as [|y t IH]; simpl.
  - now rewrite String.eqb_refl.
  - destruct (key y =? key r) eqn:E; [discriminate|]. intros H.
    destruct (String.ltb (key r) (key y)); simpl.
    + now rewrite String.eqb_refl.
    + rewrite E. now apply IH.
Qed.


Lemma filter_tbl_insert_in (f : R -> bool) (r : R) (t : list R) :
  f r = true ->
  List.length (filter f (tbl_insert key r t)) = S (List.length (filter f t)).
Proof.
  intros Hf. induction t as [|y t IH]; simpl.
  - now rewrite Hf.
  - destruct (String.ltb (key r) (key y)); simpl.
    + now rewrite Hf.
    + destruct (f y); simpl; now rewrite IH.
Qed.

Section Update.
Variable f : R -> R.
Hypothesis f_key : forall r, key (f r) = key r.

Lemma tbl_get_update_same (k : string) (t : list R) :
  tbl_get key k (tbl_update key k f t) = option_map f (tbl_get key k t).
Proof.
  unfold tbl_get, tbl_update. induction t as [|y t IH]; simpl; [reflexivity|].
  destruct (key y =? k) eqn:E.
  - now rewrite f_key, E.
  - now rewrite E.
Qed.

Lemma tbl_get_update_other (k k' : string) (t : list R) :
  k <> k' -> tbl_get key k' (tbl_update key k f t) = tbl_get key k' t.
Proof.
  intros Hk. unfold tbl_get, tbl_update.
  induction t as [|y t IH]; simpl; [reflexivity|].
  destruct (String.eqb_spec (key y) k) as [Ey|Ey].
  - rewrite f_key.
    assert ((key y =? k') = false) as -> by (apply String.eqb_neq; congruence).
    assumption.
  - destruct (key y =? k'); [reflexivity | assumption].
Qed.

Lemma tbl_get_update_is_Some (k k' : string) (t : list R) :
  tbl_get key k' (tbl_update key k f t) = None <-> tbl_get key k' t = None.
Proof.
  destruct (String.eqb_spec k k') as [->|Hk].
  - rewrite tbl_get_update_same. destruct (tbl_get key k' t); simpl;
      split; congruence.
  - now rewrite tbl_get_update_other.
Qed.
End Update.

Lemma tbl_update_absent (k : string) (f : R -> R) (t : list R) :
  tbl_get key k t = None -> tbl_update key k f t = t.
Proof.
  intros H. rewrite tbl_get_None in H. unfold tbl_update.
  induction t as [|y t IH]; simpl; [reflexivity|].
  destruct (String.eqb_spec (key y) k) as [Ey|Ey].
  - exfalso. apply (H y); [now left | assumption].
  - f_equal. apply IH. intros r Hin. apply H. now right.
Qed.
End TableFacts.

Section SortFacts.
Context {A : Type} (compare : A -> A -> Z).

Lemma sort_insert_Permutation (a : A) (l : list A) :
  Permutation (sort_insert compare a l) (a :: l).
Proof.
  induction l as [|b l IH]; simpl; [reflexivity|].
  destruct (compare a b <=? 0)%Z; [reflexivity|].
  rewrite IH. apply perm_swap.
Qed.

Lemma js_sort_Permutation (l : list A) :
  Permutation (js_sort compare l) l.
Proof.
  induction l as [|a l IH]; simpl; [reflexivity|].
  rewrite sort_insert_Permutation. now constructor.
Qed.

(** An order the comparator decides: [a] may stand before [b]. *)
Variable before : A -> A -> Prop.
Hypothesis compare_before : forall a b, (compare a b <= 0)%Z -> before a b.
Hypothesis compare_after : forall a b, (compare a b > 0)%Z -> before b a.

Lemma sort_insert_Sorted (a : A) (l : list A) :
  Sorted before l -> Sorted before (sort_insert compare a l).
Proof.
  induction l as [|b l IH]; simpl; intros Hs.
  - repeat constructor.
  - destruct (Z.leb_spec (compare a b) 0) as [Hle|Hgt].
    + constructor; [assumption|]. constructor. now apply compare_before.
    + inversion Hs as [|? ? Hs' Hhd]; subst.
      constructor; [now apply IH|].
      destruct l as [|c l]; simpl.
      * constructor. apply compare_after. lia.
      * destruct (compare a c <=? 0)%Z.
        -- constructor. apply compare_after. lia.
        -- constructor. now inversion Hhd.
Qed.

Lemma js_sort_Sorted (l : list A) : Sorted before (js_sort compare l).
Proof.
  induction l as [|a l IH]; simpl; [constructor|].
  now apply sort_insert_Sorted.
Qed.
End SortFacts.

Lemma newer_first_trans : Relations_1.Transitive newer_first.
Proof. unfold newer_first. intros a b c Hab Hbc. lia. Qed.

Lemma sorter_prev_before (a b : Version.t) :
  (sorter (-1) a b <= 0)%Z -> newer_first a b.
Proof.
  unfold sorter, newer_first.
  destruct (Z.ltb_spec (Version.createdAt a) (Version.createdAt b));
    [simpl; lia|].
  destruct (Z.gtb_spec (Version.createdAt a) (Version.createdAt b)); lia.
Qed.

Lemma sorter_prev_after (a b : Version.t) :
  (sorter (-1) a b > 0)%Z -> newer_first b a.
Proof.
  unfold sorter, newer_first.
  destruct (Z.ltb_spec (Version.createdAt a) (Version.createdAt b));
    [simpl; lia|].
  destruct (Z.gtb_spec (Version.createdAt a) (Version.createdAt b)); lia.
Qed.

Lemma versions_by_prompt_Permutation (promptId : string) (t : list Version.t) :
  Permutation (versions_by_prompt promptId t)
    (filter (fun v => Version.promptId v =? promptId) t).
Proof.
  unfold versions_by_prompt, sortBy_createdAt, toArray. simpl.
  rewrite js_sort_Permutation. symmetry. apply Permutation_rev.
Qed.

Lemma versions_by_prompt_sorted (promptId : string) (t : list Version.t) :
  StronglySorted newer_first (versions_by_prompt promptId t).
Proof.
  apply Sorted_StronglySorted; [exact newer_first_trans|].
  unfold versions_by_prompt, sortBy_createdAt. simpl.
  apply js_sort_Sorted; [exact sorter_prev_before | exact sorter_prev_after].
Qed.

Lemma In_versions_by_prompt (promptId : string) (t : list Version.t)
    (v : Version.t) :
  In v (versions_by_prompt promptId t) <->
  In v t /\ Version.promptId v = promptId.
Proof.
  assert (Hf : In v (filter (fun v => Version.promptId v =? promptId) t) <->
               In v t /\ Version.promptId v = promptId)
    by (rewrite filter_In, String.eqb_eq; reflexivity).
  rewrite <- Hf.
  split; apply Permutation_in;
    [|symmetry]; apply versions_by_prompt_Permutation.
Qed.

Lemma getVersionsByPrompt_eq (promptId : string) (w : World) :
  getVersionsByPrompt promptId w =
    (Returned (versions_by_prompt promptId (versions w)), w).
Proof. reflexivity. Qed.

(** C3: [getVersionsByPrompt] returns the stored versions of the prompt, no
    more and no fewer, newest [createdAt] first, and [getLatestVersion]
    returns the first element of that list, or nothing when it is empty;
    neither changes the store. *)
Theorem getVersionsByPrompt_descending (promptId : string) (w : World) :
  exists l,
    getVersionsByPrompt promptId w = (Returned l, w) /\
    Permutation l
      (filter (fun v => Version.promptId v =? promptId) (versions w)) /\
    StronglySorted newer_first l /\
    getLatestVersion promptId w = (Returned (hd_error l), w).
Proof.
  exists (versions_by_prompt promptId (versions w)).
  split; [reflexivity|].
  split; [apply versions_by_prompt_Permutation|].
  split; [apply versions_by_prompt_sorted|].
  unfold getLatestVersion, bind. rewrite getVersionsByPrompt_eq.
  unfold ret. now destruct (versions_by_prompt promptId (versions w)).
Qed.

(* ===================================================================== *)
(** * Properties of the record store and of the versioning service *)
(* ===================================================================== *)

Lemma apply_changes_id (changes : PromptChanges) (p : Prompt.t) :
  Prompt.id (apply_changes changes p) = Prompt.id p.
Proof. reflexivity. Qed.

Section DbFacts.
Variable now_at : nat -> Z.
Variable uuid_at : nat -> string.

Lemma updatePrompt_eq (id : string) (updates : PromptChanges) (w : World) :
  updatePrompt now_at id updates w =
    (Returned tt,
     {| prompts :=
          tbl_update Prompt.id id
            (apply_changes (with_updatedAt updates (now_at (clock_reads w))))
            (prompts w);
        versions := versions w;
        clock_reads := S (clock_reads w);
        uuid_draws := uuid_draws w |}).
Proof. reflexivity. Qed.

(** [updatePrompt] on a stored id merges the fields and sets [updatedAt]
    to the time read; the other prompts and all versions stay. *)
Lemma updatePrompt_present (id : string) (updates : PromptChanges)
    (w : World) (p : Prompt.t) :
  tbl_get Prompt.id id (prompts w) = Some p ->
  exists w',
    updatePrompt now_at id updates w = (Returned tt, w') /\
    tbl_get Prompt.id id (prompts w') =
      Some (apply_changes (with_updatedAt updates (now_at (clock_reads w))) p) /\
    (forall k, k <> id ->
       tbl_get Prompt.id k (prompts w') = tbl_get Prompt.id k (prompts w)) /\
    versions w' = versions w.
Proof.
  intros Hp. eexists. split; [apply updatePrompt_eq|]. simpl.
  split; [|split; [|reflexivity]].
  - rewrite tbl_get_update_same by apply apply_changes_id. now rewrite Hp.
  - intros k Hk. apply tbl_get_update_other; [apply apply_changes_id|congruence].
Qed.

(** [updatePrompt] on an id that is not stored resolves normally and
    leaves both tables as they are: no exception reaches the caller. *)
Lemma updatePrompt_absent (id : string) (updates : PromptChanges) (w : World) :
  tbl_get Prompt.id id (prompts w) = None ->
  updatePrompt now_at id updates w =
    (Returned tt,
     {| prompts := prompts w; versions := versions w;
        clock_reads := S (clock_reads w); uuid_draws := uuid_draws w |}).
Proof.
  intros Hp. rewrite updatePrompt_eq. now rewrite tbl_update_absent.
Qed.

(** What one call of [createVersion] does when the drawn id is unused. *)
Lemma createVersion_run (promptId : string)
    (content notes : option string) (w : World) (N : nat) :
  List.length
    (filter (fun v => Version.promptId v =? promptId) (versions w)) = N ->
  tbl_get Version.id (uuid_at (uuid_draws w)) (versions w) = None ->
  exists w',
    createVersion now_at uuid_at promptId content notes w =
      (Returned (uuid_at (uuid_draws w)), w') /\
    tbl_get Version.id (uuid_at (uuid_draws w)) (versions w') =
      Some {| Version.id := uuid_at (uuid_draws w);
              Version.promptId := promptId;
              Version.version := version_label (N + 1);
              Version.content := or_empty content;
              Version.notes := or_empty notes;
              Version.createdAt := now_at (clock_reads w);
              Version.updatedAt := now_at (clock_reads w) |} /\
    (forall k, k <> uuid_at (uuid_draws w) ->
       tbl_get Version.id k (versions w') = tbl_get Version.id k (versions w)) /\
    List.length
      (filter (fun v => Version.promptId v =? promptId) (versions w')) = N + 1 /\
    (forall p, tbl_get Prompt.id promptId (prompts w) = Some p ->
       tbl_get Prompt.id promptId (prompts w') =
         Some (touched (now_at (S (clock_reads w))) p)) /\
    (forall k, k <> promptId ->
       tbl_get Prompt.id k (prompts w') = tbl_get Prompt.id k (prompts w)).
Proof.
  intros HN Hfresh.
  unfold createVersion, bind, randomUUID, Date_now, versions_where_promptId,
    versions_add, tbl_add, ret.
  cbn [prompts versions clock_reads uuid_draws toArray
       where_promptId_equals items dir Version.id].
  rewrite Hfresh, HN, updatePrompt_eq.
  eexists. split; [reflexivity|].
  cbn [prompts versions clock_reads uuid_draws].
  repeat split.
  - match goal with
    | |- tbl_get _ _ (tbl_insert _ ?v _) = _ =>
        exact (tbl_get_insert_fresh Version.id v (versions w) Hfresh)
    end.
  - intros k Hk. apply tbl_get_insert_other. simpl. congruence.
  - rewrite filter_tbl_insert_in; [lia|]. simpl. apply String.eqb_refl.
  - intros p Hp.
    rewrite tbl_get_update_same by apply apply_changes_id. now rewrite Hp.
  - intros k Hk.
    apply tbl_get_update_other; [apply apply_changes_id|congruence].
Qed.

(** C1, as the code has it: with N stored versions of the prompt,
    [createVersion] stores a new version under the drawn id whose label
    is the letter v followed by the decimal digits of N+1, and of no
    other number, with the given content and notes and the time read;
    it leaves the other versions as they are, so the prompt then has N+1
    versions. The empty update that follows sets the [updatedAt] of the
    parent prompt to the time it reads, whatever the content, changing
    no other field and no other prompt: [updatedAt] is later than before
    whenever that reading is later than the stored value. *)
Theorem createVersion_next_label (promptId : string)
    (content notes : option string) (w : World) (N : nat) :
  List.length
    (filter (fun v => Version.promptId v =? promptId) (versions w)) = N ->
  tbl_get Version.id (uuid_at (uuid_draws w)) (versions w) = None ->
  exists w',
    createVersion now_at uuid_at promptId content notes w =
      (Returned (uuid_at (uuid_draws w)), w') /\
    tbl_get Version.id (uuid_at (uuid_draws w)) (versions w') =
      Some {| Version.id := uuid_at (uuid_draws w);
              Version.promptId := promptId;
              Version.version :=
                "v" ++ NilEmpty.string_of_uint (Nat.to_uint (N + 1));
              Version.content := or_empty content;
              Version.notes := or_empty notes;
              Version.createdAt := now_at (clock_reads w);
              Version.updatedAt := now_at (clock_reads w) |} /\
    (forall created M,
       tbl_get Version.id (uuid_at (uuid_draws w)) (versions w') =
         Some created ->
       Version.version created =
         "v" ++ NilEmpty.string_of_uint (Nat.to_uint M) ->
       M = N + 1) /\
    (forall k, k <> uuid_at (uuid_draws w) ->
       tbl_get Version.id k (versions w') = tbl_get Version.id k (versions w)) /\
    List.length
      (filter (fun v => Version.promptId v =? promptId) (versions w')) = N + 1 /\
    (forall p, tbl_get Prompt.id promptId (prompts w) = Some p ->
       exists p',
         tbl_get Prompt.id promptId (prompts w') = Some p' /\
         p' = touched (now_at (S (clock_reads w))) p /\
         Prompt.updatedAt p' = now_at (S (clock_reads w)) /\
         ((Prompt.updatedAt p < now_at (S (clock_reads w)))%Z ->
          (Prompt.updatedAt p < Prompt.updatedAt p')%Z)) /\
    (forall k, k <> promptId ->
       tbl_get Prompt.id k (prompts w') = tbl_get Prompt.id k (prompts w)).
Proof.
  intros HN Hfresh.
  destruct (createVersion_run promptId content notes w N HN Hfresh)
    as (w' & Hrun & Hnew & Hothers & Hcount & Hparent & Hprompts).
  exists w'. split; [exact Hrun|]. split; [exact Hnew|].
  split; [|split; [exact Hothers|split; [exact Hcount|split]]].
  - intros created M Hc Hlabel. rewrite Hnew in Hc.
    injection Hc as <-. cbn [Version.version] in Hlabel.
    unfold version_label in Hlabel. injection Hlabel as Hdigits.
    apply (f_equal NilEmpty.uint_of_string) in Hdigits.
    rewrite !NilEmpty.usu in Hdigits. injection Hdigits as Hd.
    apply (f_equal Nat.of_uint) in Hd.
    now rewrite !DecimalNat.Unsigned.of_to in Hd.
  - intros p Hp. exists (touched (now_at (S (clock_reads w))) p).
    split; [now apply Hparent|]. split; [reflexivity|].
    split; [reflexivity|]. intros Hlater. exact Hlater.
  - exact Hprompts.
Qed.

(** C2: rolling back to a stored version [v] returns the id of a new
    version, different from the id of [v], stored on the prompt of [v]
    with the content of [v] and the notes naming the label of [v]; [v]
    and every other stored version stay as they were. Rolling back to an
    id that is not stored throws the not-found error and changes
    nothing. *)
Theorem rollbackToVersion_appends (versionId : string) (w : World) :
  (forall v,
     tbl_get Version.id versionId (versions w) = Some v ->
     tbl_get Version.id (uuid_at (uuid_draws w)) (versions w) = None ->
     exists newVersionId w' created,
       rollbackToVersion now_at uuid_at versionId w =
         (Returned newVersionId, w') /\
       Version.id v = versionId /\
       newVersionId <> Version.id v /\
       tbl_get Version.id (Version.id v) (versions w') = Some v /\
       (forall k, k <> newVersionId ->
          tbl_get Version.id k (versions w') =
          tbl_get Version.id k (versions w)) /\
       tbl_get Version.id newVersionId (versions w') = Some created /\
       Version.promptId created = Version.promptId v /\
       Version.content created = Version.content v /\
       Version.notes created = "Rollback to " ++ Version.version v) /\
  (tbl_get Version.id versionId (versions w) = None ->
   rollbackToVersion now_at uuid_at versionId w =
     (Thrown (Error "Version not found"), w)).
Proof.
  split.
  - intros v Hv Hfresh.
    destruct (tbl_get_Some _ _ _ _ Hv) as [_ Hid].
    destruct (createVersion_run (Version.promptId v)
                (Some (Version.content v))
                (Some ("Rollback to " ++ Version.version v)) w _
                eq_refl Hfresh)
      as (w' & Hrun & Hnew & Hothers & _).
    assert (Hne : uuid_at (uuid_draws w) <> Version.id v).
    { intros E. rewrite E, Hid, Hv in Hfresh. discriminate. }
    exists (uuid_at (uuid_draws w)), w'. eexists.
    split.
    { unfold rollbackToVersion, bind, getVersion, versions_get.
      rewrite Hv, Hrun. reflexivity. }
    split; [assumption|]. split; [assumption|].
    split; [rewrite Hothers; congruence|].
    split; [assumption|].
    split; [exact Hnew|]. repeat split.
  - intros Hv. unfold rollbackToVersion, bind, getVersion, versions_get.
    now rewrite Hv.
Qed.

(* ------------------------------------------------------------------- *)
(** ** Running a loop *)
(* ------------------------------------------------------------------- *)

Lemma bind_Returned {A B} (c : M A) (k : A -> M B) (w w' : World) (b : B) :
  bind c k w = (Returned b, w') ->
  exists a w1, c w = (Returned a, w1) /\ k a w1 = (Returned b, w').
Proof.
  unfold bind. destruct (c w) as [[a|e] w1]; [|discriminate].
  intros H. now exists a, w1.
Qed.


Lemma versions_add_Returned (v : Version.t) (w w' : World) :
  versions_add v w = (Returned tt, w') ->
  tbl_get Version.id (Version.id v) (versions w) = None /\
  w' = {| prompts := prompts w;
          versions := tbl_insert Version.id v (versions w);
          clock_reads := clock_reads w; uuid_draws := uuid_draws w |}.
Proof.
  unfold versions_add, tbl_add.
  destruct (tbl_get Version.id (Version.id v) (versions w)); [discriminate|].
  intros H. injection H as <-. now split.
Qed.

Lemma versions_add_fresh (v : Version.t) (w : World) :
  tbl_get Version.id (Version.id v) (versions w) = None ->
  versions_add v w =
    (Returned tt,
     {| prompts := prompts w;
        versions := tbl_insert Version.id v (versions w);
        clock_reads := clock_reads w; uuid_draws := uuid_draws w |}).
Proof. unfold versions_add, tbl_add. now intros ->. Qed.


(* ------------------------------------------------------------------- *)
(** ** Import without merge *)
(* ------------------------------------------------------------------- *)






(* ------------------------------------------------------------------- *)
(** ** Import with merge: one stored prompt *)
(* ------------------------------------------------------------------- *)

Lemma In_insert_all (news t : list Version.t) (x : Version.t) :
  In x (insert_all news t) <-> In x t \/ In x news.
Proof.
  unfold insert_all. revert t.
  induction news as [|v news IH]; intros t; simpl; [tauto|].
  rewrite IH, In_tbl_insert. intuition congruence.
Qed.

Lemma length_insert_all (news t : list Version.t) :
  List.length (insert_all news t) = List.length t + List.length news.
Proof.
  unfold insert_all. revert t.
  induction news as [|v news IH]; intros t; simpl; [lia|].
  rewrite IH, length_tbl_insert. lia.
Qed.

Lemma tbl_get_insert_all_other (news t : list Version.t) (k : string) :
  (forall v, In v news -> Version.id v <> k) ->
  tbl_get Version.id k (insert_all news t) = tbl_get Version.id k t.
Proof.
  unfold insert_all. revert t.
  induction news as [|v news IH]; intros t Hk; simpl; [reflexivity|].
  rewrite IH by (intros v' Hin; apply Hk; now right).
  apply tbl_get_insert_other. apply Hk. now left.
Qed.

Lemma tbl_get_insert_all_new (news t : list Version.t) :
  NoDup (map Version.id news) ->
  (forall v, In v news -> tbl_get Version.id (Version.id v) t = None) ->
  forall v, In v news ->
    tbl_get Version.id (Version.id v) (insert_all news t) = Some v.
Proof.
  unfold insert_all. revert t.
  induction news as [|a news IH]; intros t Hnd Hfresh v Hin; [contradiction|].
  simpl in Hnd. inversion Hnd as [|? ? Hnotin Hnd']; subst. simpl.
  assert (Ha : forall v', In v' news -> Version.id v' <> Version.id a).
  { intros v' Hin' E. apply Hnotin. rewrite <- E. now apply in_map. }
  destruct Hin as [->|Hin].
  - fold (insert_all news (tbl_insert Version.id v t)).
    rewrite tbl_get_insert_all_other by assumption.
    apply tbl_get_insert_fresh. apply Hfresh. now left.
  - apply IH; [assumption| |assumption].
    intros v' Hin'. rewrite tbl_get_insert_other.
    + apply Hfresh. now right.
    + intros E. now apply (Ha v' Hin').
Qed.

(** The inner loop of the merge branch, when every version it has to add
    can be added. *)
Lemma merge_loop_run (existingVersions incoming : list Version.t) :
  forall (r : ImportResult) (w : World),
    let fresh :=
      filter (fun v => negb (existsb (fun x => Version.id x =? Version.id v)
                                      existingVersions)) incoming in
    NoDup (map Version.id fresh) ->
    (forall v, In v fresh ->
       tbl_get Version.id (Version.id v) (versions w) = None) ->
    for_of (merge_version existingVersions) incoming r w =
      (Returned {| imported := imported r; skipped := skipped r;
                   merged := merged r + List.length fresh |},
       {| prompts := prompts w;
          versions := insert_all fresh (versions w);
          clock_reads := clock_reads w; uuid_draws := uuid_draws w |}).
Proof.
  induction incoming as [|v incoming IH]; intros r w; simpl.
  - intros _ _. unfold ret, insert_all. simpl. rewrite Nat.add_0_r.
    now destruct r, w.
  - unfold bind, merge_version at 1.
    destruct (existsb (fun x => Version.id x =? Version.id v)
                      existingVersions) eqn:Ex; simpl.
    + intros Hnd Hfresh. unfold ret. now apply IH.
    + intros Hnd Hfresh. inversion Hnd as [|? ? Hnotin Hnd']; subst.
      unfold bind. rewrite versions_add_fresh by (apply Hfresh; now left).
      unfold ret. rewrite IH; simpl.
      * do 2 f_equal. f_equal. lia.
      * assumption.
      * intros v' Hin'. rewrite tbl_get_insert_other.
        -- apply Hfresh. now right.
        -- intros E. apply Hnotin. rewrite E. now apply in_map.
Qed.

(** When no incoming version of the prompt has the id of a local version
    of another prompt, the test of the code (no local version of this
    prompt has the id) is the test of the specification (no local version
    has the id). *)
Lemma versionExists_absent_locally (promptId : string)
    (t : list Version.t) (v : Version.t) :
  (forall x, In x t -> Version.id x = Version.id v ->
     Version.promptId x = promptId) ->
  negb (existsb (fun x => Version.id x =? Version.id v)
                (versions_by_prompt promptId t)) =
  absent_locally t v.
Proof.
  intros Hsame. unfold absent_locally.
  destruct (tbl_get Version.id (Version.id v) t) as [x|] eqn:E.
  - apply tbl_get_Some in E as [Hin Hid].
    apply negb_false_iff, existsb_exists. exists x. split.
    + apply In_versions_by_prompt. split; [assumption|]. now apply Hsame.
    + now apply String.eqb_eq.
  - apply negb_true_iff. apply not_true_is_false. intros Hex.
    apply existsb_exists in Hex as (x & Hin & Hid).
    apply In_versions_by_prompt in Hin as [Hin _].
    apply String.eqb_eq in Hid.
    exact (proj1 (tbl_get_None _ _ _) E x Hin Hid).
Qed.

(** The merge iteration for a stored prompt, when no incoming version of
    the prompt has the id of a local version of another prompt and the
    incoming versions of the prompt absent locally have distinct ids:
    these are added, and the prompt is written over. *)
Lemma import_prompt_merge_eq (data_versions : list Version.t)
    (prompt : Prompt.t) (r : ImportResult) (w : World)
    (existing : Prompt.t) :
  let incoming :=
    filter (fun v => Version.promptId v =? Prompt.id prompt) data_versions in
  let inserted := filter (absent_locally (versions w)) incoming in
  tbl_get Prompt.id (Prompt.id prompt) (prompts w) = Some existing ->
  (forall v x, In v incoming -> In x (versions w) ->
     Version.id x = Version.id v ->
     Version.promptId x = Prompt.id prompt) ->
  NoDup (map Version.id inserted) ->
  import_prompt now_at true data_versions prompt r w =
    (Returned {| imported := imported r; skipped := skipped r;
                 merged := merged r + List.length inserted |},
     {| prompts :=
          tbl_update Prompt.id (Prompt.id prompt)
            (apply_changes
               (with_updatedAt (spread_prompt prompt)
                  (now_at (clock_reads w))))
            (prompts w);
        versions := insert_all inserted (versions w);
        clock_reads := S (clock_reads w);
        uuid_draws := uuid_draws w |}).
Proof.
  intros incoming inserted He Hsame Hnd.
  assert (Hfilter :
    filter (fun v => negb (existsb (fun x => Version.id x =? Version.id v)
              (versions_by_prompt (Prompt.id prompt) (versions w)))) incoming
    = inserted).
  { apply filter_ext_in. intros v Hin.
    apply versionExists_absent_locally. intros x Hx. now apply Hsame. }
  assert (Hfresh : forall v, In v inserted ->
            tbl_get Version.id (Version.id v) (versions w) = None).
  { intros v Hin. apply filter_In in Hin as [_ Habs].
    unfold absent_locally in Habs.
    now destruct (tbl_get Version.id (Version.id v) (versions w)). }
  unfold import_prompt, bind, prompts_get. rewrite He. cbn [negb].
  rewrite getVersionsByPrompt_eq. fold incoming.
  pose proof (merge_loop_run
                (versions_by_prompt (Prompt.id prompt) (versions w))
                incoming r w) as Hrun.
  cbv zeta in Hrun. rewrite Hfilter in Hrun.
  rewrite (Hrun Hnd Hfresh).
  reflexivity.
Qed.

(** What the merge branch writes over a stored prompt. *)
Lemma tbl_get_overwritten (prompt existing : Prompt.t) (now : Z)
    (t : list Prompt.t) :
  tbl_get Prompt.id (Prompt.id prompt) t = Some existing ->
  tbl_get Prompt.id (Prompt.id prompt)
    (tbl_update Prompt.id (Prompt.id prompt)
       (apply_changes (with_updatedAt (spread_prompt prompt) now)) t) =
    Some (overwritten now prompt).
Proof.
  intros He. rewrite tbl_get_update_same by apply apply_changes_id.
  rewrite He. apply tbl_get_Some in He as [_ Hid].
  unfold apply_changes, overwritten. simpl. now rewrite Hid.
Qed.

(* ------------------------------------------------------------------- *)
(** ** Import with merge, twice *)
(* ------------------------------------------------------------------- *)

Lemma known_dec_Some (w : World) (promptId : string) :
  known w promptId ->
  exists e, tbl_get Prompt.id promptId (prompts w) = Some e.
Proof.
  unfold known. destruct (tbl_get Prompt.id promptId (prompts w)) as [e|].
  - intros _. now exists e.
  - congruence.
Qed.

Lemma covered_incl (w w' : World) (data_versions : list Version.t)
    (promptId : string) :
  incl (versions w) (versions w') ->
  covered w data_versions promptId -> covered w' data_versions promptId.
Proof.
  intros Hincl Hcov v Hin Hp.
  destruct (Hcov v Hin Hp) as (x & Hx & Hid & Hpx).
  exists x. split; [now apply Hincl | now split].
Qed.

(** The loop that adds all versions of a new prompt, when it returns. *)
Lemma add_loop_Returned (vs : list Version.t) :
  forall w w',
    for_of (fun version (_ : unit) => versions_add version) vs tt w
      = (Returned tt, w') ->
    prompts w' = prompts w /\
    incl (versions w) (versions w') /\
    forall v, In v vs -> In v (versions w').
Proof.
  induction vs as [|a vs IH]; intros w w' Hrun; simpl in Hrun.
  - unfold ret in Hrun. injection Hrun as <-.
    split; [reflexivity|]. split; [apply incl_refl | contradiction].
  - apply bind_Returned in Hrun as ([] & w1 & Hadd & Hrest).
    apply versions_add_Returned in Hadd as [_ ->].
    apply IH in Hrest as (Hp & Hincl & Hall). simpl in *.
    split; [assumption|]. split.
    + intros x Hx. apply Hincl, In_tbl_insert. now right.
    + intros v [<-|Hin]; [|now apply Hall].
      apply Hincl, In_tbl_insert. now left.
Qed.

(** The inner loop of the merge branch, when it returns. *)
Lemma merge_loop_Returned (existingVersions incoming : list Version.t) :
  forall r w r' w',
    for_of (merge_version existingVersions) incoming r w = (Returned r', w') ->
    prompts w' = prompts w /\
    clock_reads w' = clock_reads w /\
    incl (versions w) (versions w') /\
    forall v, In v incoming ->
      existsb (fun x => Version.id x =? Version.id v) existingVersions = true \/
      In v (versions w').
Proof.
  induction incoming as [|a incoming IH]; intros r w r' w' Hrun;
    simpl in Hrun.
  - unfold ret in Hrun. injection Hrun as _ <-.
    repeat split; [apply incl_refl | contradiction].
  - apply bind_Returned in Hrun as (r1 & w1 & Hstep & Hrest).
    apply IH in Hrest as (Hp & Hc & Hincl & Hall).
    unfold merge_version in Hstep.
    destruct (existsb (fun x => Version.id x =? Version.id a)
                      existingVersions) eqn:Ex; simpl in Hstep.
    + unfold ret in Hstep. injection Hstep as _ <-.
      repeat split; try assumption.
      intros v [<-|Hin]; [now left | now apply Hall].
    + apply bind_Returned in Hstep as ([] & w2 & Hadd & Hret).
      unfold ret in Hret. injection Hret as _ <-.
      apply versions_add_Returned in Hadd as [_ ->]. simpl in *.
      repeat split; try assumption.
      * intros x Hx. apply Hincl, In_tbl_insert. now right.
      * intros v [<-|Hin]; [|now apply Hall].
        right. apply Hincl, In_tbl_insert. now left.
Qed.

(** The inner loop of the merge branch adds nothing when every incoming
    version is found among the existing ones. *)
Lemma merge_loop_settled (existingVersions incoming : list Version.t)
    (r : ImportResult) (w : World) :
  (forall v, In v incoming ->
     existsb (fun x => Version.id x =? Version.id v) existingVersions = true) ->
  for_of (merge_version existingVersions) incoming r w = (Returned r, w).
Proof.
  induction incoming as [|a incoming IH]; intros Hall; cbn [for_of];
    [reflexivity|].
  unfold bind. unfold merge_version at 1.
  rewrite (Hall a (or_introl eq_refl)). cbn [negb]. unfold ret at 1.
  apply IH. intros v Hin. apply Hall. now right.
Qed.

(** One merge iteration that returns leaves its prompt known and its
    incoming versions covered, and loses nothing. *)
Lemma import_prompt_merge_Returned (data_versions : list Version.t)
    (prompt : Prompt.t) (r r' : ImportResult) (w w' : World) :
  import_prompt now_at true data_versions prompt r w = (Returned r', w') ->
  incl (versions w) (versions w') /\
  (forall k, known w k -> known w' k) /\
  known w' (Prompt.id prompt) /\
  covered w' data_versions (Prompt.id prompt).
Proof.
  unfold import_prompt, bind at 1, prompts_get.
  destruct (tbl_get Prompt.id (Prompt.id prompt) (prompts w)) as [e|] eqn:E.
  - cbn [negb]. intros Hrun.
    apply bind_Returned in Hrun as (ex & w0 & Hex & Hrun).
    rewrite getVersionsByPrompt_eq in Hex. injection Hex as <- <-.
    apply bind_Returned in Hrun as (r1 & w1 & Hloop & Hrun).
    apply merge_loop_Returned in Hloop as (Hp & _ & Hincl & Hall).
    unfold bind, Date_now, prompts_update, ret in Hrun.
    injection Hrun as _ <-. simpl.
    assert (Hknown : forall k, known w k ->
              tbl_get Prompt.id k
                (tbl_update Prompt.id (Prompt.id prompt)
                   (apply_changes
                      (with_updatedAt (spread_prompt prompt)
                         (now_at (clock_reads w1))))
                   (prompts w1)) <> None).
    { intros k Hk. rewrite tbl_get_update_is_Some by apply apply_changes_id.
      now rewrite Hp. }
    split; [assumption|]. split; [exact Hknown|]. split.
    + apply Hknown. unfold known. congruence.
    + intros v Hin Hpid.
      assert (Hinc : In v (filter
                (fun v => Version.promptId v =? Prompt.id prompt)
                data_versions))
        by (apply filter_In; split; [assumption | now apply String.eqb_eq]).
      destruct (Hall v Hinc) as [Hex|Hnew].
      * apply existsb_exists in Hex as (x & Hx & Hid).
        apply In_versions_by_prompt in Hx as [Hx Hpx].
        apply String.eqb_eq in Hid.
        exists x. split; [now apply Hincl | now split].
      * exists v. now repeat split.
  - intros Hrun.
    apply bind_Returned in Hrun as ([] & w0 & Hadd & Hrun).
    unfold prompts_add, tbl_add in Hadd. rewrite E in Hadd.
    injection Hadd as <-.
    apply bind_Returned in Hrun as ([] & w1 & Hloop & Hret).
    unfold ret in Hret. injection Hret as _ <-.
    apply add_loop_Returned in Hloop as (Hp & Hincl & Hall). simpl in *.
    assert (Hknown : forall k, known w k -> known w1 k).
    { intros k Hk. unfold known in *. rewrite Hp.
      rewrite tbl_get_insert_other; [assumption|]. congruence. }
    split; [assumption|]. split; [exact Hknown|]. split.
    + unfold known. rewrite Hp, tbl_get_insert_fresh by assumption.
      discriminate.
    + intros v Hin Hpid. exists v. split; [|now split].
      apply Hall, filter_In. split; [assumption | now apply String.eqb_eq].
Qed.

Lemma import_merge_Returned (data_versions : list Version.t)
    (data_prompts : list Prompt.t) :
  forall r w r' w',
    for_of (import_prompt now_at true data_versions) data_prompts r w
      = (Returned r', w') ->
    incl (versions w) (versions w') /\
    (forall k, known w k -> known w' k) /\
    forall p, In p data_prompts ->
      known w' (Prompt.id p) /\ covered w' data_versions (Prompt.id p).
Proof.
  induction data_prompts as [|q ps IH]; intros r w r' w' Hrun;
    simpl in Hrun.
  - unfold ret in Hrun. injection Hrun as _ <-.
    split; [apply incl_refl|]. split; [auto | contradiction].
  - apply bind_Returned in Hrun as (r1 & w1 & Hstep & Hrest).
    apply import_prompt_merge_Returned in Hstep as (Hi1 & Hk1 & Hq & Hc).
    apply IH in Hrest as (Hi2 & Hk2 & Hall).
    split; [now apply incl_tran with (versions w1)|].
    split; [auto|].
    intros p [<-|Hin]; [|now apply Hall].
    split; [now apply Hk2 | now apply covered_incl with w1].
Qed.

(** A merge iteration for a known prompt whose incoming versions are
    covered adds no version, counts nothing and returns. *)
Lemma import_prompt_settled (data_versions : list Version.t)
    (prompt : Prompt.t) (r : ImportResult) (w : World) :
  known w (Prompt.id prompt) ->
  covered w data_versions (Prompt.id prompt) ->
  exists w',
    import_prompt now_at true data_versions prompt r w = (Returned r, w') /\
    versions w' = versions w /\
    (forall k, known w k -> known w' k).
Proof.
  intros Hk Hcov. apply known_dec_Some in Hk as [e He].
  unfold import_prompt, bind, prompts_get. rewrite He. cbn [negb].
  rewrite getVersionsByPrompt_eq, merge_loop_settled.
  - unfold Date_now, prompts_update, ret. eexists.
    split; [reflexivity|]. simpl. split; [reflexivity|].
    intros k Hknown. unfold known in *. simpl.
    now rewrite tbl_get_update_is_Some by apply apply_changes_id.
  - intros v Hin. apply filter_In in Hin as [Hin Hp].
    apply String.eqb_eq in Hp.
    destruct (Hcov v Hin Hp) as (x & Hx & Hid & Hpx).
    apply existsb_exists. exists x. split.
    + now apply In_versions_by_prompt.
    + now apply String.eqb_eq.
Qed.

Lemma import_merge_settled (data_versions : list Version.t)
    (data_prompts : list Prompt.t) :
  forall r w,
    (forall p, In p data_prompts ->
       known w (Prompt.id p) /\ covered w data_versions (Prompt.id p)) ->
    exists w',
      for_of (import_prompt now_at true data_versions) data_prompts r w
        = (Returned r, w') /\
      versions w' = versions w.
Proof.
  induction data_prompts as [|q ps IH]; intros r w Hall; simpl.
  - exists w. now split.
  - destruct (Hall q (or_introl eq_refl)) as [Hk Hc].
    destruct (import_prompt_settled data_versions q r w Hk Hc)
      as (w1 & Hstep & Hv & Hknown).
    destruct (IH r w1) as (w' & Hrest & Hv').
    { intros p Hin. destruct (Hall p (or_intror Hin)) as [Hkp Hcp].
      split; [now apply Hknown|].
      apply covered_incl with w; [|assumption].
      rewrite Hv. apply incl_refl. }
    exists w'. unfold bind. rewrite Hstep. split; [assumption | congruence].
Qed.

(** C6, as the code has it: when an import with merge has returned,
    importing the same document again with merge returns imported 0 and
    merged 0 (and skipped 0): every prompt of the document is stored by
    then, and no version of the document is still absent; the second
    import adds no version. *)
Theorem import_merge_twice (data : ImportDoc) (w w1 : World)
    (r1 : ImportResult) :
  importData now_at data true w = (Returned r1, w1) ->
  exists w2,
    importData now_at data true w1 =
      (Returned {| imported := 0; skipped := 0; merged := 0 |}, w2) /\
    versions w2 = versions w1.
Proof.
  unfold importData.
  destruct (doc_prompts data) as [data_prompts|]; [|discriminate].
  destruct (doc_versions data) as [data_versions|]; [|discriminate].
  intros Hfirst.
  apply import_merge_Returned in Hfirst as (_ & _ & Hall).
  now apply import_merge_settled.
Qed.
End DbFacts.

(* ===================================================================== *)
(** * The properties on concrete stores *)
(* ===================================================================== *)

(** C7, on the code: [updatePrompt] for the id p2, which the store does
    not hold, resolves normally; nothing is thrown to the caller, and the
    two tables are as before. The specification announces a not-found
    error here. *)
Theorem updatePrompt_missing_id_resolves :
  tbl_get Prompt.id "p2" (prompts store_p1) = None /\
  updatePrompt clock "p2" no_changes store_p1 =
    (Returned tt,
     {| prompts := [prompt_p1]; versions := [version_1];
        clock_reads := 1; uuid_draws := 0 |}).
Proof. split; reflexivity. Qed.

(** C1 on the scenario store: prompt p1 has one version, the new one is
    labelled v2 and p1 is touched at the next reading of the clock, which
    is later than the time it was last written. *)
Lemma createVersion_next_label_witness :
  List.length (filter (fun v => Version.promptId v =? "p1") (versions store_p1))
    = 1 /\
  tbl_get Version.id (uuids (uuid_draws store_p1)) (versions store_p1) = None /\
  exists w',
    createVersion clock uuids "p1" (Some "B") None store_p1 =
      (Returned "uuid-0", w') /\
    tbl_get Version.id "uuid-0" (versions w') =
      Some {| Version.id := "uuid-0"; Version.promptId := "p1";
              Version.version := "v2"; Version.content := "B";
              Version.notes := "";
              Version.createdAt := 1700000000000;
              Version.updatedAt := 1700000000000 |} /\
    exists p',
      tbl_get Prompt.id "p1" (prompts w') = Some p' /\
      p' = touched 1700000000001 prompt_p1 /\
      (Prompt.updatedAt prompt_p1 < Prompt.updatedAt p')%Z.
Proof.
  split; [reflexivity|]. split; [reflexivity|].
  destruct (createVersion_next_label clock uuids "p1" (Some "B") None
              store_p1 1 eq_refl eq_refl)
    as (w' & Hrun & Hnew & _ & _ & _ & Hparent & _).
  exists w'. split; [exact Hrun|]. split; [exact Hnew|].
  destruct (Hparent prompt_p1 eq_refl) as (p' & Hp' & Hq & _ & Hlater).
  exists p'. split; [exact Hp'|]. split; [exact Hq|].
  apply Hlater. reflexivity.
Defined.

(** C1 as stated fails when the clock does not read later than the
    stored [updatedAt]. On the first store the prompt was last written
    at the millisecond of the new reading, and [updatedAt] is after
    [createVersion] what it was before. On the second the prompt carries
    the later [updatedAt] of an imported document, and [createVersion]
    moves [updatedAt] back. *)
Lemma createVersion_updatedAt_not_later :
  (exists w',
     createVersion clock uuids "p1" (Some "A") None store_p1_same_ms =
       (Returned "uuid-0", w') /\
     tbl_get Prompt.id "p1" (prompts store_p1_same_ms) =
       Some prompt_p1_same_ms /\
     tbl_get Prompt.id "p1" (prompts w') = Some prompt_p1_same_ms) /\
  (exists w' p',
     createVersion clock uuids "p1" (Some "A") None store_p1_ahead =
       (Returned "uuid-0", w') /\
     tbl_get Prompt.id "p1" (prompts store_p1_ahead) = Some prompt_p1_ahead /\
     tbl_get Prompt.id "p1" (prompts w') = Some p' /\
     (Prompt.updatedAt p' < Prompt.updatedAt prompt_p1_ahead)%Z).
Proof.
  split.
  - exists (snd (createVersion clock uuids "p1" (Some "A") None
                   store_p1_same_ms)).
    split; [reflexivity|]. split; reflexivity.
  - exists (snd (createVersion clock uuids "p1" (Some "A") None
                   store_p1_ahead)).
    exists (touched 1700000000001 prompt_p1).
    split; [reflexivity|]. split; [reflexivity|]. split; reflexivity.
Qed.

(** C2 on the scenario store: rolling back to the stored ver-1, and to
    ver-9, which is not stored. *)
Lemma rollbackToVersion_appends_witness :
  tbl_get Version.id "ver-1" (versions store_p1) = Some version_1 /\
  tbl_get Version.id (uuids (uuid_draws store_p1)) (versions store_p1) = None /\
  (exists newVersionId w' created,
     rollbackToVersion clock uuids "ver-1" store_p1 =
       (Returned newVersionId, w') /\
     newVersionId <> "ver-1" /\
     tbl_get Version.id "ver-1" (versions w') = Some version_1 /\
     tbl_get Version.id newVersionId (versions w') = Some created /\
     Version.promptId created = "p1" /\
     Version.content created = "A" /\
     Version.notes created = "Rollback to v1") /\
  rollbackToVersion clock uuids "ver-9" store_p1 =
    (Thrown (Error "Version not found"), store_p1).
Proof.
  split; [reflexivity|]. split; [reflexivity|].
  destruct (rollbackToVersion_appends clock uuids "ver-1" store_p1)
    as [Hstored _].
  destruct (rollbackToVersion_appends clock uuids "ver-9" store_p1)
    as [_ Habsent].
  split; [|exact (Habsent eq_refl)].
  destruct (Hstored version_1 eq_refl eq_refl)
    as (n & w' & c & Hrun & _ & Hne & Hold & _ & Hnew & Hp & Hc & Hn).
  exists n, w', c. repeat split; assumption.
Defined.


(** C4 as stated fails on two stores the import can meet. In the first
    the incoming version of the stored prompt p1 has the id of a local
    version of prompt p2: the code looks for the id among the versions of
    p1 only, tries to add the version, and the table rejects the key. In
    the second the document holds two versions of p1 with one id, absent
    locally: the first is inserted, the second is rejected. In both the
    import throws before the prompt is overwritten. *)
Lemma import_merge_rejected_key :
  importData clock
    {| doc_prompts := Some [prompt_p1_incoming];
       doc_versions := Some [version_x_incoming] |} true store_p1_p2
    = (Thrown ConstraintError, store_p1_p2) /\
  importData clock
    {| doc_prompts := Some [prompt_p1_incoming];
       doc_versions := Some [version_2_incoming; version_2_incoming] |}
    true store_p1
    = (Thrown ConstraintError,
       {| prompts := [prompt_p1]; versions := [version_1; version_2_incoming];
          clock_reads := 0; uuid_draws := 0 |}) /\
  tbl_get Version.id (Version.id version_2_incoming) (versions store_p1) = None /\
  tbl_get Prompt.id "p1" (prompts store_p1_p2) = Some prompt_p1 /\
  tbl_get Prompt.id "p1" (prompts store_p1) = Some prompt_p1 /\
  Some prompt_p1 <> Some (overwritten 1700000000000 prompt_p1_incoming).
Proof.
  repeat (split; [reflexivity|]). discriminate.
Qed.

(** Three more documents on which the merge import does not do what C4
    says for the stored prompt p1. The first lists p1 twice: the local
    prompt is left with the fields of the second entry, not of the
    first. The second holds the new prompt p3 with a version that has
    the id of the local ver-1: the import stores p3, the table rejects
    the version, and p1 is never reached. The third holds p3 with a
    version under the id ver-2, which the incoming version of p1 has
    too: ver-2 is stored for p3, and rejected for p1. *)
Example import_merge_document_provisos :
  (exists w',
     importData clock
       {| doc_prompts := Some [prompt_p1_incoming; prompt_p1_incoming_later];
          doc_versions := Some [version_2_incoming] |} true store_p1
       = (Returned {| imported := 0; skipped := 0; merged := 1 |}, w') /\
     tbl_get Prompt.id "p1" (prompts w') =
       Some (overwritten 1700000000001 prompt_p1_incoming_later)) /\
  importData clock
    {| doc_prompts := Some [prompt_p3_incoming; prompt_p1_incoming];
       doc_versions := Some [version_1_of_p3; version_2_incoming] |}
    true store_p1
    = (Thrown ConstraintError,
       {| prompts := [prompt_p1; prompt_p3_incoming];
          versions := [version_1];
          clock_reads := 0; uuid_draws := 0 |}) /\
  importData clock
    {| doc_prompts := Some [prompt_p3_incoming; prompt_p1_incoming];
       doc_versions := Some [version_2_of_p3; version_2_incoming] |}
    true store_p1
    = (Thrown ConstraintError,
       {| prompts := [prompt_p1; prompt_p3_incoming];
          versions := [version_1; version_2_of_p3];
          clock_reads := 0; uuid_draws := 0 |}).
Proof.
  split; [|split; reflexivity].
  exists (snd (importData clock
                 {| doc_prompts :=
                      Some [prompt_p1_incoming; prompt_p1_incoming_later];
                    doc_versions := Some [version_2_incoming] |}
                 true store_p1)).
  split; reflexivity.
Qed.

(** C6 on the scenario store: the first import merges into p1 and
    inserts p3; the second finds both. *)
Lemma import_merge_twice_witness :
  importData clock
    {| doc_prompts := Some [prompt_p1_incoming; prompt_p3_incoming];
       doc_versions := Some [version_2_incoming; version_3_incoming] |}
    true store_p1
    = (Returned {| imported := 1; skipped := 0; merged := 1 |},
       store_after_import) /\
  exists w2,
    importData clock
      {| doc_prompts := Some [prompt_p1_incoming; prompt_p3_incoming];
         doc_versions := Some [version_2_incoming; version_3_incoming] |}
      true store_after_import
      = (Returned {| imported := 0; skipped := 0; merged := 0 |}, w2) /\
    versions w2 = versions store_after_import.
Proof.
  split; [reflexivity|].
  exact (import_merge_twice clock
           {| doc_prompts := Some [prompt_p1_incoming; prompt_p3_incoming];
              doc_versions := Some [version_2_incoming; version_3_incoming] |}
           store_p1 store_after_import
           {| imported := 1; skipped := 0; merged := 1 |} eq_refl).
Defined.

(** C6 as stated fails when the first import is stopped by a rejected
    key. The document lists the version ver-3 of the new prompt p3
    twice: the first import stores p3 and ver-3, the second ver-3 is
    rejected and the import throws before it reaches p1. The second
    import of the same document finds p3 stored with ver-3, goes on to
    p1 and inserts ver-2: it returns merged 1. *)
Lemma import_merge_again_after_rejected_key :
  importData clock doc_repeated_version true store_p1 =
    (Thrown ConstraintError, store_after_rejected_import) /\
  exists w2,
    importData clock doc_repeated_version true store_after_rejected_import =
      (Returned {| imported := 0; skipped := 0; merged := 1 |}, w2) /\
    tbl_get Version.id "ver-2" (versions store_after_rejected_import) = None /\
    tbl_get Version.id "ver-2" (versions w2) = Some version_2_incoming.
Proof.
  split; [reflexivity|].
  exists (snd (importData clock doc_repeated_version true
                 store_after_rejected_import)).
  split; [reflexivity|]. split; reflexivity.
Qed.

(* ===================================================================== *)
(** * Further properties of the storage layer *)
(* ===================================================================== *)

Section MoreTableFacts.
Context {R : Type} (key : R -> string).

Lemma tbl_get_delete_same (k : string) (t : list R) :
  tbl_get key k (tbl_delete key k t) = None.
Proof.
  apply tbl_get_None. intros r Hin Hk. unfold tbl_delete in Hin.
  apply filter_In in Hin as [_ Hne]. apply negb_true_iff in Hne.
  apply String.eqb_neq in Hne. contradiction.
Qed.

Lemma tbl_get_delete_other (k k' : string) (t : list R) :
  k <> k' -> tbl_get key k' (tbl_delete key k t) = tbl_get key k' t.
Proof.
  intros Hk. unfold tbl_get, tbl_delete.
  induction t as [|y t IH]; simpl; [reflexivity|].
  destruct (String.eqb_spec (key y) k) as [Ey|Ey]; simpl.
  - assert ((key y =? k') = false) as -> by (apply String.eqb_neq; congruence).
    assumption.
  - destruct (key y =? k'); [reflexivity | assumption].
Qed.


Lemma map_key_tbl_insert_Permutation (r : R) (t : list R) :
  Permutation (map key (tbl_insert key r t)) (key r :: map key t).
Proof.
  induction t as [|y t IH]; simpl; [reflexivity|].
  destruct (String.ltb (key r) (key y)); simpl; [reflexivity|].
  rewrite IH. apply perm_swap.
Qed.

Lemma NoDup_tbl_insert (r : R) (t : list R) :
  tbl_get key (key r) t = None ->
  NoDup (map key t) -> NoDup (map key (tbl_insert key r t)).
Proof.
  intros Hfresh Hnd.
  apply (Permutation_NoDup (l := key r :: map key t)).
  - symmetry. apply map_key_tbl_insert_Permutation.
  - constructor; [|assumption]. intros Hin.
    apply in_map_iff in Hin as (x & Hk & Hx).
    exact (proj1 (tbl_get_None key _ _) Hfresh x Hx Hk).
Qed.

Lemma map_key_tbl_update (k : string) (f : R -> R) (t : list R) :
  (forall r, key (f r) = key r) ->
  map key (tbl_update key k f t) = map key t.
Proof.
  intros Hf. unfold tbl_update. rewrite map_map. apply map_ext.
  intros r. destruct (key r =? k); [apply Hf | reflexivity].
Qed.

Lemma NoDup_map_filter (f : R -> bool) (t : list R) :
  NoDup (map key t) -> NoDup (map key (filter f t)).
Proof.
  induction t as [|y t IH]; simpl; intros Hnd; [constructor|].
  inversion Hnd as [|? ? Hnotin Hnd']; subst.
  destruct (f y); simpl; [|now apply IH].
  constructor; [|now apply IH].
  intros Hin. apply Hnotin. apply in_map_iff in Hin as (x & Hk & Hx).
  apply filter_In in Hx as [Hx _]. rewrite <- Hk. now apply in_map.
Qed.

Lemma NoDup_map_inj (t : list R) (x y : R) :
  NoDup (map key t) -> In x t -> In y t -> key x = key y -> x = y.
Proof.
  induction t as [|z t IH]; simpl; intros Hnd Hx Hy Hk; [contradiction|].
  inversion Hnd as [|? ? Hnotin Hnd']; subst.
  destruct Hx as [->|Hx], Hy as [->|Hy]; try reflexivity.
  - exfalso. apply Hnotin. rewrite Hk. now apply in_map.
  - exfalso. apply Hnotin. rewrite <- Hk. now apply in_map.
  - now apply IH.
Qed.

Lemma tbl_get_unique (t : list R) (x : R) :
  NoDup (map key t) -> In x t -> tbl_get key (key x) t = Some x.
Proof.
  intros Hnd Hin. destruct (tbl_get_In key t x Hin) as [y Hy].
  rewrite Hy. f_equal. apply tbl_get_Some in Hy as [Hyin Hk].
  now apply (NoDup_map_inj t).
Qed.
End MoreTableFacts.

Section Preservation.
Variable now_at : nat -> Z.
Variable uuid_at : nat -> string.
Variable Inv : World -> Prop.

Lemma preserves_ret {A} (a : A) : preserves Inv (ret a).
Proof. intros w out w' Hinv H. unfold ret in H. congruence. Qed.

Lemma preserves_throw {A} (e : Exn) : preserves Inv (@throw A e).
Proof. intros w out w' Hinv H. unfold throw in H. congruence. Qed.

Lemma preserves_bind {A B} (c : M A) (k : A -> M B) :
  preserves Inv c -> (forall a, preserves Inv (k a)) ->
  preserves Inv (bind c k).
Proof.
  intros Hc Hk w out w' Hinv Hrun. unfold bind in Hrun.
  destruct (c w) as [[a|e] w1] eqn:E.
  - exact (Hk a w1 out w' (Hc w _ w1 Hinv E) Hrun).
  - injection Hrun as _ <-. exact (Hc w _ w1 Hinv E).
Qed.

Lemma preserves_for_of {A S} (body : A -> S -> M S) (l : list A) :
  (forall a s, preserves Inv (body a s)) ->
  forall s, preserves Inv (for_of body l s).
Proof.
  intros Hbody. induction l as [|a l IH]; intros s; simpl.
  - apply preserves_ret.
  - apply preserves_bind; [apply Hbody | intros s'; apply IH].
Qed.

(** A computation that only reads keeps every invariant. *)
Lemma preserves_read {A} (f : World -> A) :
  preserves Inv (fun w => (Returned (f w), w)).
Proof. intros w out w' Hinv H. congruence. Qed.

(** What the invariant has to allow for the storage layer to keep it:
    reading the clock or drawing an id, and each write of a table. *)
Hypothesis Inv_counters :
  forall w c u,
    Inv w ->
    Inv {| prompts := prompts w; versions := versions w;
           clock_reads := c; uuid_draws := u |}.
Hypothesis Inv_prompts_add :
  forall w p,
    Inv w -> tbl_get Prompt.id (Prompt.id p) (prompts w) = None ->
    Inv {| prompts := tbl_insert Prompt.id p (prompts w);
           versions := versions w;
           clock_reads := clock_reads w; uuid_draws := uuid_draws w |}.
Hypothesis Inv_prompts_update :
  forall w id changes,
    Inv w ->
    Inv {| prompts := tbl_update Prompt.id id (apply_changes changes) (prompts w);
           versions := versions w;
           clock_reads := clock_reads w; uuid_draws := uuid_draws w |}.
Hypothesis Inv_versions_add :
  forall w v,
    Inv w -> tbl_get Version.id (Version.id v) (versions w) = None ->
    Inv {| prompts := prompts w;
           versions := tbl_insert Version.id v (versions w);
           clock_reads := clock_reads w; uuid_draws := uuid_draws w |}.

Lemma preserves_Date_now : preserves Inv (Date_now now_at).
Proof.
  intros w out w' Hinv H. unfold Date_now in H. injection H as _ <-.
  now apply Inv_counters.
Qed.

Lemma preserves_randomUUID : preserves Inv (randomUUID uuid_at).
Proof.
  intros w out w' Hinv H. unfold randomUUID in H. injection H as _ <-.
  now apply Inv_counters.
Qed.

Lemma preserves_prompts_add (p : Prompt.t) : preserves Inv (prompts_add p).
Proof.
  intros w out w' Hinv H. unfold prompts_add, tbl_add in H.
  destruct (tbl_get Prompt.id (Prompt.id p) (prompts w)) eqn:E;
    injection H as _ <-; [assumption | now apply Inv_prompts_add].
Qed.

Lemma preserves_versions_add (v : Version.t) : preserves Inv (versions_add v).
Proof.
  intros w out w' Hinv H. unfold versions_add, tbl_add in H.
  destruct (tbl_get Version.id (Version.id v) (versions w)) eqn:E;
    injection H as _ <-; [assumption | now apply Inv_versions_add].
Qed.

Lemma preserves_prompts_update (id : string) (changes : PromptChanges) :
  preserves Inv (prompts_update id changes).
Proof.
  intros w out w' Hinv H. unfold prompts_update in H. injection H as _ <-.
  now apply Inv_prompts_update.
Qed.

Lemma preserves_updatePrompt (id : string) (updates : PromptChanges) :
  preserves Inv (updatePrompt now_at id updates).
Proof.
  apply preserves_bind; [apply preserves_Date_now|].
  intros now. apply preserves_prompts_update.
Qed.

Lemma preserves_createVersion (promptId : string)
    (content notes : option string) :
  preserves Inv (createVersion now_at uuid_at promptId content notes).
Proof.
  unfold createVersion.
  apply preserves_bind; [apply preserves_randomUUID | intros id].
  apply preserves_bind; [apply preserves_Date_now | intros now].
  apply preserves_bind; [apply preserves_read | intros c].
  apply preserves_bind; [apply preserves_versions_add | intros _].
  apply preserves_bind; [apply preserves_updatePrompt | intros _].
  apply preserves_ret.
Qed.

Lemma preserves_rollbackToVersion (versionId : string) :
  preserves Inv (rollbackToVersion now_at uuid_at versionId).
Proof.
  unfold rollbackToVersion.
  apply preserves_bind; [apply preserves_read | intros [v|]].
  - apply preserves_bind; [apply preserves_createVersion | intros id].
    apply preserves_ret.
  - apply preserves_throw.
Qed.

Lemma preserves_createPrompt (promptData : PromptData.t) :
  preserves Inv (createPrompt now_at uuid_at promptData).
Proof.
  unfold createPrompt.
  apply preserves_bind; [apply preserves_randomUUID | intros id].
  apply preserves_bind; [apply preserves_Date_now | intros now].
  apply preserves_bind; [apply preserves_prompts_add | intros _].
  apply preserves_bind; [|intros _; apply preserves_ret].
  destruct (truthy (PromptData.content promptData)); [|apply preserves_ret].
  apply preserves_bind; [apply preserves_createVersion | intros _].
  apply preserves_ret.
Qed.

Lemma preserves_import_prompt (merge : bool) (data_versions : list Version.t)
    (prompt : Prompt.t) (r : ImportResult) :
  preserves Inv (import_prompt now_at merge data_versions prompt r).
Proof.
  unfold import_prompt.
  apply preserves_bind; [apply preserves_read | intros [e|]].
  - destruct (negb merge); [apply preserves_ret|].
    apply preserves_bind; [|intros ex].
    { unfold getVersionsByPrompt.
      apply preserves_bind; [apply preserves_read | intros c].
      apply preserves_ret. }
    apply preserves_bind.
    { apply preserves_for_of. intros v r0. unfold merge_version.
      destruct (negb _); [|apply preserves_ret].
      apply preserves_bind; [apply preserves_versions_add | intros _].
      apply preserves_ret. }
    intros r'. apply preserves_bind; [apply preserves_Date_now | intros now].
    apply preserves_bind; [apply preserves_prompts_update | intros _].
    apply preserves_ret.
  - apply preserves_bind; [apply preserves_prompts_add | intros _].
    apply preserves_bind; [|intros _; apply preserves_ret].
    apply preserves_for_of. intros v []. apply preserves_versions_add.
Qed.

Lemma preserves_importData (data : ImportDoc) (merge : bool) :
  preserves Inv (importData now_at data merge).
Proof.
  unfold importData.
  destruct (doc_prompts data) as [ps|]; [|apply preserves_throw].
  destruct (doc_versions data) as [vs|]; [|apply preserves_throw].
  apply preserves_for_of. intros p r. apply preserves_import_prompt.
Qed.
End Preservation.

Section Invariants.
Variable now_at : nat -> Z.
Variable uuid_at : nat -> string.

Lemma apply_version_changes_id (changes : VersionChanges) (v : Version.t) :
  Version.id (apply_version_changes changes v) = Version.id v.
Proof. reflexivity. Qed.

Lemma unique_ids_counters (w : World) (c u : nat) :
  unique_ids w ->
  unique_ids {| prompts := prompts w; versions := versions w;
                clock_reads := c; uuid_draws := u |}.
Proof. now intros H. Qed.

Lemma unique_ids_prompts_add (w : World) (p : Prompt.t) :
  unique_ids w -> tbl_get Prompt.id (Prompt.id p) (prompts w) = None ->
  unique_ids {| prompts := tbl_insert Prompt.id p (prompts w);
                versions := versions w;
                clock_reads := clock_reads w; uuid_draws := uuid_draws w |}.
Proof.
  intros [Hp Hv] Hfresh. split; simpl; [|assumption].
  now apply NoDup_tbl_insert.
Qed.

Lemma unique_ids_prompts_update (w : World) (id : string)
    (changes : PromptChanges) :
  unique_ids w ->
  unique_ids {| prompts :=
                  tbl_update Prompt.id id (apply_changes changes) (prompts w);
                versions := versions w;
                clock_reads := clock_reads w; uuid_draws := uuid_draws w |}.
Proof.
  intros [Hp Hv]. split; simpl; [|assumption].
  now rewrite map_key_tbl_update by apply apply_changes_id.
Qed.

Lemma unique_ids_versions_add (w : World) (v : Version.t) :
  unique_ids w -> tbl_get Version.id (Version.id v) (versions w) = None ->
  unique_ids {| prompts := prompts w;
                versions := tbl_insert Version.id v (versions w);
                clock_reads := clock_reads w; uuid_draws := uuid_draws w |}.
Proof.
  intros [Hp Hv] Hfresh. split; simpl; [assumption|].
  now apply NoDup_tbl_insert.
Qed.

(** Uniqueness of the ids: no operation of the storage layer, whether it
    returns or throws, leaves two prompts or two versions with one id, if
    there were none before. For the import this holds for any document,
    also one that repeats ids. *)
Theorem storage_keeps_unique_ids :
  (forall promptData,
     preserves unique_ids (createPrompt now_at uuid_at promptData)) /\
  (forall id updates, preserves unique_ids (updatePrompt now_at id updates)) /\
  (forall id hard, preserves unique_ids (deletePrompt now_at id hard)) /\
  (forall promptId content notes,
     preserves unique_ids
       (createVersion now_at uuid_at promptId content notes)) /\
  (forall id updates, preserves unique_ids (updateVersion now_at id updates)) /\
  (forall id, preserves unique_ids (deleteVersion id)) /\
  (forall versionId,
     preserves unique_ids (rollbackToVersion now_at uuid_at versionId)) /\
  (forall data merge, preserves unique_ids (importData now_at data merge)) /\
  preserves unique_ids clearAllData.
Proof.
  pose proof unique_ids_counters as Hc.
  pose proof unique_ids_prompts_add as Hpa.
  pose proof unique_ids_prompts_update as Hpu.
  pose proof unique_ids_versions_add as Hva.
  repeat match goal with |- _ /\ _ => split end.
  - intros pd. now apply preserves_createPrompt.
  - intros id u. now apply preserves_updatePrompt.
  - intros id [|]; unfold deletePrompt; [|now apply preserves_updatePrompt].
    intros w out w' [Hp Hv] H.
    unfold bind, versions_delete_where_promptId, prompts_delete in H.
    injection H as _ <-. split; simpl; now apply NoDup_map_filter.
  - intros promptId content notes. now apply preserves_createVersion.
  - intros id u w out w' [Hp Hv] H.
    unfold updateVersion, bind, Date_now, versions_update in H.
    injection H as _ <-. split; simpl; [assumption|].
    now rewrite map_key_tbl_update by apply apply_version_changes_id.
  - intros id w out w' [Hp Hv] H. unfold deleteVersion, versions_delete in H.
    injection H as _ <-. split; simpl; [assumption|].
    now apply NoDup_map_filter.
  - intros versionId. now apply preserves_rollbackToVersion.
  - intros data merge. now apply preserves_importData.
  - intros w out w' _ H. unfold clearAllData in H. injection H as _ <-.
    split; constructor.
Qed.

(** The history only grows: creating a prompt or a version, updating a
    prompt, rolling back and importing any document with or without merge
    leave every stored version under its id as it was, also when the
    operation throws midway. *)
Theorem history_is_append_only (w w' : World) :
  (forall promptData out,
     createPrompt now_at uuid_at promptData w = (out, w') ->
     keeps_versions w w') /\
  (forall id updates out,
     updatePrompt now_at id updates w = (out, w') -> keeps_versions w w') /\
  (forall promptId content notes out,
     createVersion now_at uuid_at promptId content notes w = (out, w') ->
     keeps_versions w w') /\
  (forall versionId out,
     rollbackToVersion now_at uuid_at versionId w = (out, w') ->
     keeps_versions w w') /\
  (forall data merge out,
     importData now_at data merge w = (out, w') -> keeps_versions w w').
Proof.
  assert (Hc : forall w1 c u, keeps_versions w w1 ->
            keeps_versions w {| prompts := prompts w1; versions := versions w1;
                                clock_reads := c; uuid_draws := u |})
    by (intros w1 c u H; exact H).
  assert (Hpa : forall w1 p, keeps_versions w w1 ->
            tbl_get Prompt.id (Prompt.id p) (prompts w1) = None ->
            keeps_versions w
              {| prompts := tbl_insert Prompt.id p (prompts w1);
                 versions := versions w1;
                 clock_reads := clock_reads w1; uuid_draws := uuid_draws w1 |})
    by (intros w1 p H _; exact H).
  assert (Hpu : forall w1 id changes, keeps_versions w w1 ->
            keeps_versions w
              {| prompts := tbl_update Prompt.id id (apply_changes changes)
                              (prompts w1);
                 versions := versions w1;
                 clock_reads := clock_reads w1; uuid_draws := uuid_draws w1 |})
    by (intros w1 id ch H; exact H).
  assert (Hva : forall w1 v, keeps_versions w w1 ->
            tbl_get Version.id (Version.id v) (versions w1) = None ->
            keeps_versions w
              {| prompts := prompts w1;
                 versions := tbl_insert Version.id v (versions w1);
                 clock_reads := clock_reads w1; uuid_draws := uuid_draws w1 |}).
  { intros w1 v H Hfresh k x Hk. simpl.
    rewrite tbl_get_insert_other; [now apply H|].
    intros E. rewrite E, (H k x Hk) in Hfresh. discriminate. }
  assert (H0 : keeps_versions w w) by (intros k x Hk; exact Hk).
  repeat match goal with |- _ /\ _ => split end.
  - intros pd out. now apply (preserves_createPrompt now_at uuid_at _ Hc Hpa Hpu Hva).
  - intros id u out. now apply (preserves_updatePrompt now_at _ Hc Hpu).
  - intros promptId content notes out.
    now apply (preserves_createVersion now_at uuid_at _ Hc Hpu Hva).
  - intros versionId out.
    now apply (preserves_rollbackToVersion now_at uuid_at _ Hc Hpu Hva).
  - intros data merge out.
    now apply (preserves_importData now_at _ Hc Hpa Hpu Hva).
Qed.
End Invariants.

Section MoreDbFacts.
Variable now_at : nat -> Z.
Variable uuid_at : nat -> string.

(** The version [createVersion] builds in world [w]. *)
Lemma createVersion_eq (promptId : string) (content notes : option string)
    (w : World) :
  tbl_get Version.id (uuid_at (uuid_draws w)) (versions w) = None ->
  createVersion now_at uuid_at promptId content notes w =
    (Returned (uuid_at (uuid_draws w)),
     {| prompts :=
          tbl_update Prompt.id promptId
            (apply_changes
               (with_updatedAt no_changes (now_at (S (clock_reads w)))))
            (prompts w);
        versions := tbl_insert Version.id (new_version now_at uuid_at promptId content notes w)
                      (versions w);
        clock_reads := S (S (clock_reads w));
        uuid_draws := S (uuid_draws w) |}).
Proof.
  intros Hfresh.
  unfold createVersion, bind, randomUUID, Date_now, versions_where_promptId,
    versions_add, tbl_add, ret.
  cbn [prompts versions clock_reads uuid_draws toArray
       where_promptId_equals items dir Version.id].
  rewrite Hfresh, updatePrompt_eq. reflexivity.
Qed.

(** [createVersion] never looks the parent prompt up: for a prompt id
    that is not stored it still stores the version and returns its id,
    and the prompts table stays as it is. *)
Theorem createVersion_without_parent (promptId : string)
    (content notes : option string) (w : World) :
  tbl_get Prompt.id promptId (prompts w) = None ->
  tbl_get Version.id (uuid_at (uuid_draws w)) (versions w) = None ->
  exists w',
    createVersion now_at uuid_at promptId content notes w =
      (Returned (uuid_at (uuid_draws w)), w') /\
    prompts w' = prompts w /\
    getVersion (uuid_at (uuid_draws w)) w' =
      (Returned (Some (new_version now_at uuid_at promptId content notes w)), w') /\
    Version.promptId (new_version now_at uuid_at promptId content notes w)
      = promptId.
Proof.
  intros Hp Hfresh. eexists. split; [now apply createVersion_eq|].
  cbn [prompts versions]. split; [now apply tbl_update_absent|].
  split; [|reflexivity].
  unfold getVersion, versions_get. cbn [versions]. f_equal. f_equal.
  exact (tbl_get_insert_fresh Version.id
           (new_version now_at uuid_at promptId content notes w)
           (versions w) Hfresh).
Qed.

(** When the clock reads later than the [createdAt] of every stored
    version of the prompt, the version [createVersion] stores is the one
    [getLatestVersion] returns next. *)
Theorem createVersion_becomes_latest (promptId : string)
    (content notes : option string) (w : World) :
  tbl_get Version.id (uuid_at (uuid_draws w)) (versions w) = None ->
  (forall x, In x (versions w) -> Version.promptId x = promptId ->
     (Version.createdAt x < now_at (clock_reads w))%Z) ->
  exists w',
    createVersion now_at uuid_at promptId content notes w =
      (Returned (uuid_at (uuid_draws w)), w') /\
    getLatestVersion promptId w' =
      (Returned (Some (new_version now_at uuid_at promptId content notes w)), w').
Proof.
  intros Hfresh Hold. eexists. split; [now apply createVersion_eq|].
  set (v := new_version now_at uuid_at promptId content notes w).
  unfold getLatestVersion, bind. rewrite getVersionsByPrompt_eq.
  cbn [versions]. unfold ret.
  pose proof (versions_by_prompt_sorted promptId
                (tbl_insert Version.id v (versions w))) as Hsorted.
  assert (Hv : In v (versions_by_prompt promptId
                       (tbl_insert Version.id v (versions w)))).
  { apply In_versions_by_prompt. split; [|reflexivity].
    apply In_tbl_insert. now left. }
  destruct (versions_by_prompt promptId (tbl_insert Version.id v (versions w)))
    as [|h t] eqn:El; [contradiction|].
  assert (Hh : In h (h :: t)) by now left.
  rewrite <- El in Hh. apply In_versions_by_prompt in Hh as [Hh Hph].
  apply In_tbl_insert in Hh as [->|Hh]; [reflexivity|].
  exfalso. specialize (Hold h Hh Hph).
  inversion Hsorted as [|? ? _ Hall]; subst.
  destruct Hv as [Hv|Hv].
  - rewrite Hv in Hold. simpl in Hold. lia.
  - rewrite Forall_forall in Hall. specialize (Hall v Hv).
    unfold newer_first in Hall. simpl in Hall. lia.
Qed.

Lemma filter_tbl_insert_only {R} (key : R -> string) (f : R -> bool) (r : R)
    (t : list R) :
  f r = true -> filter f t = [] -> filter f (tbl_insert key r t) = [r].
Proof.
  intros Hf. induction t as [|y t IH]; simpl.
  - now rewrite Hf.
  - destruct (f y) eqn:Ey; [discriminate|]. intros Hnil.
    destruct (String.ltb (key r) (key y)); simpl.
    + now rewrite Hf, Ey, Hnil.
    + rewrite Ey. now apply IH.
Qed.

Lemma filter_none {A} (f : A -> bool) (l : list A) :
  (forall x, In x l -> f x = false) -> filter f l = [].
Proof.
  induction l as [|x l IH]; simpl; intros H; [reflexivity|].
  rewrite (H x (or_introl eq_refl)). apply IH. intros y Hy. apply H. now right.
Qed.

(** [createPrompt] with a non-empty content, when the two drawn ids are
    unused and no stored version names the new prompt id: the prompt is
    stored with the defaults for the fields left out, it is touched by the
    creation of the version, so that its [updatedAt] is the third reading
    of the clock and its [createdAt] the first, and its history is the
    single version v1 with the given content. *)
Theorem createPrompt_with_content (promptData : PromptData.t) (w : World)
    (content : string) :
  PromptData.content promptData = Some content ->
  content <> "" ->
  tbl_get Prompt.id (uuid_at (uuid_draws w)) (prompts w) = None ->
  tbl_get Version.id (uuid_at (S (uuid_draws w))) (versions w) = None ->
  (forall x, In x (versions w) ->
     Version.promptId x <> uuid_at (uuid_draws w)) ->
  exists w',
    createPrompt now_at uuid_at promptData w =
      (Returned (uuid_at (uuid_draws w)), w') /\
    getPrompt (uuid_at (uuid_draws w)) w' =
      (Returned
         (Some {| Prompt.id := uuid_at (uuid_draws w);
                  Prompt.title :=
                    or_string (PromptData.title promptData) "Untitled Prompt";
                  Prompt.description :=
                    or_string (PromptData.description promptData) "";
                  Prompt.tags := or_nil (PromptData.tags promptData);
                  Prompt.createdAt := now_at (clock_reads w);
                  Prompt.updatedAt := now_at (S (S (clock_reads w)));
                  Prompt.archived := false |}), w') /\
    getVersionsByPrompt (uuid_at (uuid_draws w)) w' =
      (Returned
         [{| Version.id := uuid_at (S (uuid_draws w));
             Version.promptId := uuid_at (uuid_draws w);
             Version.version := "v1";
             Version.content := content;
             Version.notes := or_empty (PromptData.notes promptData);
             Version.createdAt := now_at (S (clock_reads w));
             Version.updatedAt := now_at (S (clock_reads w)) |}], w').
Proof.
  intros Hc Hne Hpfresh Hvfresh Horphan.
  assert (Hnone : filter (fun v => Version.promptId v =? uuid_at (uuid_draws w))
                    (versions w) = []).
  { apply filter_none. intros x Hx. apply String.eqb_neq. now apply Horphan. }
  unfold createPrompt, bind, randomUUID, Date_now, prompts_add, tbl_add.
  cbn [prompts versions clock_reads uuid_draws Prompt.id].
  rewrite Hpfresh, Hc. unfold truthy.
  apply String.eqb_neq in Hne. rewrite Hne. cbn [negb].
  rewrite createVersion_eq by exact Hvfresh.
  unfold ret. eexists. split; [reflexivity|].
  unfold getPrompt, prompts_get. rewrite getVersionsByPrompt_eq.
  cbn [prompts versions clock_reads uuid_draws]. split.
  - rewrite tbl_get_update_same by apply apply_changes_id.
    match goal with
    | |- context [tbl_get _ _ (tbl_insert _ ?p _)] =>
        pose proof (tbl_get_insert_fresh Prompt.id p (prompts w) Hpfresh)
          as Hget;
        cbn [Prompt.id] in Hget; rewrite Hget
    end.
    reflexivity.
  - unfold versions_by_prompt, sortBy_createdAt, reverse, toArray,
      where_promptId_equals, new_version.
    cbn [items dir prompts versions clock_reads uuid_draws].
    rewrite Hnone.
    rewrite filter_tbl_insert_only;
      [reflexivity | apply String.eqb_refl | exact Hnone].
Qed.

(** [createPrompt] with the content left out or empty stores the prompt
    and no version: the versions table stays as it is, and the prompt has
    one time for [createdAt] and [updatedAt]. *)
Theorem createPrompt_without_content (promptData : PromptData.t) (w : World) :
  PromptData.content promptData = None \/
  PromptData.content promptData = Some "" ->
  tbl_get Prompt.id (uuid_at (uuid_draws w)) (prompts w) = None ->
  exists w',
    createPrompt now_at uuid_at promptData w =
      (Returned (uuid_at (uuid_draws w)), w') /\
    versions w' = versions w /\
    getPrompt (uuid_at (uuid_draws w)) w' =
      (Returned
         (Some {| Prompt.id := uuid_at (uuid_draws w);
                  Prompt.title :=
                    or_string (PromptData.title promptData) "Untitled Prompt";
                  Prompt.description :=
                    or_string (PromptData.description promptData) "";
                  Prompt.tags := or_nil (PromptData.tags promptData);
                  Prompt.createdAt := now_at (clock_reads w);
                  Prompt.updatedAt := now_at (clock_reads w);
                  Prompt.archived := false |}), w').
Proof.
  intros Hc Hpfresh.
  assert (Ht : truthy (PromptData.content promptData) = false)
    by (destruct Hc as [-> | ->]; reflexivity).
  unfold createPrompt, bind, randomUUID, Date_now, prompts_add, tbl_add.
  cbn [prompts versions clock_reads uuid_draws Prompt.id].
  rewrite Hpfresh, Ht. unfold ret. eexists. split; [reflexivity|].
  split; [reflexivity|].
  unfold getPrompt, prompts_get. cbn [prompts].
  match goal with
  | |- context [tbl_get _ _ (tbl_insert _ ?p _)] =>
      pose proof (tbl_get_insert_fresh Prompt.id p (prompts w) Hpfresh)
        as Hget;
      cbn [Prompt.id] in Hget; rewrite Hget
  end.
  reflexivity.
Qed.
End MoreDbFacts.

Section DexieSortFacts.
Context {A K : Type} (ltb : K -> K -> bool) (getval : A -> K).
Hypothesis ltb_asym : forall x y, ltb x y = true -> ltb y x = false.

Lemma dexie_sorter_next_Sorted (l : list A) :
  Sorted (fun a b => ltb (getval b) (getval a) = false)
         (js_sort (dexie_sorter ltb getval 1) l).
Proof.
  apply js_sort_Sorted; intros a b; unfold dexie_sorter;
    destruct (ltb (getval a) (getval b)) eqn:Eab;
    destruct (ltb (getval b) (getval a)) eqn:Eba; intros H;
    try reflexivity; try lia.
  apply ltb_asym in Eab. congruence.
Qed.

Lemma dexie_sorter_prev_Sorted (l : list A) :
  Sorted (fun a b => ltb (getval a) (getval b) = false)
         (js_sort (dexie_sorter ltb getval (-1)) l).
Proof.
  apply js_sort_Sorted; intros a b; unfold dexie_sorter;
    destruct (ltb (getval a) (getval b)) eqn:Eab;
    destruct (ltb (getval b) (getval a)) eqn:Eba; intros H;
    try reflexivity; try lia.
  apply ltb_asym in Eab. congruence.
Qed.
End DexieSortFacts.

Lemma String_ltb_asym (x y : string) :
  String.ltb x y = true -> String.ltb y x = false.
Proof.
  unfold String.ltb. rewrite (String.compare_antisym x y).
  now destruct (String.compare y x).
Qed.

Lemma Z_ltb_asym (x y : Z) : (x <? y)%Z = true -> (y <? x)%Z = false.
Proof. intros H. apply Z.ltb_lt in H. apply Z.ltb_ge. lia. Qed.

Lemma Sorted_impl {A} (R R' : A -> A -> Prop) (l : list A) :
  (forall a b, R a b -> R' a b) -> Sorted R l -> Sorted R' l.
Proof.
  intros HR. induction 1 as [|a l Hs IH Hhd]; constructor; [assumption|].
  destruct Hhd; constructor. now apply HR.
Qed.

Lemma filter_all {A} (l : list A) : filter (fun _ => true) l = l.
Proof. induction l as [|x l IH]; simpl; [reflexivity | now rewrite IH]. Qed.

Section ListingFacts.
Variable now_at : nat -> Z.

Lemma getAllPrompts_sorted_listing (options : Options) (w : World) :
  exists l,
    getAllPrompts options w = (Returned l, w) /\
    Permutation l (filter (keep_archived options) (prompts w)) /\
    (opt_sortBy options = Some "title" ->
       Sorted (fun a b => String.ltb (Prompt.title b) (Prompt.title a) = false)
              l) /\
    (opt_sortBy options = Some "createdAt" ->
       StronglySorted
         (fun a b => (Prompt.createdAt a <= Prompt.createdAt b)%Z) l) /\
    (opt_sortBy options <> Some "title" ->
     opt_sortBy options <> Some "createdAt" ->
       StronglySorted
         (fun a b => (Prompt.updatedAt b <= Prompt.updatedAt a)%Z) l).
Proof.
  unfold getAllPrompts, bind, prompts_toCollection.
  set (c := match opt_archived options with
            | Some false =>
                prompts_filter (fun p => negb (Prompt.archived p))
                  (toCollection (prompts w))
            | Some true =>
                prompts_filter (fun p => Prompt.archived p)
                  (toCollection (prompts w))
            | None => toCollection (prompts w)
            end).
  assert (Hc : prompt_dir c = next /\
               prompt_items c = filter (keep_archived options) (prompts w)).
  { unfold c, keep_archived. destruct (opt_archived options) as [[|]|];
      simpl; split; try reflexivity. now rewrite filter_all. }
  destruct Hc as [Hdir Hitems].
  assert (Hup : exists l,
            ret (prompts_sortBy Z.ltb Prompt.updatedAt (prompts_reverse c)) w
              = (Returned l, w) /\
            Permutation l (filter (keep_archived options) (prompts w)) /\
            StronglySorted
              (fun a b => (Prompt.updatedAt b <= Prompt.updatedAt a)%Z) l).
  { unfold ret, prompts_sortBy, prompts_toArray, prompts_reverse.
    cbn [prompt_dir prompt_items]. rewrite Hdir, Hitems.
    eexists. split; [reflexivity|]. split.
    - rewrite js_sort_Permutation. symmetry. apply Permutation_rev.
    - apply Sorted_StronglySorted; [intros a b d; lia|].
      eapply Sorted_impl;
        [|apply (dexie_sorter_prev_Sorted Z.ltb Prompt.updatedAt Z_ltb_asym)].
      intros a b H. now apply Z.ltb_ge in H. }
  destruct (opt_sortBy options) as [sortBy|] eqn:Es.
  - destruct (String.eqb_spec sortBy "title") as [->|Ht].
    + unfold ret, prompts_sortBy, prompts_toArray. rewrite Hdir, Hitems.
      eexists. split; [reflexivity|]. split; [apply js_sort_Permutation|].
      split; [|split]; intros H; try discriminate; try contradiction.
      apply (dexie_sorter_next_Sorted String.ltb Prompt.title String_ltb_asym).
    + destruct (String.eqb_spec sortBy "createdAt") as [->|Hcr].
      * unfold ret, prompts_sortBy, prompts_toArray. rewrite Hdir, Hitems.
        eexists. split; [reflexivity|]. split; [apply js_sort_Permutation|].
        split; [|split]; intros H; try discriminate; try contradiction.
        apply Sorted_StronglySorted; [intros a b d; lia|].
        eapply Sorted_impl;
          [|apply (dexie_sorter_next_Sorted Z.ltb Prompt.createdAt Z_ltb_asym)].
        intros a b H'. now apply Z.ltb_ge in H'.
      * destruct Hup as (l & Hrun & Hperm & Hsorted).
        exists l. split; [assumption|]. split; [assumption|].
        split; [|split]; intros H; congruence.
  - destruct Hup as (l & Hrun & Hperm & Hsorted).
    exists l. split; [assumption|]. split; [assumption|].
    split; [|split]; intros H; try discriminate.
    intros _. assumption.
Qed.

(** [getAllPrompts] reads without writing and returns the stored prompts
    that pass the filter on [archived] (all of them when the option is
    left out), each once; sorted by ascending title for the sort key
    title, by ascending [createdAt] for the sort key createdAt, and
    otherwise by descending [updatedAt]. *)
Theorem getAllPrompts_listing (options : Options) (w : World) :
  exists l,
    getAllPrompts options w = (Returned l, w) /\
    Permutation l (filter (keep_archived options) (prompts w)) /\
    (opt_sortBy options = Some "title" ->
       Sorted (fun a b => String.ltb (Prompt.title b) (Prompt.title a) = false)
              l) /\
    (opt_sortBy options = Some "createdAt" ->
       StronglySorted
         (fun a b => (Prompt.createdAt a <= Prompt.createdAt b)%Z) l) /\
    (opt_sortBy options <> Some "title" ->
     opt_sortBy options <> Some "createdAt" ->
       StronglySorted
         (fun a b => (Prompt.updatedAt b <= Prompt.updatedAt a)%Z) l).
Proof. apply getAllPrompts_sorted_listing. Qed.

Lemma getAllPrompts_not_archived_In (w : World) (l : list Prompt.t)
    (w' : World) (p : Prompt.t) :
  getAllPrompts not_archived w = (Returned l, w') ->
  In p l <-> In p (prompts w) /\ Prompt.archived p = false.
Proof.
  intros H.
  destruct (getAllPrompts_sorted_listing not_archived w)
    as (l' & Hrun & Hperm & _).
  rewrite Hrun in H. injection H as -> _.
  assert (Hf : In p (filter (keep_archived not_archived) (prompts w)) <->
               In p (prompts w) /\ Prompt.archived p = false)
    by (rewrite filter_In; unfold keep_archived; simpl;
        rewrite negb_true_iff; reflexivity).
  rewrite <- Hf. split; apply Permutation_in; [|symmetry]; assumption.
Qed.
End ListingFacts.

Section DeleteFacts.
Variable now_at : nat -> Z.
Variable uuid_at : nat -> string.

Lemma filter_promptId_after_cascade (id k : string) (t : list Version.t) :
  filter (fun v => Version.promptId v =? k)
         (filter (fun v => negb (Version.promptId v =? id)) t) =
    if k =? id then [] else filter (fun v => Version.promptId v =? k) t.
Proof.
  induction t as [|v t IH]; simpl; [now destruct (k =? id)|].
  destruct (String.eqb_spec (Version.promptId v) id) as [Ev|Ev]; simpl.
  - rewrite IH. destruct (String.eqb_spec k id) as [Ek|Ek]; [reflexivity|].
    assert ((Version.promptId v =? k) = false) as ->
      by (apply String.eqb_neq; congruence).
    reflexivity.
  - rewrite IH. destruct (String.eqb_spec k id) as [Ek|Ek];
      [|reflexivity].
    assert ((Version.promptId v =? k) = false) as ->
      by (apply String.eqb_neq; congruence).
    reflexivity.
Qed.

(** A hard delete removes the prompt and every version that names it, and
    nothing else: the other prompts and the version lists of the other
    prompts are as before. It returns also when the id is not stored. *)
Theorem deletePrompt_hard_cascades (id : string) (w : World) :
  exists w',
    deletePrompt now_at id true w = (Returned tt, w') /\
    getPrompt id w' = (Returned None, w') /\
    getVersionsByPrompt id w' = (Returned [], w') /\
    (forall v, In v (versions w') <->
       In v (versions w) /\ Version.promptId v <> id) /\
    (forall k, k <> id ->
       tbl_get Prompt.id k (prompts w') = tbl_get Prompt.id k (prompts w) /\
       getVersionsByPrompt k w' =
         (Returned (versions_by_prompt k (versions w)), w')).
Proof.
  eexists. split; [reflexivity|].
  unfold getPrompt, prompts_get. rewrite !getVersionsByPrompt_eq.
  cbn [prompts versions].
  split; [now rewrite tbl_get_delete_same|].
  split.
  { unfold versions_by_prompt, sortBy_createdAt, reverse, toArray,
      where_promptId_equals. cbn [items dir].
    rewrite filter_promptId_after_cascade, String.eqb_refl. reflexivity. }
  split.
  { intros v. rewrite filter_In, negb_true_iff, String.eqb_neq. reflexivity. }
  intros k Hk. split; [apply tbl_get_delete_other; congruence|].
  rewrite getVersionsByPrompt_eq. cbn [versions].
  unfold versions_by_prompt, sortBy_createdAt, reverse, toArray,
    where_promptId_equals. cbn [items dir].
  rewrite filter_promptId_after_cascade.
  apply String.eqb_neq in Hk. now rewrite Hk.
Qed.

Lemma In_tbl_update {R} (key : R -> string) (k : string) (f : R -> R)
    (t : list R) (y : R) :
  In y (tbl_update key k f t) ->
  exists x, In x t /\ y = (if key x =? k then f x else x).
Proof.
  unfold tbl_update. intros H. apply in_map_iff in H as (x & Hy & Hx).
  now exists x.
Qed.

(** A soft delete changes no version; it sets [archived] and refreshes
    [updatedAt] on the stored prompt, after which the listing of the
    prompts that are not archived holds no prompt of that id. For an id
    that is not stored it changes neither table. *)
Theorem deletePrompt_soft_archives (id : string) (w : World) :
  exists w',
    deletePrompt now_at id false w = (Returned tt, w') /\
    versions w' = versions w /\
    (forall p, tbl_get Prompt.id id (prompts w) = Some p ->
       getPrompt id w' =
         (Returned
            (Some {| Prompt.id := Prompt.id p;
                     Prompt.title := Prompt.title p;
                     Prompt.description := Prompt.description p;
                     Prompt.tags := Prompt.tags p;
                     Prompt.createdAt := Prompt.createdAt p;
                     Prompt.updatedAt := now_at (clock_reads w);
                     Prompt.archived := true |}), w')) /\
    (tbl_get Prompt.id id (prompts w) = None -> prompts w' = prompts w) /\
    (forall l w'' q,
       getAllPrompts not_archived w' = (Returned l, w'') ->
       In q l -> Prompt.id q <> id).
Proof.
  eexists. split; [unfold deletePrompt; apply updatePrompt_eq|].
  cbn [prompts versions]. split; [reflexivity|]. split; [|split].
  - intros p Hp. unfold getPrompt, prompts_get. cbn [prompts].
    rewrite tbl_get_update_same by apply apply_changes_id. now rewrite Hp.
  - intros Hp. now apply tbl_update_absent.
  - intros l w'' q Hl Hq Hid.
    apply (getAllPrompts_not_archived_In _ _ _ q Hl) in Hq as [Hq Harch].
    cbn [prompts] in Hq. apply In_tbl_update in Hq as (x & Hx & ->).
    destruct (String.eqb_spec (Prompt.id x) id) as [Ex|Ex].
    + simpl in Harch. discriminate.
    + contradiction.
Qed.


End DeleteFacts.

Section QueryFacts.
Variable toLowerCase : string -> string.

Lemma filter_length_split {A} (f : A -> bool) (l : list A) :
  List.length (filter f l) + List.length (filter (fun x => negb (f x)) l)
  = List.length l.
Proof.
  induction l as [|x l IH]; simpl; [reflexivity|].
  destruct (f x); simpl; lia.
Qed.

(** [getStats] counts without writing: [active] and [archived] add up to
    [prompts] (the subtraction never wraps), [active] is the length of the
    listing of the prompts that are not archived and [archived] the length
    of the listing of the archived ones. *)
Theorem getStats_counts (w : World) :
  exists s,
    getStats w = (Returned s, w) /\
    Stats.prompts s = List.length (prompts w) /\
    Stats.versions s = List.length (versions w) /\
    Stats.active s + Stats.archived s = Stats.prompts s /\
    (forall l w',
       getAllPrompts not_archived w = (Returned l, w') ->
       List.length l = Stats.active s) /\
    (forall l w',
       getAllPrompts {| opt_archived := Some true; opt_sortBy := None |} w
         = (Returned l, w') ->
       List.length l = Stats.archived s).
Proof.
  eexists. split; [reflexivity|].
  cbn [Stats.prompts Stats.versions Stats.active Stats.archived].
  assert (Hsplit :
    List.length (filter (fun p : Prompt.t => Prompt.archived p) (prompts w)) +
    List.length (filter (fun p => negb (Prompt.archived p)) (prompts w))
    = List.length (prompts w)) by apply filter_length_split.
  split; [reflexivity|]. split; [reflexivity|]. split; [lia|]. split.
  - intros l w' Hl.
    destruct (getAllPrompts_sorted_listing not_archived w)
      as (l' & Hrun & Hperm & _).
    rewrite Hrun in Hl. injection Hl as -> _.
    rewrite (Permutation_length Hperm). unfold keep_archived. simpl. lia.
  - intros l w' Hl.
    destruct (getAllPrompts_sorted_listing
                {| opt_archived := Some true; opt_sortBy := None |} w)
      as (l' & Hrun & Hperm & _).
    rewrite Hrun in Hl. injection Hl as -> _.
    rewrite (Permutation_length Hperm). reflexivity.
Qed.

Lemma array_includes_In (tags : list string) (tag : string) :
  array_includes tags tag = true <-> In tag tags.
Proof.
  unfold array_includes. rewrite existsb_exists. split.
  - intros (t & Hin & Heq). apply String.eqb_eq in Heq. now subst.
  - intros Hin. exists tag. split; [assumption | apply String.eqb_refl].
Qed.

(** [filterPromptsByTags] returns the stored prompts that are not archived
    and carry every one of the given tags, no other prompt, and writes
    nothing; with no tag given these are all prompts that are not
    archived. *)
Theorem filterPromptsByTags_all_tags (tags : list string) (w : World) :
  exists l,
    filterPromptsByTags tags w = (Returned l, w) /\
    forall p,
      In p l <->
      In p (prompts w) /\ Prompt.archived p = false /\
      (forall tag, In tag tags -> In tag (Prompt.tags p)).
Proof.
  destruct tags as [|t tags].
  - destruct (getAllPrompts_sorted_listing not_archived w)
      as (l & Hrun & _).
    exists l. split; [exact Hrun|]. intros p.
    rewrite (getAllPrompts_not_archived_In w l w p Hrun).
    split; [intros [H1 H2]; repeat split; [assumption..|contradiction]|].
    intros (H1 & H2 & _). now split.
  - eexists. split; [reflexivity|]. intros p.
    unfold prompts_toArray, prompts_filter, toCollection.
    cbn [prompt_dir prompt_items].
    rewrite !filter_In, negb_true_iff, forallb_forall.
    split.
    + intros [[H1 H2] H3]. repeat split; try assumption.
      intros tag Hin. now apply array_includes_In, H3.
    + intros (H1 & H2 & H3). repeat split; try assumption.
      intros tag Hin. now apply array_includes_In, H3.
Qed.

Lemma prefix_app (n s : string) :
  String.prefix n s = true <-> exists b, s = n ++ b.
Proof.
  revert s. induction n as [|c n IH]; intros s; simpl.
  - split; [intros _; now exists s | intros _; now destruct s].
  - destruct s as [|d s]; simpl;
      [split; [discriminate | intros [b Hb]; discriminate]|].
    destruct (ascii_dec c d) as [->|Hne].
    + rewrite IH. split; intros [b Hb]; exists b; [now rewrite Hb | congruence].
    + split; [discriminate | intros [b Hb]; congruence].
Qed.

Lemma includes_nil (needle : string) :
  includes "" needle = String.prefix needle "".
Proof. simpl. now destruct needle. Qed.

Lemma includes_cons (c : ascii) (s needle : string) :
  includes (String c s) needle =
    if String.prefix needle (String c s) then true else includes s needle.
Proof. reflexivity. Qed.

Lemma includes_occurs (s needle : string) :
  includes s needle = true <-> occurs needle s.
Proof.
  unfold occurs. induction s as [|c s IH].
  - rewrite includes_nil, prefix_app. split.
    + intros [b Hb]. now exists "", b.
    + intros (a & b & Hab). destruct a; [|discriminate]. now exists b.
  - rewrite includes_cons.
    destruct (String.prefix needle (String c s)) eqn:E.
    + split; [intros _|reflexivity]. apply prefix_app in E as [b Hb].
      exists "", b. exact Hb.
    + rewrite IH. split.
      * intros (a & b & Hab). exists (String c a), b. simpl. now rewrite Hab.
      * intros (a & b & Hab). destruct a as [|d a].
        -- simpl in Hab.
           assert (String.prefix needle (String c s) = true)
             by (apply prefix_app; now exists b).
           congruence.
        -- simpl in Hab. injection Hab as _ Hab. now exists a, b.
Qed.

(** [searchPrompts] with a non-empty query returns, in the order of the
    table and without writing, the prompts that are not archived and in
    which the lower-cased query occurs in the lower-cased title, in the
    lower-cased description or in a lower-cased tag; two queries with one
    lower-case form give one result. *)
Theorem searchPrompts_matches (query : string) (w : World) :
  query <> "" ->
  exists l,
    searchPrompts toLowerCase query w = (Returned l, w) /\
    (forall p,
       In p l <->
       In p (prompts w) /\ Prompt.archived p = false /\
       (occurs (toLowerCase query) (toLowerCase (Prompt.title p)) \/
        occurs (toLowerCase query) (toLowerCase (Prompt.description p)) \/
        exists tag, In tag (Prompt.tags p) /\
                    occurs (toLowerCase query) (toLowerCase tag))) /\
    (forall query',
       query' <> "" -> toLowerCase query' = toLowerCase query ->
       searchPrompts toLowerCase query' w = (Returned l, w)).
Proof.
  intros Hq. apply String.eqb_neq in Hq.
  unfold searchPrompts. rewrite Hq.
  eexists. split; [reflexivity|]. split.
  - intros p. unfold prompts_toArray, prompts_filter, toCollection.
    cbn [prompt_dir prompt_items].
    rewrite !filter_In, negb_true_iff, !orb_true_iff, !includes_occurs,
      existsb_exists.
    split.
    + intros [[H1 H2] [[H3|H3]|(tag & Hin & H3)]]; repeat split;
        try assumption; auto.
      right. right. exists tag. split; [assumption|].
      now apply includes_occurs.
    + intros (H1 & H2 & [H3|[H3|(tag & Hin & H3)]]); repeat split;
        try assumption; auto.
      right. exists tag. split; [assumption|]. now apply includes_occurs.
  - intros query' Hq' Hlow. apply String.eqb_neq in Hq'.
    rewrite Hq', Hlow. reflexivity.
Qed.
End QueryFacts.

Section TagFacts.

Lemma map_get_set_same (k : string) (v : nat) (m : list (string * nat)) :
  map_get k (map_set k v m) = Some v.
Proof.
  induction m as [|[k' v'] m IH]; simpl.
  - now rewrite String.eqb_refl.
  - destruct (k' =? k) eqn:E; simpl.
    + now rewrite String.eqb_refl.
    + now rewrite E.
Qed.

Lemma map_get_set_other (k k' : string) (v : nat) (m : list (string * nat)) :
  k <> k' -> map_get k' (map_set k v m) = map_get k' m.
Proof.
  intros Hk. induction m as [|[k0 v0] m IH]; simpl.
  - now apply String.eqb_neq in Hk as ->.
  - destruct (String.eqb_spec k0 k) as [->|E]; simpl.
    + now apply String.eqb_neq in Hk as ->.
    + now rewrite IH.
Qed.

Lemma keys_map_set (k : string) (v : nat) (m : list (string * nat)) :
  map fst (map_set k v m) =
    if existsb (fun e => fst e =? k) m then map fst m
    else (map fst m ++ [k])%list.
Proof.
  induction m as [|[k0 v0] m IH]; simpl; [reflexivity|].
  destruct (String.eqb_spec k0 k) as [->|E]; simpl; [reflexivity|].
  rewrite IH. now destruct (existsb (fun e => fst e =? k) m).
Qed.

Lemma existsb_key_In (k : string) (m : list (string * nat)) :
  existsb (fun e => fst e =? k) m = true <-> In k (map fst m).
Proof.
  rewrite existsb_exists, in_map_iff. split.
  - intros (e & Hin & He). apply String.eqb_eq in He. now exists e.
  - intros (e & He & Hin). exists e. split; [assumption|].
    now apply String.eqb_eq.
Qed.

Lemma NoDup_keys_map_set (k : string) (v : nat) (m : list (string * nat)) :
  NoDup (map fst m) -> NoDup (map fst (map_set k v m)).
Proof.
  intros Hnd. rewrite keys_map_set.
  destruct (existsb (fun e => fst e =? k) m) eqn:E; [assumption|].
  apply NoDup_app; [assumption | repeat constructor; intros [] |].
  intros x Hx [<-|[]]. apply existsb_key_In in Hx. congruence.
Qed.

Lemma In_keys_map_set (k k' : string) (v : nat) (m : list (string * nat)) :
  In k' (map fst (map_set k v m)) <-> k' = k \/ In k' (map fst m).
Proof.
  rewrite keys_map_set.
  destruct (existsb (fun e => fst e =? k) m) eqn:E.
  - apply existsb_key_In in E. split; [auto | intros [->|H]; assumption].
  - rewrite in_app_iff. simpl. intuition congruence.
Qed.

Lemma map_get_In (k : string) (v : nat) (m : list (string * nat)) :
  NoDup (map fst m) -> In (k, v) m -> map_get k m = Some v.
Proof.
  induction m as [|[k0 v0] m IH]; simpl; intros Hnd Hin; [contradiction|].
  inversion Hnd as [|? ? Hnotin Hnd']; subst.
  destruct Hin as [E|Hin].
  - injection E as -> ->. now rewrite String.eqb_refl.
  - destruct (String.eqb_spec k0 k) as [->|E].
    + exfalso. apply Hnotin. apply in_map_iff. now exists (k, v).
    + now apply IH.
Qed.

(** The number the map holds for a tag, 0 for a tag it does not hold. *)
Lemma tally_count_tags (tags : list string) :
  forall (m : list (string * nat)) (t : string),
    or_zero (map_get t (fold_left count_tag tags m)) =
    or_zero (map_get t m) + count_occ string_dec tags t.
Proof.
  induction tags as [|x tags IH]; intros m t; simpl; [lia|].
  rewrite IH. unfold count_tag.
  destruct (string_dec x t) as [->|E].
  - rewrite map_get_set_same. simpl. lia.
  - now rewrite map_get_set_other.
Qed.

Lemma keys_count_tags (tags : list string) :
  forall (m : list (string * nat)),
    NoDup (map fst m) ->
    NoDup (map fst (fold_left count_tag tags m)) /\
    forall t, In t (map fst (fold_left count_tag tags m)) <->
              In t (map fst m) \/ In t tags.
Proof.
  induction tags as [|x tags IH]; intros m Hnd; simpl.
  - split; [assumption | intuition].
  - destruct (IH (count_tag m x)) as [Hnd' Hkeys].
    { now apply NoDup_keys_map_set. }
    split; [assumption|]. intros t. rewrite Hkeys.
    unfold count_tag. rewrite In_keys_map_set. intuition congruence.
Qed.

Lemma count_tags_flat (ps : list Prompt.t) :
  forall m,
    fold_left (fun tagMap prompt => fold_left count_tag (Prompt.tags prompt) tagMap)
              ps m =
    fold_left count_tag (flat_map Prompt.tags ps) m.
Proof.
  induction ps as [|p ps IH]; intros m; simpl; [reflexivity|].
  now rewrite IH, fold_left_app.
Qed.

(** [getAllTags] writes nothing and returns one entry per tag carried by
    a prompt that is not archived, and none for another tag; the count of
    an entry is the number of times its tag is carried, a prompt that
    lists a tag twice counting twice; the entries come by descending
    count. *)
Theorem getAllTags_counts (w : World) :
  exists l,
    getAllTags w = (Returned l, w) /\
    NoDup (map tag l) /\
    (forall t, In t (map tag l) <-> In t (tags_in_use w)) /\
    (forall e, In e l ->
       count e = count_occ string_dec (tags_in_use w) (tag e)) /\
    StronglySorted (fun a b => count b <= count a) l.
Proof.
  eexists. split; [reflexivity|].
  unfold prompts_toArray, prompts_filter, toCollection.
  cbn [prompt_dir prompt_items].
  unfold count_tags. rewrite count_tags_flat. fold (tags_in_use w).
  set (m := fold_left count_tag (tags_in_use w) []).
  destruct (keys_count_tags (tags_in_use w) [] (NoDup_nil _)) as [Hnd Hkeys].
  fold m in Hnd, Hkeys.
  set (entries := map (fun entry => {| tag := fst entry; count := snd entry |}) m).
  assert (Htags : map tag entries = map fst m).
  { unfold entries. rewrite map_map. reflexivity. }
  set (cmp := fun a b : TagCount => (Z.of_nat (count b) - Z.of_nat (count a))%Z).
  pose proof (js_sort_Permutation cmp entries) as Hperm.
  split; [|split; [|split]].
  - apply (Permutation_NoDup (l := map tag entries)).
    + symmetry. now apply Permutation_map.
    + now rewrite Htags.
  - intros t.
    assert (In t (map tag (js_sort cmp entries)) <-> In t (map tag entries))
      as ->
      by (split; apply Permutation_in; [|symmetry]; now apply Permutation_map).
    rewrite Htags, Hkeys. simpl. tauto.
  - intros e He. apply (Permutation_in _ Hperm) in He.
    unfold entries in He. apply in_map_iff in He as ([k v] & <- & Hin).
    simpl. pose proof (tally_count_tags (tags_in_use w) [] k) as Ht.
    fold m in Ht. rewrite (map_get_In k v m Hnd Hin) in Ht. simpl in Ht.
    exact Ht.
  - apply Sorted_StronglySorted; [intros a b c; lia|].
    apply js_sort_Sorted; intros a b; unfold cmp; lia.
Qed.
End TagFacts.

Section RoundTrips.
Variable now_at : nat -> Z.

(** The loop that adds all versions of a new prompt, when every one of
    them can be added. *)
Lemma add_loop_run (vs : list Version.t) :
  forall w,
    NoDup (map Version.id vs) ->
    (forall v, In v vs -> tbl_get Version.id (Version.id v) (versions w) = None) ->
    for_of (fun version (_ : unit) => versions_add version) vs tt w =
      (Returned tt,
       {| prompts := prompts w;
          versions := insert_all vs (versions w);
          clock_reads := clock_reads w; uuid_draws := uuid_draws w |}).
Proof.
  induction vs as [|v vs IH]; intros w Hnd Hfresh; simpl.
  - unfold ret, insert_all. simpl. now destruct w.
  - inversion Hnd as [|? ? Hnotin Hnd']; subst.
    unfold bind. rewrite versions_add_fresh by (apply Hfresh; now left).
    rewrite IH; simpl; [reflexivity | assumption |].
    intros v' Hin'. rewrite tbl_get_insert_other.
    + apply Hfresh. now right.
    + intros E. apply Hnotin. rewrite E. now apply in_map.
Qed.

Lemma import_prompt_new (merge : bool) (data_versions : list Version.t)
    (prompt : Prompt.t) (r : ImportResult) (w : World) :
  tbl_get Prompt.id (Prompt.id prompt) (prompts w) = None ->
  NoDup (map Version.id data_versions) ->
  (forall x, In x (versions w) ->
     In x data_versions /\ Version.promptId x <> Prompt.id prompt) ->
  import_prompt now_at merge data_versions prompt r w =
    (Returned (count_imported r),
     {| prompts := tbl_insert Prompt.id prompt (prompts w);
        versions :=
          insert_all
            (filter (fun v => Version.promptId v =? Prompt.id prompt)
                    data_versions)
            (versions w);
        clock_reads := clock_reads w; uuid_draws := uuid_draws w |}).
Proof.
  intros Hnew Hnd Hold.
  unfold import_prompt, bind at 1, prompts_get. rewrite Hnew.
  unfold bind at 1, prompts_add, tbl_add. rewrite Hnew.
  unfold bind. rewrite add_loop_run; [reflexivity | now apply NoDup_map_filter |].
  cbn [versions]. intros v Hv. apply filter_In in Hv as [Hv Hp].
  apply String.eqb_eq in Hp. apply tbl_get_None. intros x Hx Hid.
  destruct (Hold x Hx) as [Hxin Hxp].
  apply Hxp. rewrite <- Hp. f_equal.
  now apply (NoDup_map_inj Version.id data_versions).
Qed.

Lemma import_into_fresh_store (merge : bool) (data_versions : list Version.t)
    (data_prompts : list Prompt.t) :
  NoDup (map Version.id data_versions) ->
  forall r w,
    NoDup (map Prompt.id data_prompts) ->
    (forall p, In p data_prompts ->
       tbl_get Prompt.id (Prompt.id p) (prompts w) = None) ->
    (forall x, In x (versions w) ->
       In x data_versions /\
       forall p, In p data_prompts -> Version.promptId x <> Prompt.id p) ->
    exists w',
      for_of (import_prompt now_at merge data_versions) data_prompts r w =
        (Returned {| imported := imported r + List.length data_prompts;
                     skipped := skipped r; merged := merged r |}, w') /\
      (forall p, In p (prompts w') <-> In p (prompts w) \/ In p data_prompts) /\
      (forall x, In x (versions w') <->
         In x (versions w) \/
         (In x data_versions /\
          exists p, In p data_prompts /\ Version.promptId x = Prompt.id p)).
Proof.
  intros Hndv. induction data_prompts as [|q ps IH]; intros r w Hnd Hnew Hold.
  - exists w. simpl. unfold ret. rewrite Nat.add_0_r.
    split; [now destruct r|]. split; intros x; [tauto|].
    split; [auto | intros [H|(_ & p & [] & _)]; assumption].
  - simpl in Hnd. inversion Hnd as [|? ? Hnotin Hnd']; subst.
    simpl. unfold bind.
    rewrite import_prompt_new; try assumption.
    2: { apply Hnew. now left. }
    2: { intros x Hx. destruct (Hold x Hx) as [H1 H2].
         split; [assumption | apply H2; now left]. }
    destruct (IH (count_imported r)
                 {| prompts := tbl_insert Prompt.id q (prompts w);
                    versions :=
                      insert_all
                        (filter (fun v => Version.promptId v =? Prompt.id q)
                                data_versions) (versions w);
                    clock_reads := clock_reads w;
                    uuid_draws := uuid_draws w |} Hnd')
      as (w' & Hrun & Hps & Hvs).
    { intros p Hp. cbn [prompts]. rewrite tbl_get_insert_other.
      - apply Hnew. now right.
      - intros E. apply Hnotin. rewrite E. now apply in_map. }
    { intros x Hx. cbn [versions] in Hx.
      apply In_insert_all in Hx as [Hx|Hx].
      - destruct (Hold x Hx) as [H1 H2].
        split; [assumption|]. intros p Hp. apply H2. now right.
      - apply filter_In in Hx as [Hx Hpx]. apply String.eqb_eq in Hpx.
        split; [assumption|]. intros p Hp E. apply Hnotin.
        rewrite <- Hpx, E. now apply in_map. }
    exists w'. split.
    { rewrite Hrun. simpl. do 2 f_equal. f_equal. lia. }
    cbn [prompts versions] in Hps, Hvs. split.
    + intros p. rewrite Hps, In_tbl_insert. simpl. intuition congruence.
    + intros x. rewrite Hvs, In_insert_all, filter_In, String.eqb_eq.
      split.
      * intros [[H|[H1 H2]]|(H1 & p & Hp & H2)]; [now left| |].
        -- right. split; [assumption|]. exists q. split; [now left|assumption].
        -- right. split; [assumption|]. exists p. split; [now right|assumption].
      * intros [H|(H1 & p & [<-|Hp] & H2)]; [now left; left| |].
        -- left. right. now split.
        -- right. split; [assumption|]. now exists p.
Qed.

(** Exporting a store with distinct ids, clearing it and importing the
    exported document, with or without merge, counts every prompt as
    imported and restores every prompt as it was and every version whose
    prompt is stored; a version with no stored prompt is not restored. *)
Theorem export_clear_import (merge : bool) (w : World) :
  unique_ids w ->
  exists w',
    (data <- exportData now_at ;;
     clearAllData ;;;
     importData now_at (as_import data) merge) w =
      (Returned {| imported := List.length (prompts w);
                   skipped := 0; merged := 0 |}, w') /\
    (forall p, In p (prompts w') <-> In p (prompts w)) /\
    (forall k, tbl_get Prompt.id k (prompts w') = tbl_get Prompt.id k (prompts w)) /\
    (forall x, In x (versions w') <->
       In x (versions w) /\
       exists p, In p (prompts w) /\ Version.promptId x = Prompt.id p) /\
    unique_ids w'.
Proof.
  intros [Hndp Hndv].
  set (w0 := {| prompts := []; versions := [];
                clock_reads := S (clock_reads w);
                uuid_draws := uuid_draws w |}).
  destruct (import_into_fresh_store merge (versions w) (prompts w) Hndv
              {| imported := 0; skipped := 0; merged := 0 |} w0 Hndp)
    as (w' & Hrun & Hps & Hvs).
  { intros p _. reflexivity. }
  { intros x []. }
  assert (Huniq : unique_ids w').
  { apply (preserves_for_of unique_ids
             (import_prompt now_at merge (versions w)) (prompts w)
             (fun p r =>
                preserves_import_prompt now_at unique_ids unique_ids_counters
                  unique_ids_prompts_add unique_ids_prompts_update
                  unique_ids_versions_add merge (versions w) p r)
             _ w0 _ w' ltac:(split; constructor) Hrun). }
  exists w'. split; [exact Hrun|].
  assert (Hps' : forall p, In p (prompts w') <-> In p (prompts w))
    by (intros p; rewrite Hps; simpl; tauto).
  split; [exact Hps'|]. split; [|split; [|exact Huniq]].
  - intros k. destruct Huniq as [Hup _].
    destruct (tbl_get Prompt.id k (prompts w)) as [p|] eqn:E.
    + apply tbl_get_Some in E as [Hin Hk]. subst k.
      apply tbl_get_unique; [assumption | now apply Hps'].
    + apply tbl_get_None. intros r Hr.
      apply (proj1 (tbl_get_None Prompt.id _ _) E). now apply Hps'.
  - intros x. rewrite Hvs. simpl. tauto.
Qed.

Lemma import_prompt_settled_eq (data_versions : list Version.t)
    (prompt : Prompt.t) (r : ImportResult) (w : World) :
  known w (Prompt.id prompt) ->
  covered w data_versions (Prompt.id prompt) ->
  import_prompt now_at true data_versions prompt r w =
    (Returned r,
     {| prompts :=
          tbl_update Prompt.id (Prompt.id prompt)
            (apply_changes
               (with_updatedAt (spread_prompt prompt) (now_at (clock_reads w))))
            (prompts w);
        versions := versions w;
        clock_reads := S (clock_reads w);
        uuid_draws := uuid_draws w |}).
Proof.
  intros Hk Hcov. apply known_dec_Some in Hk as [e He].
  unfold import_prompt, bind, prompts_get. rewrite He. cbn [negb].
  rewrite getVersionsByPrompt_eq, merge_loop_settled; [reflexivity|].
  intros v Hin. apply filter_In in Hin as [Hin Hp].
  apply String.eqb_eq in Hp.
  destruct (Hcov v Hin Hp) as (x & Hx & Hid & Hpx).
  apply existsb_exists. exists x. split.
  - now apply In_versions_by_prompt.
  - now apply String.eqb_eq.
Qed.

Lemma same_but_updatedAt_update (p : Prompt.t) (now : Z)
    (l ps : list Prompt.t) :
  Forall2 same_but_updatedAt l ps ->
  (forall p', In p' ps -> Prompt.id p' = Prompt.id p -> p' = p) ->
  Forall2 same_but_updatedAt
    (tbl_update Prompt.id (Prompt.id p)
       (apply_changes (with_updatedAt (spread_prompt p) now)) l) ps.
Proof.
  induction 1 as [|q p' l ps HR HF IH]; intros Huniq; simpl; constructor.
  - unfold same_but_updatedAt in HR.
    assert (Hid : Prompt.id q = Prompt.id p') by (rewrite HR; reflexivity).
    destruct (String.eqb_spec (Prompt.id q) (Prompt.id p)) as [E|E];
      [|exact HR].
    assert (p' = p) as -> by (apply Huniq; [now left | congruence]).
    unfold same_but_updatedAt, apply_changes, touched. simpl. now rewrite E.
  - apply IH. intros p0 Hin. apply Huniq. now right.
Qed.

Lemma restore_loop (data_versions : list Version.t) (ps : list Prompt.t) :
  NoDup (map Prompt.id ps) ->
  forall (todo : list Prompt.t) r w,
    incl todo ps ->
    Forall2 same_but_updatedAt (prompts w) ps ->
    incl data_versions (versions w) ->
    exists w',
      for_of (import_prompt now_at true data_versions) todo r w = (Returned r, w') /\
      versions w' = versions w /\
      Forall2 same_but_updatedAt (prompts w') ps.
Proof.
  intros Hnd. induction todo as [|p todo IH]; intros r w Hincl HF Hvs.
  - exists w. now repeat split.
  - assert (Hp : In p ps) by (apply Hincl; now left).
    simpl. unfold bind. rewrite import_prompt_settled_eq.
    + edestruct IH as (w' & Hrun & Hv & HF'); cycle 3.
      * exists w'. split; [exact Hrun|]. split; [exact Hv | exact HF'].
      * intros x Hx. apply Hincl. now right.
      * cbn [prompts]. apply same_but_updatedAt_update; [assumption|].
        intros p' Hp' E. now apply (NoDup_map_inj Prompt.id ps).
      * exact Hvs.
    + clear - HF Hp. unfold known.
      induction HF as [|q p' l ps' HR HF IH]; [contradiction|].
      destruct Hp as [->|Hp].
      * unfold tbl_get. simpl.
        assert (Prompt.id q = Prompt.id p) as ->
          by (unfold same_but_updatedAt in HR; rewrite HR; reflexivity).
        rewrite String.eqb_refl. discriminate.
      * unfold tbl_get. simpl. destruct (Prompt.id q =? Prompt.id p);
          [discriminate | now apply IH].
    + intros v Hv Hpid. exists v. split; [now apply Hvs | now split].
Qed.

(** Restoring the backup of the store into the store itself, which the
    local adapter does with merge on: when the prompt ids are distinct,
    the import counts nothing, leaves the versions table as it is, and
    leaves every prompt as it was but for [updatedAt]. *)
Theorem restore_own_backup (w : World) :
  NoDup (map Prompt.id (prompts w)) ->
  exists w',
    (data <- backup now_at ;; restore now_at (as_import data)) w =
      (Returned {| imported := 0; skipped := 0; merged := 0 |}, w') /\
    versions w' = versions w /\
    Forall2 same_but_updatedAt (prompts w') (prompts w).
Proof.
  intros Hnd.
  set (w0 := {| prompts := prompts w; versions := versions w;
                clock_reads := S (clock_reads w);
                uuid_draws := uuid_draws w |}).
  destruct (restore_loop (versions w) (prompts w) Hnd (prompts w)
              {| imported := 0; skipped := 0; merged := 0 |} w0)
    as (w' & Hrun & Hv & HF).
  - apply incl_refl.
  - cbn [prompts w0]. clear. induction (prompts w) as [|p l IH]; constructor.
    + unfold same_but_updatedAt, touched. now destruct p.
    + exact IH.
  - apply incl_refl.
  - exists w'. split; [exact Hrun|]. split; [exact Hv | exact HF].
Qed.
End RoundTrips.

(* ===================================================================== *)
(** * Import with merge: the whole document *)
(* ===================================================================== *)

Section MergeImport.
Variable now_at : nat -> Z.

Lemma filter_filter_andb {A} (f g : A -> bool) (l : list A) :
  filter f (filter g l) = filter (fun x => g x && f x) l.
Proof.
  induction l as [|a l IH]; simpl; [reflexivity|].
  destruct (g a); simpl; [destruct (f a)|]; now rewrite IH.
Qed.

Lemma filter_all_true {A} (f : A -> bool) (l : list A) :
  (forall x, In x l -> f x = true) -> filter f l = l.
Proof.
  induction l as [|a l IH]; intros H; simpl; [reflexivity|].
  rewrite (H a) by now left. f_equal. apply IH. intros x Hx. apply H.
  now right.
Qed.

Lemma filter_all_false {A} (f : A -> bool) (l : list A) :
  (forall x, In x l -> f x = false) -> filter f l = [].
Proof.
  induction l as [|a l IH]; intros H; simpl; [reflexivity|].
  rewrite (H a) by now left. apply IH. intros x Hx. apply H. now right.
Qed.

(** A list splits in two by two tests of which each element passes
    exactly one. *)
Lemma length_filter_split {A} (f g : A -> bool) (l : list A) :
  (forall x, In x l -> f x = negb (g x)) ->
  List.length l = List.length (filter f l) + List.length (filter g l).
Proof.
  induction l as [|a l IH]; intros H; simpl; [reflexivity|].
  rewrite (H a) by now left.
  rewrite IH by (intros x Hx; apply H; now right).
  destruct (g a); simpl; lia.
Qed.

Lemma names_true (ps : list Prompt.t) (v : Version.t) :
  names ps v = true <->
  exists p, In p ps /\ Prompt.id p = Version.promptId v.
Proof.
  unfold names. rewrite existsb_exists.
  split; intros (p & Hp & E); exists p; split; try assumption;
    now apply String.eqb_eq.
Qed.

Lemma stored_prompt_known (w : World) (k : string) :
  stored_prompt w k = true <-> known w k.
Proof.
  unfold stored_prompt, known.
  destruct (tbl_get Prompt.id k (prompts w)); split; congruence.
Qed.

Lemma stored_prompt_ext (w w' : World) (k : string) :
  tbl_get Prompt.id k (prompts w') = tbl_get Prompt.id k (prompts w) ->
  stored_prompt w' k = stored_prompt w k.
Proof. unfold stored_prompt. now intros ->. Qed.

Lemma absent_locally_None (t : list Version.t) (v : Version.t) :
  absent_locally t v = true <-> tbl_get Version.id (Version.id v) t = None.
Proof.
  unfold absent_locally.
  destruct (tbl_get Version.id (Version.id v) t); split; congruence.
Qed.

(** One iteration of the merge import, for a prompt that is stored or
    new, when every version it has to add can be added: it adds the
    incoming versions of the prompt that are absent locally. *)
Lemma import_prompt_merge_step (data_versions : list Version.t)
    (prompt : Prompt.t) (r : ImportResult) (w : World) :
  let incoming :=
    filter (fun v => Version.promptId v =? Prompt.id prompt) data_versions in
  let inserted := filter (absent_locally (versions w)) incoming in
  NoDup (map Version.id inserted) ->
  (forall v x, In v incoming -> In x (versions w) ->
     Version.id x = Version.id v ->
     Version.promptId x = Prompt.id prompt /\ known w (Prompt.id prompt)) ->
  exists r1 w1,
    import_prompt now_at true data_versions prompt r w = (Returned r1, w1) /\
    versions w1 = insert_all inserted (versions w) /\
    merged r1 =
      merged r +
      (if stored_prompt w (Prompt.id prompt) then List.length inserted
       else 0) /\
    imported r1 =
      imported r + (if stored_prompt w (Prompt.id prompt) then 0 else 1) /\
    skipped r1 = skipped r /\
    clock_reads w <= clock_reads w1 /\
    (forall e, tbl_get Prompt.id (Prompt.id prompt) (prompts w) = Some e ->
       clock_reads w1 = S (clock_reads w) /\
       tbl_get Prompt.id (Prompt.id prompt) (prompts w1) =
         Some (overwritten (now_at (clock_reads w)) prompt)) /\
    (forall k, k <> Prompt.id prompt ->
       tbl_get Prompt.id k (prompts w1) = tbl_get Prompt.id k (prompts w)).
Proof.
  intros incoming inserted Hnd Hsame.
  destruct (tbl_get Prompt.id (Prompt.id prompt) (prompts w)) as [e|] eqn:He.
  - eexists. eexists. split.
    { apply (import_prompt_merge_eq now_at data_versions prompt r w e He);
        [|exact Hnd].
      intros v x Hv Hx Hid. now apply (Hsame v x). }
    unfold stored_prompt. rewrite He.
    cbn [prompts versions clock_reads imported skipped merged].
    split; [reflexivity|]. split; [reflexivity|]. split; [lia|].
    split; [reflexivity|]. split; [lia|]. split.
    + intros e' _. split; [reflexivity|].
      now apply tbl_get_overwritten with e.
    + intros k Hk.
      apply tbl_get_update_other; [apply apply_changes_id|congruence].
  - assert (Hall : forall v, In v incoming ->
              tbl_get Version.id (Version.id v) (versions w) = None).
    { intros v Hv.
      destruct (tbl_get Version.id (Version.id v) (versions w)) as [x|] eqn:E;
        [|reflexivity].
      apply tbl_get_Some in E as [Hx Hid].
      destruct (Hsame v x Hv Hx Hid) as [_ Hk]. now elim Hk. }
    assert (Hins : inserted = incoming).
    { apply filter_all_true. intros v Hv. now apply absent_locally_None, Hall. }
    exists (count_imported r). eexists. split.
    { unfold import_prompt, bind at 1, prompts_get. rewrite He.
      unfold bind at 1, prompts_add, tbl_add. rewrite He.
      unfold bind. fold incoming.
      rewrite add_loop_run; [reflexivity| |exact Hall].
      rewrite <- Hins. exact Hnd. }
    unfold stored_prompt. rewrite He.
    cbn [prompts versions clock_reads imported skipped merged count_imported].
    rewrite Hins.
    split; [reflexivity|]. split; [lia|]. split; [reflexivity|].
    split; [reflexivity|]. split; [lia|]. split.
    + intros e. discriminate.
    + intros k Hk. apply tbl_get_insert_other. congruence.
Qed.

(** The loop of [importData] with merge over the prompts that are left,
    when the prompts have distinct ids, the versions to insert have
    distinct ids, and a stored version that has the id of an incoming
    one is a version of the same prompt, which is stored. *)
Lemma import_merge_loop_run (data_versions : list Version.t)
    (todo : list Prompt.t) :
  forall (r : ImportResult) (w : World),
    NoDup (map Prompt.id todo) ->
    NoDup (map Version.id
             (filter (absent_locally (versions w))
                (filter (names todo) data_versions))) ->
    (forall v x, In v (filter (names todo) data_versions) ->
       In x (versions w) -> Version.id x = Version.id v ->
       Version.promptId x = Version.promptId v /\
       known w (Version.promptId v)) ->
    exists r' w',
      for_of (import_prompt now_at true data_versions) todo r w
        = (Returned r', w') /\
      merged r' =
        merged r +
        List.length
          (filter (fun v => stored_prompt w (Version.promptId v))
             (filter (absent_locally (versions w))
                (filter (names todo) data_versions))) /\
      imported r' =
        imported r +
        List.length
          (filter (fun p => negb (stored_prompt w (Prompt.id p))) todo) /\
      skipped r' = skipped r /\
      (forall x, In x (versions w') <->
         In x (versions w) \/
         In x (filter (absent_locally (versions w))
                 (filter (names todo) data_versions))) /\
      (forall k x, tbl_get Version.id k (versions w) = Some x ->
         tbl_get Version.id k (versions w') = Some x) /\
      (forall v,
         In v (filter (absent_locally (versions w))
                 (filter (names todo) data_versions)) ->
         tbl_get Version.id (Version.id v) (versions w') = Some v) /\
      List.length (versions w') =
        List.length (versions w) +
        List.length (filter (absent_locally (versions w))
                       (filter (names todo) data_versions)) /\
      clock_reads w <= clock_reads w' /\
      (forall p e, In p todo ->
         tbl_get Prompt.id (Prompt.id p) (prompts w) = Some e ->
         exists k, clock_reads w <= k < clock_reads w' /\
           tbl_get Prompt.id (Prompt.id p) (prompts w') =
             Some (overwritten (now_at k) p)) /\
      (forall k, ~ In k (map Prompt.id todo) ->
         tbl_get Prompt.id k (prompts w') = tbl_get Prompt.id k (prompts w)).
Proof.
  induction todo as [|p rest IH]; intros r w Hp Hv Hx.
  - exists r, w.
    assert (Hnil : filter (names []) data_versions = [])
      by (apply filter_all_false; reflexivity).
    rewrite Hnil. cbn [for_of filter map List.length].
    unfold ret. rewrite !Nat.add_0_r.
    repeat match goal with |- _ /\ _ => split end;
      try reflexivity; try lia; intros; cbn [In]; try tauto;
      try match goal with H : In _ [] |- _ => destruct H end.
  - cbn [map] in Hp. inversion Hp as [|? ? Hnotin Hp']; subst.
    set (INS := filter (absent_locally (versions w))
                  (filter (names (p :: rest)) data_versions)) in *.
    set (incoming := filter (fun v => Version.promptId v =? Prompt.id p)
                       data_versions).
    set (inserted := filter (absent_locally (versions w)) incoming).
    (* the tests on one version *)
    assert (F0 : forall v, (Version.promptId v =? Prompt.id p) = true ->
              names (p :: rest) v = true).
    { intros v E. unfold names. cbn [existsb].
      rewrite String.eqb_sym, E. reflexivity. }
    assert (F1 : forall v, (Version.promptId v =? Prompt.id p) = true ->
              names rest v = false).
    { intros v E. apply String.eqb_eq in E. apply not_true_is_false.
      intros Hn. apply names_true in Hn as (q & Hq & Hid).
      apply Hnotin. rewrite <- E, <- Hid. now apply in_map. }
    assert (F2 : forall v, names rest v = true -> names (p :: rest) v = true).
    { intros v Hn. unfold names in *. cbn [existsb]. rewrite Hn.
      apply orb_true_r. }
    assert (F3 : forall v, names (p :: rest) v = true ->
              (Version.promptId v =? Prompt.id p) = negb (names rest v)).
    { intros v Hn. destruct (Version.promptId v =? Prompt.id p) eqn:E.
      - now rewrite (F1 v E).
      - unfold names in Hn. cbn [existsb] in Hn.
        rewrite String.eqb_sym, E in Hn. cbn [orb] in Hn.
        unfold names. now rewrite Hn. }
    (* the versions inserted for [p] are those of [INS] that name [p] *)
    assert (E2 : inserted =
                 filter (fun v => Version.promptId v =? Prompt.id p) INS).
    { unfold inserted, incoming, INS. rewrite !filter_filter_andb.
      apply filter_ext. intros v.
      destruct (Version.promptId v =? Prompt.id p) eqn:E;
        [rewrite (F0 v E)|];
        destruct (names (p :: rest) v), (absent_locally (versions w) v);
        reflexivity. }
    assert (Hnd : NoDup (map Version.id inserted)).
    { rewrite E2. now apply NoDup_map_filter. }
    assert (Hin_ins : forall y, In y inserted ->
              In y INS /\ Version.promptId y = Prompt.id p /\
              tbl_get Version.id (Version.id y) (versions w) = None).
    { intros y Hy. rewrite E2 in Hy. apply filter_In in Hy as [Hy E].
      split; [assumption|]. split; [now apply String.eqb_eq|].
      unfold INS in Hy. apply filter_In in Hy as [_ Hy].
      now apply absent_locally_None. }
    destruct (import_prompt_merge_step data_versions p r w Hnd)
      as (r1 & w1 & Hstep & Hv1 & Hm1 & Hi1 & Hs1 & Hc1 & Hp1 & Ho1).
    { intros v x Hvin Hxin Hid. fold incoming in Hvin.
      apply filter_In in Hvin as [Hvin E].
      destruct (Hx v x) as [H1 H2]; try assumption.
      - apply filter_In. split; [assumption | now apply F0].
      - apply String.eqb_eq in E. rewrite E in H1, H2. now split. }
    fold incoming inserted in Hv1, Hm1.
    (* a version that names a later prompt has the id of none inserted *)
    assert (K0 : forall v y, In v data_versions -> names rest v = true ->
              In y inserted -> Version.id y <> Version.id v).
    { intros v y Hvin Hn Hy Hid.
      destruct (Hin_ins y Hy) as (HyI & Hyp & Hynone).
      assert (HvI : In v INS).
      { unfold INS. apply filter_In. split.
        - apply filter_In. split; [assumption | now apply F2].
        - apply absent_locally_None. now rewrite <- Hid. }
      assert (y = v) by now apply (NoDup_map_inj Version.id INS).
      subst y. apply String.eqb_eq in Hyp. rewrite (F1 v Hyp) in Hn.
      discriminate. }
    assert (G : forall v, In v data_versions -> names rest v = true ->
              absent_locally (versions w1) v = absent_locally (versions w) v).
    { intros v Hvin Hn. unfold absent_locally. rewrite Hv1.
      rewrite tbl_get_insert_all_other; [reflexivity|].
      intros y Hy. now apply (K0 v y). }
    assert (E1 : filter (absent_locally (versions w1))
                   (filter (names rest) data_versions) =
                 filter (names rest) INS).
    { unfold INS. rewrite !filter_filter_andb.
      apply filter_ext_in. intros v Hvin.
      destruct (names rest v) eqn:Hn;
        [rewrite (F2 v Hn), (G v Hvin Hn)|];
        destruct (names (p :: rest) v), (absent_locally (versions w) v),
          (absent_locally (versions w1) v); reflexivity. }
    assert (Hother : forall v, names rest v = true ->
              Version.promptId v <> Prompt.id p).
    { intros v Hn E. apply String.eqb_eq in E. rewrite (F1 v E) in Hn.
      discriminate. }
    destruct (IH r1 w1 Hp') as
      (r' & w' & Hrun & Hm & Hi & Hs & HV1 & HV2 & HV3 & HV4 & Hc & HP1 & HP2).
    { rewrite E1. now apply NoDup_map_filter. }
    { intros v x Hvin Hxin Hid.
      apply filter_In in Hvin as [Hvin Hn].
      rewrite Hv1 in Hxin. apply In_insert_all in Hxin as [Hxin|Hxin].
      - destruct (Hx v x) as [H1 H2]; try assumption.
        { apply filter_In. split; [assumption | now apply F2]. }
        split; [assumption|]. unfold known in *.
        rewrite Ho1; [assumption | now apply Hother].
      - now elim (K0 v x Hvin Hn Hxin). }
    rewrite E1 in Hm, HV1, HV3, HV4.
    (* the members of [INS] *)
    assert (HINS : forall x, In x INS <->
              In x inserted \/ In x (filter (names rest) INS)).
    { intros x. rewrite E2, !filter_In. split.
      - intros Hin. assert (Hn : names (p :: rest) x = true).
        { unfold INS in Hin. apply filter_In in Hin as [Hin _].
          now apply filter_In in Hin. }
        pose proof (F3 x Hn) as E.
        destruct (names rest x); cbn [negb] in E; [now right | now left].
      - intros [[H _]|[H _]]; exact H. }
    assert (HlenINS : List.length INS =
              List.length inserted +
              List.length (filter (names rest) INS)).
    { rewrite E2. apply length_filter_split. intros x Hin.
      apply F3. unfold INS in Hin. apply filter_In in Hin as [Hin _].
      now apply filter_In in Hin. }
    assert (Hfresh : forall y, In y inserted ->
              tbl_get Version.id (Version.id y) (versions w) = None).
    { intros y Hy. now destruct (Hin_ins y Hy) as (_ & _ & H). }
    exists r', w'. split.
    { cbn [for_of]. unfold bind. rewrite Hstep. exact Hrun. }
    split.
    { (* merged *)
      rewrite Hm, Hm1.
      set (S0 := fun v => stored_prompt w (Version.promptId v)).
      assert (Hsplit : List.length (filter S0 INS) =
                List.length (filter (fun v => Version.promptId v =? Prompt.id p)
                               (filter S0 INS)) +
                List.length (filter (names rest) (filter S0 INS))).
      { apply length_filter_split. intros x Hin. apply F3.
        apply filter_In in Hin as [Hin _].
        unfold INS in Hin. apply filter_In in Hin as [Hin _].
        now apply filter_In in Hin. }
      rewrite Hsplit.
      assert (Hleft :
        List.length (filter (fun v => Version.promptId v =? Prompt.id p)
                       (filter S0 INS)) =
        if stored_prompt w (Prompt.id p) then List.length inserted else 0).
      { assert (Hcomm :
          filter (fun v => Version.promptId v =? Prompt.id p) (filter S0 INS)
          = filter S0 inserted).
        { rewrite E2, !filter_filter_andb. apply filter_ext.
          intros x. apply andb_comm. }
        rewrite Hcomm.
        destruct (stored_prompt w (Prompt.id p)) eqn:Est.
        - rewrite filter_all_true; [reflexivity|].
          intros y Hy. destruct (Hin_ins y Hy) as (_ & Hyp & _).
          unfold S0. now rewrite Hyp.
        - rewrite filter_all_false; [reflexivity|].
          intros y Hy. destruct (Hin_ins y Hy) as (_ & Hyp & _).
          unfold S0. now rewrite Hyp. }
      assert (Hright :
        filter (fun v => stored_prompt w1 (Version.promptId v))
          (filter (names rest) INS) =
        filter (names rest) (filter S0 INS)).
      { rewrite !filter_filter_andb.
        apply filter_ext. intros v. destruct (names rest v) eqn:Hn;
          [|now rewrite andb_false_r].
        cbn [andb]. rewrite andb_true_r.
        unfold S0. apply stored_prompt_ext, Ho1.
        now apply Hother. }
      rewrite Hright, Hleft. lia. }
    split.
    { (* imported *)
      rewrite Hi, Hi1. cbn [filter].
      assert (Hrest :
        filter (fun q => negb (stored_prompt w1 (Prompt.id q))) rest =
        filter (fun q => negb (stored_prompt w (Prompt.id q))) rest).
      { apply filter_ext_in. intros q Hq. f_equal.
        apply stored_prompt_ext, Ho1. intros E. apply Hnotin.
        rewrite <- E. now apply in_map. }
      rewrite Hrest.
      destruct (stored_prompt w (Prompt.id p)); cbn [negb List.length]; lia. }
    split; [congruence|]. split.
    { intros x. rewrite HV1, Hv1, In_insert_all, HINS. tauto. }
    assert (Hkeep : forall k x, tbl_get Version.id k (versions w) = Some x ->
              tbl_get Version.id k (versions w1) = Some x).
    { intros k x Hk. rewrite Hv1, tbl_get_insert_all_other; [assumption|].
      intros y Hy E. rewrite <- E, (Hfresh y Hy) in Hk. discriminate. }
    split; [intros k x Hk; now apply HV2, Hkeep|]. split.
    { intros v Hvin. apply HINS in Hvin as [Hvin|Hvin].
      - apply HV2. rewrite Hv1.
        now apply tbl_get_insert_all_new.
      - now apply HV3. }
    split.
    { rewrite HV4, Hv1, length_insert_all, HlenINS. lia. }
    split; [lia|]. split.
    { intros q e [<-|Hq] He.
      - destruct (Hp1 e He) as [Hclock Hover].
        exists (clock_reads w). split; [lia|].
        rewrite HP2; [exact Hover|]. exact Hnotin.
      - assert (Hne : Prompt.id q <> Prompt.id p).
        { intros E. apply Hnotin. rewrite <- E. now apply in_map. }
        destruct (HP1 q e Hq) as (k & Hk & Hover).
        { now rewrite Ho1. }
        exists k. split; [lia | exact Hover]. }
    intros k Hk. cbn [map] in Hk. rewrite HP2, Ho1.
    + reflexivity.
    + intros E. apply Hk. now left.
    + intros Hin. apply Hk. now right.
Qed.

(** C4, as the code has it, for the whole document. Provided that the
    prompts of the document have pairwise distinct ids, that the
    versions of the document that name one of its prompts and are
    absent locally have pairwise distinct ids, and that a local version
    with the id of such an incoming version is a version of the same
    prompt, which is stored, the import with merge returns and
    - an incoming version is stored afterwards under its id when no
      local version had that id, and a local version stays under its id
      as it was, so the version is inserted if and only if no local
      version shares its id;
    - [merged] is the number of versions inserted for prompts that were
      stored, [imported] the number of prompts that were not, the table
      grows by the inserted versions and by nothing else;
    - every prompt of the document that was stored is overwritten with
      the fields of the incoming prompt and [updatedAt] set to a time
      read during the import; no prompt outside the document changes. *)
Theorem importData_merge_into_stored_prompts (data_prompts : list Prompt.t)
    (data_versions : list Version.t) (w : World) :
  let incoming := filter (names data_prompts) data_versions in
  let inserted := filter (absent_locally (versions w)) incoming in
  NoDup (map Prompt.id data_prompts) ->
  NoDup (map Version.id inserted) ->
  (forall v x, In v incoming -> In x (versions w) ->
     Version.id x = Version.id v ->
     Version.promptId x = Version.promptId v /\
     known w (Version.promptId v)) ->
  exists r w',
    importData now_at
      {| doc_prompts := Some data_prompts;
         doc_versions := Some data_versions |} true w = (Returned r, w') /\
    merged r =
      List.length
        (filter (fun v => stored_prompt w (Version.promptId v)) inserted) /\
    imported r =
      List.length
        (filter (fun p => negb (stored_prompt w (Prompt.id p))) data_prompts) /\
    skipped r = 0 /\
    (forall v, In v incoming ->
       tbl_get Version.id (Version.id v) (versions w) = None ->
       tbl_get Version.id (Version.id v) (versions w') = Some v) /\
    (forall k x, tbl_get Version.id k (versions w) = Some x ->
       tbl_get Version.id k (versions w') = Some x) /\
    (forall x, In x (versions w') <-> In x (versions w) \/ In x inserted) /\
    List.length (versions w') =
      List.length (versions w) + List.length inserted /\
    (forall p e, In p data_prompts ->
       tbl_get Prompt.id (Prompt.id p) (prompts w) = Some e ->
       exists k, clock_reads w <= k < clock_reads w' /\
         tbl_get Prompt.id (Prompt.id p) (prompts w') =
           Some (overwritten (now_at k) p)) /\
    (forall k, ~ In k (map Prompt.id data_prompts) ->
       tbl_get Prompt.id k (prompts w') = tbl_get Prompt.id k (prompts w)).
Proof.
  intros incoming inserted Hp Hv Hx.
  destruct (import_merge_loop_run data_versions data_prompts
              {| imported := 0; skipped := 0; merged := 0 |} w Hp Hv Hx)
    as (r & w' & Hrun & Hm & Hi & Hs & HV1 & HV2 & HV3 & HV4 & _ & HP1 & HP2).
  exists r, w'. unfold importData. cbn [doc_prompts doc_versions].
  split; [exact Hrun|]. split; [exact Hm|]. split; [exact Hi|].
  split; [exact Hs|]. split.
  { intros v Hvin Hnone. apply HV3. apply filter_In.
    split; [assumption | now apply absent_locally_None]. }
  split; [exact HV2|]. split; [exact HV1|]. split; [exact HV4|].
  split; [exact HP1 | exact HP2].
Qed.
End MergeImport.

(** C4 on the scenario store: the document holds the stored prompt p1
    with the stored ver-1 and the new ver-2, and the new prompt p3 with
    ver-3. *)
Lemma importData_merge_into_stored_prompts_witness :
  NoDup (map Prompt.id [prompt_p1_incoming; prompt_p3_incoming]) /\
  NoDup (map Version.id
           (filter (absent_locally (versions store_p1))
              (filter (names [prompt_p1_incoming; prompt_p3_incoming])
                 [version_1; version_2_incoming; version_3_incoming]))) /\
  exists w',
    importData clock
      {| doc_prompts := Some [prompt_p1_incoming; prompt_p3_incoming];
         doc_versions :=
           Some [version_1; version_2_incoming; version_3_incoming] |}
      true store_p1 =
      (Returned {| imported := 1; skipped := 0; merged := 1 |}, w') /\
    tbl_get Version.id "ver-2" (versions w') = Some version_2_incoming /\
    tbl_get Version.id "ver-1" (versions w') = Some version_1 /\
    List.length (versions w') = 3 /\
    tbl_get Prompt.id "p1" (prompts w') =
      Some (overwritten 1700000000000 prompt_p1_incoming).
Proof.
  assert (Hp : NoDup (map Prompt.id [prompt_p1_incoming; prompt_p3_incoming])).
  { cbn. repeat constructor; cbn; intuition discriminate. }
  assert (Hv : NoDup (map Version.id
            (filter (absent_locally (versions store_p1))
               (filter (names [prompt_p1_incoming; prompt_p3_incoming])
                  [version_1; version_2_incoming; version_3_incoming])))).
  { cbn. repeat constructor; cbn; intuition discriminate. }
  assert (Hx : forall v x,
            In v (filter (names [prompt_p1_incoming; prompt_p3_incoming])
                    [version_1; version_2_incoming; version_3_incoming]) ->
            In x (versions store_p1) ->
            Version.id x = Version.id v ->
            Version.promptId x = Version.promptId v /\
            known store_p1 (Version.promptId v)).
  { intros v x Hvin [<-|[]] Hid. cbn in Hvin.
    destruct Hvin as [<-|[<-|[<-|[]]]]; try discriminate.
    split; [reflexivity|]. cbv. discriminate. }
  split; [exact Hp|]. split; [exact Hv|].
  destruct (importData_merge_into_stored_prompts clock
              [prompt_p1_incoming; prompt_p3_incoming]
              [version_1; version_2_incoming; version_3_incoming]
              store_p1 Hp Hv Hx)
    as (r & w' & Hrun & Hm & Hi & Hs & Hins & Hkept & _ & Hlen & Hprompt & _).
  exists w'. split.
  { rewrite Hrun. destruct r as [i s m]. cbn in Hm, Hi, Hs. now subst. }
  split; [apply (Hins version_2_incoming); [cbn; auto | reflexivity]|].
  split; [apply Hkept; reflexivity|].
  split; [exact Hlen|].
  destruct (Hprompt prompt_p1_incoming prompt_p1 (or_introl eq_refl) eq_refl)
    as (k & Hk & Hover).
  assert (Hw : w' = store_after_import).
  { change store_after_import with
      (snd (importData clock
              {| doc_prompts := Some [prompt_p1_incoming; prompt_p3_incoming];
                 doc_versions :=
                   Some [version_1; version_2_incoming; version_3_incoming] |}
              true store_p1)).
    now rewrite Hrun. }
  rewrite Hw in Hk. cbn in Hk.
  assert (k = 0) by lia. subst k. exact Hover.
Defined.

(* ===================================================================== *)
(** * Properties of the escaping and of the model helpers *)
(* ===================================================================== *)

Lemma string_app_assoc (a b c : string) : (a ++ b) ++ c = a ++ (b ++ c).
Proof. induction a as [|x a IH]; simpl; [reflexivity | now rewrite IH]. Qed.

Lemma replace_all_app (c : ascii) (by_ s t : string) :
  replace_all c by_ (s ++ t) = replace_all c by_ s ++ replace_all c by_ t.
Proof.
  induction s as [|d s IH]; simpl; [reflexivity|].
  destruct (Ascii.eqb d c); rewrite IH; [|reflexivity].
  now rewrite string_app_assoc.
Qed.

Lemma string_app_nil_r (a : string) : a ++ "" = a.
Proof. induction a as [|x a IH]; simpl; [reflexivity | now rewrite IH]. Qed.

Lemma replace_all_single (c : ascii) (by_ : string) (d : ascii) :
  replace_all c by_ (String d "") =
    if Ascii.eqb d c then by_ else String d "".
Proof.
  cbn [replace_all]. destruct (Ascii.eqb d c); [apply string_app_nil_r|].
  reflexivity.
Qed.

Lemma In_chars_app (d : ascii) (s t : string) :
  In d (list_ascii_of_string (s ++ t)) <->
  In d (list_ascii_of_string s) \/ In d (list_ascii_of_string t).
Proof.
  induction s as [|e s IH]; simpl; [tauto|]. rewrite IH. tauto.
Qed.

(** A character of [replace_all c by_ s] is a character of [s] other than
    [c], or a character of the replacement. *)
Lemma replace_all_chars (c : ascii) (by_ s : string) (d : ascii) :
  In d (list_ascii_of_string (replace_all c by_ s)) ->
  (In d (list_ascii_of_string s) /\ d <> c) \/
  In d (list_ascii_of_string by_).
Proof.
  induction s as [|e s IH]; simpl; [contradiction|].
  destruct (Ascii.eqb_spec e c) as [->|Hne].
  - rewrite In_chars_app. intros [H|H]; [now right|].
    destruct (IH H) as [[H1 H2]|H1]; [left; split; auto | now right].
  - simpl. intros [<-|H]; [left; split; auto|].
    destruct (IH H) as [[H1 H2]|H1]; [left; split; auto | now right].
Qed.

Lemma replace_all_absent (c : ascii) (by_ s : string) :
  ~ In c (list_ascii_of_string s) -> replace_all c by_ s = s.
Proof.
  induction s as [|e s IH]; simpl; intros H; [reflexivity|].
  destruct (Ascii.eqb_spec e c) as [->|Hne]; [exfalso; auto|].
  f_equal. apply IH. auto.
Qed.

Ltac chars_of_entity :=
  repeat match goal with
    | H : In _ (list_ascii_of_string _) /\ _ |- _ => destruct H
    | H : _ \/ _ |- _ => destruct H
    | H : In _ (list_ascii_of_string (String _ _)) |- _ => simpl in H
    | H : In _ [] |- _ => destruct H
    | H : False |- _ => destruct H
    end.

(** The text [escapeHtml] returns holds no angle bracket and no quote. *)
Theorem escapeHtml_no_markup (str : string) (d : ascii) :
  In d (list_ascii_of_string (escapeHtml str)) ->
  d <> "<"%char /\ d <> ">"%char /\ d <> dquote /\ d <> "'"%char.
Proof.
  unfold escapeHtml. destruct (str =? ""); [intros []|].
  intros H.
  apply replace_all_chars in H as [[H H5]|H].
  - apply replace_all_chars in H as [[H H4]|H].
    + apply replace_all_chars in H as [[H H3]|H].
      * apply replace_all_chars in H as [[H H2]|H].
        -- now repeat split.
        -- chars_of_entity; subst; repeat split; discriminate.
      * chars_of_entity; subst; repeat split; discriminate.
    + chars_of_entity; subst; repeat split; discriminate.
  - chars_of_entity; subst; repeat split; discriminate.
Qed.

Lemma escapeHtml_cons (c : ascii) (s : string) :
  escapeHtml (String c s) = entity c ++ escapeHtml s.
Proof.
  assert (Hchain : forall t,
    replace_all "'" "&#039;"
      (replace_all dquote "&quot;"
         (replace_all ">" "&gt;"
            (replace_all "<" "&lt;" (replace_all "&" "&amp;" t)))) =
    escapeHtml t).
  { intros t. unfold escapeHtml. now destruct t. }
  unfold escapeHtml at 1. cbn [String.eqb].
  change (String c s) with (String c "" ++ s).
  rewrite !replace_all_app, !Hchain. f_equal.
  unfold entity.
  destruct (Ascii.eqb_spec c "&") as [->|H1]; [reflexivity|].
  destruct (Ascii.eqb_spec c "<") as [->|H2]; [reflexivity|].
  destruct (Ascii.eqb_spec c ">") as [->|H3]; [reflexivity|].
  destruct (Ascii.eqb_spec c dquote) as [->|H4]; [reflexivity|].
  destruct (Ascii.eqb_spec c "'") as [->|H5]; [reflexivity|].
  apply Ascii.eqb_neq in H1, H2, H3, H4, H5.
  unfold escapeHtml. cbn [String.eqb].
  now rewrite replace_all_single, H1, replace_all_single, H2,
    replace_all_single, H3, replace_all_single, H4, replace_all_single, H5.
Qed.

Lemma entity_prefix_free (c1 c2 : ascii) (x y : string) :
  entity c1 ++ x = entity c2 ++ y -> c1 = c2 /\ x = y.
Proof.
  unfold entity.
  destruct (Ascii.eqb_spec c1 "&") as [->|A1];
  [|destruct (Ascii.eqb_spec c1 "<") as [->|A2];
    [|destruct (Ascii.eqb_spec c1 ">") as [->|A3];
      [|destruct (Ascii.eqb_spec c1 dquote) as [->|A4];
        [|destruct (Ascii.eqb_spec c1 "'") as [->|A5]]]]];
  (destruct (Ascii.eqb_spec c2 "&") as [->|B1];
   [|destruct (Ascii.eqb_spec c2 "<") as [->|B2];
     [|destruct (Ascii.eqb_spec c2 ">") as [->|B3];
       [|destruct (Ascii.eqb_spec c2 dquote) as [->|B4];
         [|destruct (Ascii.eqb_spec c2 "'") as [->|B5]]]]]);
  simpl; intros H; try discriminate H;
  try (injection H; intros; subst; try congruence; now split).
Qed.

(** [escapeHtml] loses nothing: two texts with one escaped form are one
    text. *)
Theorem escapeHtml_injective (s1 s2 : string) :
  escapeHtml s1 = escapeHtml s2 -> s1 = s2.
Proof.
  revert s2. induction s1 as [|c1 s1 IH]; intros [|c2 s2].
  - reflexivity.
  - rewrite escapeHtml_cons. unfold entity.
    repeat match goal with |- context [Ascii.eqb ?a ?b] =>
      destruct (Ascii.eqb a b) end; discriminate.
  - rewrite escapeHtml_cons. unfold entity.
    repeat match goal with |- context [Ascii.eqb ?a ?b] =>
      destruct (Ascii.eqb a b) end; discriminate.
  - rewrite !escapeHtml_cons. intros H.
    apply entity_prefix_free in H as [-> H]. f_equal. now apply IH.
Qed.

(** The text [sanitizeString] returns holds no angle bracket, no quote and
    no slash; sanitizing it again changes nothing; and the ampersand is
    left alone, so that a text that already holds an entity and the text
    the entity stands for are sanitized to one text. *)
Theorem sanitizeString_idempotent (str : string) :
  (forall d, In d (list_ascii_of_string (sanitizeString str)) ->
     d <> "<"%char /\ d <> ">"%char /\ d <> dquote /\ d <> "'"%char /\
     d <> "/"%char) /\
  sanitizeString (sanitizeString str) = sanitizeString str /\
  sanitizeString "<" = sanitizeString "&lt;".
Proof.
  assert (Hsafe : forall d,
            In d (list_ascii_of_string (sanitizeString str)) ->
            d <> "<"%char /\ d <> ">"%char /\ d <> dquote /\ d <> "'"%char /\
            d <> "/"%char).
  { intros d H. unfold sanitizeString in H.
    apply replace_all_chars in H as [[H H5]|H].
    - apply replace_all_chars in H as [[H H4]|H].
      + apply replace_all_chars in H as [[H H3]|H].
        * apply replace_all_chars in H as [[H H2]|H].
          -- apply replace_all_chars in H as [[H H1]|H].
             ++ now repeat split.
             ++ chars_of_entity; subst; repeat split; discriminate.
          -- chars_of_entity; subst; repeat split; discriminate.
        * chars_of_entity; subst; repeat split; discriminate.
      + chars_of_entity; subst; repeat split; discriminate.
    - chars_of_entity; subst; repeat split; discriminate. }
  split; [exact Hsafe|]. split; [|reflexivity].
  set (t := sanitizeString str) in *.
  unfold sanitizeString at 1.
  assert (Hno : forall c,
            (c = "<"%char \/ c = ">"%char \/ c = dquote \/ c = "'"%char \/
             c = "/"%char) -> ~ In c (list_ascii_of_string t)).
  { intros c Hc Hin. destruct (Hsafe c Hin) as (H1 & H2 & H3 & H4 & H5).
    intuition congruence. }
  rewrite (replace_all_absent "<") by (apply Hno; auto).
  rewrite (replace_all_absent ">") by (apply Hno; auto).
  rewrite (replace_all_absent dquote) by (apply Hno; auto).
  rewrite (replace_all_absent "'") by (apply Hno; auto 6).
  rewrite (replace_all_absent "/") by (apply Hno; auto 6).
  reflexivity.
Qed.

(** [truncate] returns a text of at most [maxLength] code units as it
    is; a longer text becomes its first [maxLength] code units followed
    by three dots, which is [maxLength + 3] code units: up to two more
    than the text had. *)
Theorem truncate_length (text : js_string) (maxLength : nat) :
  (List.length text <= maxLength -> truncate text maxLength = text) /\
  (maxLength < List.length text ->
     truncate text maxLength = (firstn maxLength text ++ three_dots)%list /\
     (exists rest, text = (firstn maxLength text ++ rest)%list) /\
     List.length (truncate text maxLength) = maxLength + 3) /\
  List.length (truncate text maxLength) <= List.length text + 2.
Proof.
  unfold truncate.
  destruct (Nat.leb_spec (List.length text) maxLength) as [Hle|Hgt].
  - rewrite orb_true_r. split; [reflexivity|]. split; lia.
  - assert (Hne : match text with [] => true | _ :: _ => false end = false).
    { destruct text; [simpl in Hgt; lia | reflexivity]. }
    rewrite Hne. cbn [orb].
    assert (Hlen : List.length (firstn maxLength text ++ three_dots)%list
                   = maxLength + 3).
    { rewrite length_app, length_firstn. simpl. lia. }
    split; [lia|]. split; [|lia].
    intros _. split; [reflexivity|]. split; [|exact Hlen].
    exists (skipn maxLength text). symmetry. apply firstn_skipn.
Qed.

(** A text of two characters outside the basic plane is four code
    units: cut at three, it keeps the first character and the high
    surrogate of the second. *)
Example truncate_counts_code_units :
  truncate [55357; 56832; 55357; 56832]%N 3 =
    [55357; 56832; 55357; 46; 46; 46]%N /\
  truncate [55357; 56832; 55357; 56832]%N 4 =
    [55357; 56832; 55357; 56832]%N.
Proof. split; reflexivity. Qed.

Lemma prefix_append (n b : string) : String.prefix n (n ++ b) = true.
Proof.
  induction n as [|c n IH]; simpl; [now destruct b|].
  destruct (ascii_dec c c); [assumption | contradiction].
Qed.

Lemma substring_skip (n b : string) :
  substring (String.length n) (String.length (n ++ b) - String.length n)
            (n ++ b) = b.
Proof.
  induction n as [|c n IH]; simpl.
  - rewrite Nat.sub_0_r. clear. induction b as [|c b IH]; simpl;
      [reflexivity | now rewrite IH].
  - exact IH.
Qed.

Lemma prefix_split (n s : string) :
  String.prefix n s = true -> exists b, s = n ++ b.
Proof.
  revert s. induction n as [|c n IH]; intros s; simpl.
  - intros _. now exists s.
  - destruct s as [|d s]; simpl; [discriminate|].
    destruct (ascii_dec c d) as [->|Hne]; [|discriminate].
    intros H. destruct (IH s H) as [b ->]. now exists b.
Qed.

Lemma replace_first_eq (pattern by_ s : string) :
  replace_first pattern by_ s =
    if String.prefix pattern s then
      by_ ++ substring (String.length pattern)
                       (String.length s - String.length pattern) s
    else match s with
         | EmptyString => EmptyString
         | String c rest => String c (replace_first pattern by_ rest)
         end.
Proof. now destruct s. Qed.

(** Collection tags and collection names: [getCollectionName] of a tag
    that starts with the collection prefix is the rest of the tag, so the
    prefix followed by the name is the tag again; of any other tag it is
    the empty text. *)
Theorem getCollectionName_round_trip (tag name : string) :
  getCollectionName ("collection:" ++ name) = name /\
  isCollectionTag ("collection:" ++ name) = true /\
  (isCollectionTag tag = true ->
     "collection:" ++ getCollectionName tag = tag) /\
  (isCollectionTag tag = false -> getCollectionName tag = "").
Proof.
  assert (Hname : forall n, getCollectionName ("collection:" ++ n) = n).
  { intros n. unfold getCollectionName, isCollectionTag.
    rewrite prefix_append. cbn [negb].
    rewrite replace_first_eq, prefix_append.
    exact (substring_skip "collection:" n). }
  split; [apply Hname|]. split; [apply prefix_append|]. split.
  - intros H. unfold isCollectionTag in H.
    apply prefix_split in H as [b ->]. now rewrite Hname.
  - intros H. unfold getCollectionName. now rewrite H.
Qed.

(* ===================================================================== *)
(** * Properties of the search (search.js) *)
(* ===================================================================== *)

Lemma js_sort_fixed {A} (compare : A -> A -> Z) (l : list A) :
  Sorted (fun a b => (compare a b <= 0)%Z) l -> js_sort compare l = l.
Proof.
  induction 1 as [|a l Hs IH Hhd]; simpl; [reflexivity|].
  rewrite IH. destruct Hhd as [|b l' Hab]; simpl; [reflexivity|].
  apply Z.leb_le in Hab. now rewrite Hab.
Qed.

Section SearchFacts.
Variable toLowerCase : string -> string.
Variable trim : string -> string.
Variable localeCompare : string -> string -> Z.

Lemma sortPrompts_Permutation (prompts : list Prompt.t) (sortBy : string) :
  Permutation (sortPrompts localeCompare prompts sortBy) prompts.
Proof.
  unfold sortPrompts.
  destruct (sortBy =? "title"); [apply js_sort_Permutation|].
  destruct (sortBy =? "createdAt"); apply js_sort_Permutation.
Qed.

(** [sortPrompts] returns the prompts it is given, each once; newest
    [createdAt] first for the sort key createdAt, where the listing of the
    store by that key is oldest first; newest [updatedAt] first for any
    key other than title and createdAt; and sorting the default listing of
    the store again by updatedAt changes nothing. *)
Theorem sortPrompts_sorted (prompts : list Prompt.t) (sortBy : string) :
  Permutation (sortPrompts localeCompare prompts sortBy) prompts /\
  (sortBy = "createdAt" ->
     StronglySorted (fun a b => (Prompt.createdAt b <= Prompt.createdAt a)%Z)
       (sortPrompts localeCompare prompts sortBy)) /\
  (sortBy <> "title" -> sortBy <> "createdAt" ->
     StronglySorted (fun a b => (Prompt.updatedAt b <= Prompt.updatedAt a)%Z)
       (sortPrompts localeCompare prompts sortBy)) /\
  (forall options w l w',
     opt_sortBy options <> Some "title" ->
     opt_sortBy options <> Some "createdAt" ->
     getAllPrompts options w = (Returned l, w') ->
     sortPrompts localeCompare l "updatedAt" = l).
Proof.
  split; [apply sortPrompts_Permutation|]. split; [|split].
  - intros ->. unfold sortPrompts. simpl.
    apply Sorted_StronglySorted; [intros a b c; lia|].
    apply js_sort_Sorted; intros a b; lia.
  - intros Ht Hc. unfold sortPrompts.
    apply String.eqb_neq in Ht, Hc. rewrite Ht, Hc.
    apply Sorted_StronglySorted; [intros a b c; lia|].
    apply js_sort_Sorted; intros a b; lia.
  - intros options w l w' Ht Hc Hrun.
    destruct (getAllPrompts_sorted_listing options w)
      as (l' & Hrun' & _ & _ & _ & Hsorted).
    rewrite Hrun' in Hrun. injection Hrun as -> _.
    unfold sortPrompts. simpl. apply js_sort_fixed.
    eapply Sorted_impl; [|apply StronglySorted_Sorted, Hsorted; assumption].
    intros a b H. simpl in H. lia.
Qed.

Lemma getAllPrompts_active (options : Options) :
  opt_archived options = Some false -> lists_active (getAllPrompts options).
Proof.
  intros Ha w.
  destruct (getAllPrompts_sorted_listing options w) as (l & Hrun & Hperm & _).
  exists l. split; [assumption|]. intros p Hp.
  apply (Permutation_in _ Hperm) in Hp. apply filter_In in Hp as [Hp Hk].
  unfold keep_archived in Hk. rewrite Ha in Hk.
  split; [assumption | now apply negb_true_iff].
Qed.

Lemma searchPrompts_active (query : string) :
  lists_active (searchPrompts toLowerCase query).
Proof.
  unfold searchPrompts. destruct (query =? "");
    [now apply getAllPrompts_active|].
  intros w. eexists. split; [reflexivity|]. intros p Hp.
  apply filter_In in Hp as [Hp _].
  unfold prompts_toArray, prompts_filter, toCollection in Hp.
  cbn [prompt_dir prompt_items] in Hp.
  apply filter_In in Hp as [Hp Ha]. split; [assumption|].
  now apply negb_true_iff.
Qed.

Lemma filterPromptsByTags_active (tags : list string) :
  lists_active (filterPromptsByTags tags).
Proof.
  destruct tags as [|t tags]; [now apply getAllPrompts_active|].
  intros w. eexists. split; [reflexivity|]. intros p Hp.
  apply filter_In in Hp as [Hp _].
  unfold prompts_toArray, prompts_filter, toCollection in Hp.
  cbn [prompt_dir prompt_items] in Hp.
  apply filter_In in Hp as [Hp Ha]. split; [assumption|].
  now apply negb_true_iff.
Qed.

Lemma firstn_In {A} (n : nat) (l : list A) (x : A) :
  In x (firstn n l) -> In x l.
Proof.
  revert l. induction n as [|n IH]; intros [|y l]; simpl; try tauto.
  intros [->|H]; [now left | right; now apply IH].
Qed.

(** [performSearch] reads the store without writing. Unless the smart
    filter is the archived one, every prompt it returns is stored and not
    archived, whatever the query and the selected tags; with the archived
    filter every prompt it returns is archived; with no smart filter every
    prompt it returns carries all selected tags, also when it was found by
    a query; and the recent filter returns at most 20 prompts. *)
Theorem performSearch_results (state : SearchState) (w : World) :
  exists l,
    performSearch toLowerCase trim localeCompare state w = (Returned l, w) /\
    (smartFilter state <> Some "archived" ->
       forall p, In p l -> In p (prompts w) /\ Prompt.archived p = false) /\
    (smartFilter state = Some "archived" ->
       forall p, In p l -> In p (prompts w) /\ Prompt.archived p = true) /\
    (smartFilter state = None ->
       forall p tag, In p l -> In tag (selectedTags state) ->
         In tag (Prompt.tags p)) /\
    (smartFilter state = Some "recent" -> List.length l <= 20).
Proof.
  set (normal :=
    if truthy (Some (searchQuery state))
       && truthy (Some (trim (searchQuery state))) then
      searchPrompts toLowerCase (trim (searchQuery state))
    else if (0 <? List.length (selectedTags state))%nat then
      filterPromptsByTags (selectedTags state)
    else getAllPrompts not_archived).
  assert (Hnormal : lists_active normal).
  { unfold normal.
    destruct (truthy (Some (searchQuery state))
              && truthy (Some (trim (searchQuery state))));
      [apply searchPrompts_active|].
    destruct (0 <? List.length (selectedTags state))%nat;
      [apply filterPromptsByTags_active|].
    now apply getAllPrompts_active. }
  set (post := fun results : list Prompt.t =>
    if (0 <? List.length (selectedTags state))%nat
       && negb (truthy (smartFilter state)) then
      filter (fun prompt =>
                forallb (fun tag => array_includes (Prompt.tags prompt) tag)
                        (selectedTags state)) results
    else results).
  assert (Hpost : forall results p, In p (post results) -> In p results).
  { intros results p. unfold post.
    destruct ((0 <? List.length (selectedTags state))%nat
              && negb (truthy (smartFilter state))); [|auto].
    intros H. now apply filter_In in H as [H _]. }
  assert (Hsort : forall results p,
            In p (sortPrompts localeCompare (post results) (sortBy state)) ->
            In p results).
  { intros results p H. apply Hpost.
    exact (Permutation_in _ (sortPrompts_Permutation _ _) H). }
  unfold performSearch. fold normal.
  destruct (smartFilter state) as [name|] eqn:Ef.
  - destruct (String.eqb_spec name "recent") as [->|Hr].
    { destruct (getAllPrompts_active
                  {| opt_archived := Some false;
                     opt_sortBy := Some "updatedAt" |} eq_refl w)
        as (l & Hrun & Hact).
      unfold bind at 1. unfold bind at 1. rewrite Hrun. unfold ret.
      eexists. split; [reflexivity|].
      split; [|split; [|split]]; try discriminate.
      - intros _ p Hp. apply Hsort, firstn_In in Hp. now apply Hact.
      - intros _.
        rewrite (Permutation_length (sortPrompts_Permutation _ _)).
        unfold post. rewrite andb_false_r. apply firstn_le_length. }
    destruct (String.eqb_spec name "untagged") as [->|Hu].
    { destruct (getAllPrompts_active not_archived eq_refl w)
        as (l & Hrun & Hact).
      unfold bind at 1. unfold bind at 1. rewrite Hrun. unfold ret.
      eexists. split; [reflexivity|].
      split; [|split; [|split]]; try discriminate.
      intros _ p Hp. apply Hsort in Hp. apply filter_In in Hp as [Hp _].
      now apply Hact. }
    destruct (String.eqb_spec name "archived") as [->|Ha].
    { destruct (getAllPrompts_sorted_listing
                  {| opt_archived := Some true; opt_sortBy := None |} w)
        as (l & Hrun & Hperm & _).
      unfold bind. rewrite Hrun. unfold ret.
      eexists. split; [reflexivity|].
      split; [|split; [|split]]; try discriminate; try congruence.
      intros _ p Hp. apply Hsort in Hp.
      apply (Permutation_in _ Hperm) in Hp. now apply filter_In in Hp. }
    destruct (Hnormal w) as (l & Hrun & Hact).
    unfold bind. rewrite Hrun. unfold ret.
    eexists. split; [reflexivity|].
    split; [|split; [|split]]; try discriminate; try congruence.
    intros _ p Hp. now apply Hact, Hsort.
  - destruct (Hnormal w) as (l & Hrun & Hact).
    unfold bind. rewrite Hrun. unfold ret.
    eexists. split; [reflexivity|].
    split; [|split; [|split]]; try discriminate.
    + intros _ p Hp. now apply Hact, Hsort.
    + intros _ p t Hp Ht.
      apply (Permutation_in _ (sortPrompts_Permutation _ _)) in Hp.
      unfold post in Hp. simpl truthy in Hp. cbn [negb] in Hp.
      rewrite andb_true_r in Hp.
      destruct (selectedTags state) as [|t0 ts] eqn:Es; [contradiction|].
      simpl Nat.ltb in Hp. cbv iota in Hp.
      apply filter_In in Hp as [_ Hall].
      rewrite forallb_forall in Hall.
      apply array_includes_In. now apply Hall.
Qed.
End SearchFacts.

(* ===================================================================== *)
(** * Further properties of the diff and of version updates *)
(* ===================================================================== *)

Lemma length_covered {A} (f g : A -> bool) (l : list A) :
  (forall x, f x || g x = true) ->
  List.length l <= List.length (filter f l) + List.length (filter g l).
Proof.
  intros H. induction l as [|x l IH]; simpl; [lia|].
  specialize (H x). destruct (f x), (g x); simpl in *; try discriminate; lia.
Qed.

(** The diff has at least as many entries as the longer input has lines
    and at most as many as both inputs together; against an empty list of
    lines every line is a removal, or every line an addition. *)
Theorem computeDiff_length_bounds (oldLines newLines : list string) :
  List.length oldLines <= List.length (computeDiff oldLines newLines) /\
  List.length newLines <= List.length (computeDiff oldLines newLines) /\
  List.length (computeDiff oldLines newLines)
    <= List.length oldLines + List.length newLines /\
  computeDiff oldLines [] = map (Diff.mk removed) oldLines /\
  computeDiff [] newLines = map (Diff.mk added) newLines.
Proof.
  rewrite !computeDiff_walk.
  destruct (greedy_walk_sides oldLines newLines) as [Ho Hn].
  set (d := greedy_walk oldLines newLines) in *.
  assert (Hlo : List.length oldLines =
                List.length (filter (fun e => match type e with
                                              | added => false
                                              | _ => true end) d))
    by (rewrite <- Ho at 1; unfold old_side; apply length_map).
  assert (Hln : List.length newLines =
                List.length (filter (fun e => match type e with
                                              | removed => false
                                              | _ => true end) d))
    by (rewrite <- Hn at 1; unfold new_side; apply length_map).
  split; [rewrite Hlo; apply filter_length_le|].
  split; [rewrite Hln; apply filter_length_le|].
  split.
  - rewrite Hlo, Hln. apply length_covered. intros e. now destruct (type e).
  - split; [apply greedy_walk_nil_r | apply greedy_walk_nil_l].
Qed.

Section VersionUpdateFacts.
Variable now_at : nat -> Z.

(** [updateVersion] rewrites a stored version in place: the fields given
    replace the stored ones and [updatedAt] becomes the time read, under
    the same id; the other versions and all prompts, the parent included,
    stay as they are. For an id that is not stored it returns normally and
    changes neither table. *)
Theorem updateVersion_in_place (id : string) (updates : VersionChanges)
    (w : World) :
  exists w',
    updateVersion now_at id updates w = (Returned tt, w') /\
    prompts w' = prompts w /\
    (forall v, tbl_get Version.id id (versions w) = Some v ->
       getVersion id w' =
         (Returned
            (Some (apply_version_changes
                     (version_with_updatedAt updates (now_at (clock_reads w)))
                     v)), w')) /\
    (forall k, k <> id ->
       tbl_get Version.id k (versions w') = tbl_get Version.id k (versions w)) /\
    (tbl_get Version.id id (versions w) = None -> versions w' = versions w).
Proof.
  unfold updateVersion, bind, Date_now, versions_update.
  eexists. split; [reflexivity|]. cbn [prompts versions clock_reads].
  split; [reflexivity|]. split; [|split].
  - intros v Hv. unfold getVersion, versions_get. cbn [versions].
    rewrite tbl_get_update_same by apply apply_version_changes_id.
    now rewrite Hv.
  - intros k Hk.
    apply tbl_get_update_other; [apply apply_version_changes_id|congruence].
  - intros Hv. now apply tbl_update_absent.
Qed.
End VersionUpdateFacts.

(** [getRelatedPrompts] reads without writing and returns at most [limit]
    prompts; each is stored, not archived, is not the prompt itself and
    shares a tag with it; for a prompt with no tag it returns nothing. *)
Theorem getRelatedPrompts_related (prompt : Prompt.t) (limit : nat)
    (w : World) :
  exists l,
    getRelatedPrompts prompt limit w = (Returned l, w) /\
    List.length l <= limit /\
    (forall q, In q l ->
       In q (prompts w) /\ Prompt.archived q = false /\
       Prompt.id q <> Prompt.id prompt /\
       exists tag, In tag (Prompt.tags q) /\ In tag (Prompt.tags prompt)) /\
    (Prompt.tags prompt = [] -> l = []).
Proof.
  unfold getRelatedPrompts.
  destruct (Prompt.tags prompt) as [|t ts] eqn:Et.
  - exists []. simpl. repeat split; try lia; contradiction.
  - cbn [List.length Nat.eqb].
    destruct (getAllPrompts_active not_archived eq_refl w)
      as (all & Hrun & Hact).
    unfold bind. rewrite Hrun. unfold ret.
    eexists. split; [reflexivity|]. split; [|split; [|discriminate]].
    + rewrite length_map. apply firstn_le_length.
    + intros q Hq. apply in_map_iff in Hq as (item & <- & Hitem).
      apply firstn_In in Hitem.
      apply (Permutation_in _ (js_sort_Permutation _ _)) in Hitem.
      apply filter_In in Hitem as [Hitem Hscore].
      apply in_map_iff in Hitem as (p & <- & Hp).
      apply filter_In in Hp as [Hp Hne].
      cbn [scored_prompt score] in *.
      destruct (Hact p Hp) as [Hin Harch].
      split; [assumption|]. split; [assumption|]. split.
      * apply negb_true_iff, String.eqb_neq in Hne. exact Hne.
      * apply Nat.ltb_lt in Hscore.
        destruct (filter (fun tag => array_includes (t :: ts) tag)
                         (Prompt.tags p)) as [|tag rest] eqn:Ef;
          [simpl in Hscore; lia|].
        assert (Htag : In tag (filter (fun tag => array_includes (t :: ts) tag)
                                 (Prompt.tags p)))
          by (rewrite Ef; now left).
        apply filter_In in Htag as [H1 H2]. exists tag.
        split; [assumption | now apply array_includes_In].
Qed.

(* ===================================================================== *)
(** * The further properties on concrete stores *)
(* ===================================================================== *)

(** Creating the prompt Poem with content in the scenario store. *)
Lemma createPrompt_with_content_witness :
  PromptData.content poem_data = Some "Roses" /\
  tbl_get Prompt.id (uuids (uuid_draws store_p1)) (prompts store_p1) = None /\
  exists w',
    createPrompt clock uuids poem_data store_p1 = (Returned "uuid-0", w') /\
    getVersionsByPrompt "uuid-0" w' =
      (Returned
         [{| Version.id := "uuid-1"; Version.promptId := "uuid-0";
             Version.version := "v1"; Version.content := "Roses";
             Version.notes := "";
             Version.createdAt := 1700000000001;
             Version.updatedAt := 1700000000001 |}], w').
Proof.
  split; [reflexivity|]. split; [reflexivity|].
  assert (Horphan : forall x, In x (versions store_p1) ->
            Version.promptId x <> uuids (uuid_draws store_p1))
    by (intros x [<-|[]]; discriminate).
  destruct (createPrompt_with_content clock uuids poem_data store_p1 "Roses"
              eq_refl ltac:(discriminate) eq_refl eq_refl Horphan)
    as (w' & Hrun & _ & Hversions).
  exists w'. split; [exact Hrun | exact Hversions].
Defined.

(** Creating a prompt with empty title and empty content. *)
Lemma createPrompt_without_content_witness :
  tbl_get Prompt.id (uuids (uuid_draws store_p1)) (prompts store_p1) = None /\
  exists w',
    createPrompt clock uuids untitled_data store_p1 = (Returned "uuid-0", w') /\
    versions w' = [version_1] /\
    getPrompt "uuid-0" w' =
      (Returned
         (Some {| Prompt.id := "uuid-0"; Prompt.title := "Untitled Prompt";
                  Prompt.description := ""; Prompt.tags := [];
                  Prompt.createdAt := 1700000000000;
                  Prompt.updatedAt := 1700000000000;
                  Prompt.archived := false |}), w').
Proof.
  split; [reflexivity|].
  destruct (createPrompt_without_content clock uuids untitled_data store_p1
              (or_intror eq_refl) eq_refl)
    as (w' & Hrun & Hv & Hp).
  exists w'. split; [exact Hrun|]. split; [exact Hv | exact Hp].
Defined.

(** A version created for the prompt id p9, which is not stored. *)
Lemma createVersion_without_parent_witness :
  tbl_get Prompt.id "p9" (prompts store_p1) = None /\
  exists w',
    createVersion clock uuids "p9" (Some "B") None store_p1 =
      (Returned "uuid-0", w') /\
    prompts w' = [prompt_p1].
Proof.
  split; [reflexivity|].
  destruct (createVersion_without_parent clock uuids "p9" (Some "B") None
              store_p1 eq_refl eq_refl)
    as (w' & Hrun & Hp & _).
  exists w'. split; [exact Hrun | exact Hp].
Defined.

(** The version created in the scenario store is the latest one. *)
Lemma createVersion_becomes_latest_witness :
  exists w' latest,
    createVersion clock uuids "p1" (Some "B") None store_p1 =
      (Returned "uuid-0", w') /\
    getLatestVersion "p1" w' = (Returned (Some latest), w') /\
    Version.content latest = "B" /\ Version.version latest = "v2".
Proof.
  assert (Hold : forall x, In x (versions store_p1) ->
            Version.promptId x = "p1" ->
            (Version.createdAt x < clock (clock_reads store_p1))%Z)
    by (intros x [<-|[]] _; reflexivity).
  destruct (createVersion_becomes_latest clock uuids "p1" (Some "B") None
              store_p1 eq_refl Hold)
    as (w' & Hrun & Hlatest).
  exists w'. eexists. split; [exact Hrun|]. split; [exact Hlatest|].
  split; reflexivity.
Defined.


(** A query in capitals finds the prompt Greeting. *)
Lemma searchPrompts_matches_witness :
  "GREET" <> "" /\
  searchPrompts lower_ascii "GREET" store_p1 = (Returned [prompt_p1], store_p1) /\
  searchPrompts lower_ascii "greet" store_p1 = (Returned [prompt_p1], store_p1).
Proof.
  split; [discriminate|].
  destruct (searchPrompts_matches lower_ascii "GREET" store_p1
              ltac:(discriminate))
    as (l & Hrun & _ & Hcase).
  assert (Hl : l = [prompt_p1]).
  { assert (H : searchPrompts lower_ascii "GREET" store_p1
                = (Returned [prompt_p1], store_p1)) by reflexivity.
    rewrite H in Hrun. now injection Hrun as <-. }
  subst l. split; [exact Hrun|].
  exact (Hcase "greet" ltac:(discriminate) eq_refl).
Defined.

(** Export, clear and import of the store with the prompts p1 and p2. *)
Lemma export_clear_import_witness :
  unique_ids store_p1_p2 /\
  exists w',
    (data <- exportData clock ;;
     clearAllData ;;;
     importData clock (as_import data) false) store_p1_p2 =
      (Returned {| imported := 2; skipped := 0; merged := 0 |}, w') /\
    (forall k, tbl_get Prompt.id k (prompts w')
               = tbl_get Prompt.id k (prompts store_p1_p2)).
Proof.
  assert (Hu : unique_ids store_p1_p2).
  { split; simpl; (constructor; [intros [H|[]]; discriminate|]);
      (constructor; [intros []|constructor]). }
  split; [exact Hu|].
  destruct (export_clear_import clock false store_p1_p2 Hu)
    as (w' & Hrun & _ & Hget & _).
  exists w'. split; [exact Hrun | exact Hget].
Defined.

(** Restoring the backup of the store with the prompts p1 and p2. *)
Lemma restore_own_backup_witness :
  NoDup (map Prompt.id (prompts store_p1_p2)) /\
  exists w',
    (data <- backup clock ;; restore clock (as_import data)) store_p1_p2 =
      (Returned {| imported := 0; skipped := 0; merged := 0 |}, w') /\
    versions w' = [version_1; version_x_local].
Proof.
  assert (Hnd : NoDup (map Prompt.id (prompts store_p1_p2))).
  { simpl. constructor; [intros [H|[]]; discriminate|].
    constructor; [intros []|constructor]. }
  split; [exact Hnd|].
  destruct (restore_own_backup clock store_p1_p2 Hnd) as (w' & Hrun & Hv & _).
  exists w'. split; [exact Hrun | exact Hv].
Defined.

(** The ampersand of an entity is no markup character. *)
Lemma escapeHtml_no_markup_witness :
  escapeHtml "<b>" = "&lt;b&gt;" /\
  In "&"%char (list_ascii_of_string (escapeHtml "<b>")) /\
  "&"%char <> "<"%char /\ "&"%char <> ">"%char /\
  "&"%char <> dquote /\ "&"%char <> "'"%char.
Proof.
  split; [reflexivity|].
  assert (Hin : In "&"%char (list_ascii_of_string (escapeHtml "<b>")))
    by (simpl; auto).
  split; [exact Hin|].
  exact (escapeHtml_no_markup "<b>" "&"%char Hin).
Defined.

(** Two spellings of one text. *)
Lemma escapeHtml_injective_witness :
  escapeHtml ("a<" ++ "b") = escapeHtml "a<b" /\ "a<" ++ "b" = "a<b".
Proof.
  split; [reflexivity|].
  exact (escapeHtml_injective ("a<" ++ "b") "a<b" eq_refl).
Defined.
